(** * The debugger [Bridge]: pending-request tables over a webview channel

    A shallow embedding of the [Bridge] class of
    [pkg/nuclide-debugger/lib/DebuggerSteppingComponent.js] (second module of
    the file, lines 227-652): the two pending-request tables
    [_expressionsInFlight] and [_getPropertiesRequestsInFlight], the nullable
    [_webview] handle, the async method [_cachedSendCommand] and the inbound
    handler [_handleResponseForPendingRequest].

    The JavaScript run time is made explicit: promises live in a heap
    addressed by allocation order, [then]-registrations on unsettled promises
    are kept in registration order, and settled promises hand their
    registrations to a FIFO microtask queue.  Async functions are the
    generators that [_asyncToGenerator] (line 171) drives: the part of the
    body before the first [yield] runs inside the call, the part after it is
    a continuation resumed by a microtask.

    The code of the other packages follows, each in a module of its own:
    the Clang linter, the native notifications, the modal dialog and the
    epics of the device panel. *)

From stdpp Require Import gmap strings list relations.

Set Warnings "-register-all".
Set Default Proof Using "Type".

(** ** JavaScript values *)

Inductive jsval :=
  | JUndefined
  | JNull
  | JBool (b : bool)
  | JStr (s : string)
  | JArr (items : list jsval)
  | JObj (fields : list (string * jsval)).

(** [v == null]: true of [null] and [undefined] only. *)
Definition nullish (v : jsval) : bool :=
  match v with
  | JUndefined | JNull => true
  | _ => false
  end.

Fixpoint assoc (name : string) (fields : list (string * jsval)) : jsval :=
  match fields with
  | [] => JUndefined
  | (n, v) :: rest => if String.eqb n name then v else assoc name rest
  end.

(** [v === 'text'], as a [case 'text':] of a [switch] tests it. *)
Definition strict_eq_string (v : jsval) (text : string) : bool :=
  match v with
  | JStr s => String.eqb s text
  | _ => false
  end.

(** Outcome of evaluating a piece of synchronous code. *)
Inductive completion (A : Type) :=
  | Normal (a : A)
  | Throw (error : jsval).
Arguments Normal {A} a.
Arguments Throw {A} error.

Definition TypeError : jsval := JObj [("name", JStr "TypeError")].
Definition AssertionError : jsval := JObj [("name", JStr "AssertionError")].

(** [v.name]: a [TypeError] on [null] and [undefined], [undefined] on the
    other primitives and on a missing property. *)
Definition get_prop (v : jsval) (name : string) : completion jsval :=
  match v with
  | JUndefined | JNull => Throw TypeError
  | JObj fields => Normal (assoc name fields)
  | _ => Normal JUndefined
  end.

(** [v.name = x]: as [get_prop] on [null] and [undefined]; the write is
    dropped on the other primitives. *)
Definition set_prop (v : jsval) (name : string) (x : jsval) : completion jsval :=
  match v with
  | JUndefined | JNull => Throw TypeError
  | JObj fields => Normal (JObj ((name, x) :: fields))
  | _ => Normal v
  end.

(** ** Promises, continuations and the state of the bridge *)

(** Promises and webview elements are objects: they are told apart by
    identity, here their allocation number. *)
Abbreviation ref := nat (only parsing).
Abbreviation WebviewElement := nat (only parsing).

Inductive table :=
  | ExpressionsInFlight
  | GetPropertiesRequestsInFlight.

Global Instance table_eq_dec : EqDecision table.
Proof. solve_decision. Defined.

Inductive outcome :=
  | Fulfilled (value : jsval)
  | Rejected (error : jsval).

(** The suspended rest of an async method, after its [yield]; [out] is the
    promise that the call returned. *)
Inductive cont :=
  | K_cachedSendCommand (cache : table) (command value : string) (out : ref)
  | K_evaluateOnSelectedCallFrame (expression : string) (out : ref)
  | K_runtimeEvaluate (expression : string) (out : ref).

Global Instance cont_eq_dec : EqDecision cont.
Proof. solve_decision. Defined.

(** The promise a continuation settles when it is done. *)
Definition target (k : cont) : ref :=
  match k with
  | K_cachedSendCommand _ _ _ out => out
  | K_evaluateOnSelectedCallFrame _ out => out
  | K_runtimeEvaluate _ out => out
  end.

Record state := mkState {
  _webview : option WebviewElement;
  _expressionsInFlight : gmap string ref;
  _getPropertiesRequestsInFlight : gmap string ref;
  (** run time: promise states ([None] is pending), registrations,
      microtask queue *)
  heap : list (option outcome);
  waiting : list (ref * cont);
  microtasks : list (cont * outcome);
  (** environment: what was written to which webview, what was logged *)
  sent : list (WebviewElement * list jsval);
  warnings : list (string * jsval)
}.

(** [new Bridge(debuggerModel)], lines 228-238. *)
Definition constructor : state :=
  mkState None ∅ ∅ [] [] [] [] [].

Definition set_webview (w : option WebviewElement) (s : state) : state :=
  mkState w (_expressionsInFlight s) (_getPropertiesRequestsInFlight s)
    (heap s) (waiting s) (microtasks s) (sent s) (warnings s).

Definition get_table (t : table) (s : state) : gmap string ref :=
  match t with
  | ExpressionsInFlight => _expressionsInFlight s
  | GetPropertiesRequestsInFlight => _getPropertiesRequestsInFlight s
  end.

Definition set_table (t : table) (m : gmap string ref) (s : state) : state :=
  match t with
  | ExpressionsInFlight =>
      mkState (_webview s) m (_getPropertiesRequestsInFlight s)
        (heap s) (waiting s) (microtasks s) (sent s) (warnings s)
  | GetPropertiesRequestsInFlight =>
      mkState (_webview s) (_expressionsInFlight s) m
        (heap s) (waiting s) (microtasks s) (sent s) (warnings s)
  end.

Definition set_runtime (h : list (option outcome)) (w : list (ref * cont))
    (q : list (cont * outcome)) (s : state) : state :=
  mkState (_webview s) (_expressionsInFlight s) (_getPropertiesRequestsInFlight s)
    h w q (sent s) (warnings s).

(** [webview.send(...msg)] *)
Definition send (w : WebviewElement) (msg : list jsval) (s : state) : state :=
  mkState (_webview s) (_expressionsInFlight s) (_getPropertiesRequestsInFlight s)
    (heap s) (waiting s) (microtasks s) (sent s ++ [(w, msg)]) (warnings s).

(** [getLogger().warn(text, e)] *)
Definition warn (text : string) (e : jsval) (s : state) : state :=
  mkState (_webview s) (_expressionsInFlight s) (_getPropertiesRequestsInFlight s)
    (heap s) (waiting s) (microtasks s) (sent s) (warnings s ++ [(text, e)]).

(** [new Promise(...)]: the next free address. *)
Definition new_promise (s : state) : ref * state :=
  (length (heap s), set_runtime (heap s ++ [None]) (waiting s) (microtasks s) s).

(** Settling a promise: the first settlement wins, and the registrations go
    to the microtask queue in the order they were made. *)
Definition settle (p : ref) (o : outcome) (s : state) : state :=
  match heap s !! p with
  | Some None =>
      set_runtime (<[p := Some o]> (heap s))
        (filter (λ e, e.1 ≠ p) (waiting s))
        (microtasks s ++ ((λ e, (e.2, o)) <$> filter (λ e, e.1 = p) (waiting s)))
        s
  | _ => s
  end.

(** [Promise.resolve(p).then(callNext, callThrow)] with [p] one of the
    promises of the heap. *)
Definition then_ (p : ref) (k : cont) (s : state) : state :=
  match heap s !! p with
  | Some (Some o) =>
      set_runtime (heap s) (waiting s) (microtasks s ++ [(k, o)]) s
  | _ =>
      set_runtime (heap s) (waiting s ++ [(p, k)]) (microtasks s) s
  end.

(** Modelled from the spec: the [Deferred] class of [commons-node/promise],
    which is not among the sources.  The spec calls it "an unsettled result
    placeholder exposing resolve/reject semantics and an awaitable outcome"
    and "a single-resolution awaitable outcome": a promise together with the
    two functions that settle it. *)
Definition Deferred_new (s : state) : ref * state := new_promise s.
Definition Deferred_resolve (d : ref) (result : jsval) (s : state) : state :=
  settle d (Fulfilled result) s.
Definition Deferred_reject (d : ref) (error : jsval) (s : state) : state :=
  settle d (Rejected error) s.

(** ** [_asyncToGenerator], line 171 *)

(** What [gen.next(arg)] or [gen.throw(arg)] comes back with. *)
Inductive gen_result :=
  | Done (value : jsval)
  | Thrown (error : jsval)
  | Yield (p : ref) (k : ref → cont).

(** The body of [step]: reject on a throw, resolve when done, otherwise
    register [callNext] and [callThrow] on the yielded promise. *)
Definition step_result (out : ref) (r : gen_result) (s : state) : state :=
  match r with
  | Done value => settle out (Fulfilled value) s
  | Thrown error => settle out (Rejected error) s
  | Yield p k => then_ p (k out) s
  end.

Definition _asyncToGenerator (body : state → gen_result * state)
    (s : state) : ref * state :=
  let '(out, s) := new_promise s in
  let '(r, s) := body s in
  (out, step_result out r s).

(** ** The methods of [Bridge] *)

(** [setWebviewElement], lines 241-249.  The listener it installs is what
    calls [_handleIpcMessage] below. *)
Definition setWebviewElement (webview : WebviewElement) (s : state) : state :=
  set_webview (Some webview) s.

(** [cleanup], lines 259-271: the listeners are removed and the handle is
    cleared; the deferred [clearInterface] acts on the debugger model only. *)
Definition cleanup (s : state) : state :=
  set_webview None s.

(** [dispose], lines 251-255. *)
Definition dispose (s : state) : state :=
  cleanup s.

(** The shape shared by [continue], [stepOver], [stepInto], [stepOut],
    [triggerAction], [setPauseOnException], [setPauseOnCaughtException],
    [setSingleThreadStepping], [selectThread], [_updateDebuggerSettings] and
    [_handleUserBreakpointChange]:
    [if (this._webview) this._webview.send('command', ...msg)]. *)
Definition send_if_attached (msg : list jsval) (s : state) : state :=
  match _webview s with
  | Some w => send w (JStr "command" :: msg) s
  | None => s
  end.

Definition _continue : state → state := send_if_attached [JStr "Continue"].
Definition stepOver : state → state := send_if_attached [JStr "StepOver"].
Definition stepInto : state → state := send_if_attached [JStr "StepInto"].
Definition stepOut : state → state := send_if_attached [JStr "StepOut"].
Definition triggerAction (actionId : jsval) : state → state :=
  send_if_attached [JStr "triggerDebuggerAction"; actionId].
Definition setPauseOnException (enabled : jsval) : state → state :=
  send_if_attached [JStr "setPauseOnException"; enabled].
Definition setPauseOnCaughtException (enabled : jsval) : state → state :=
  send_if_attached [JStr "setPauseOnCaughtException"; enabled].
Definition setSingleThreadStepping (enabled : jsval) : state → state :=
  send_if_attached [JStr "setSingleThreadStepping"; enabled].
Definition selectThread (threadId : jsval) : state → state :=
  send_if_attached [JStr "selectThread"; threadId].
Definition _handleUserBreakpointChange (action : string) (location : jsval)
    : state → state :=
  send_if_attached [JStr action; location].

(** [_cachedSendCommand], lines 383-414, up to its [yield]. *)
Definition _cachedSendCommand_body (cache : table) (command : string)
    (args : list jsval) (s : state) : gen_result * state :=
  match _webview s with
  | None => (Done JNull, s)
  | Some webview =>
      match hd JUndefined args with
      | JStr value =>
          match get_table cache s !! value with
          | Some deferred =>
              (Yield deferred (K_cachedSendCommand cache command value), s)
          | None =>
              let '(deferred, s) := Deferred_new s in
              let s := set_table cache (<[value := deferred]> (get_table cache s)) s in
              let s := send webview (JStr "command" :: JStr command :: args) s in
              (Yield deferred (K_cachedSendCommand cache command value), s)
          end
      | _ => (Thrown AssertionError, s)
      end
  end.

Definition _cachedSendCommand (cache : table) (command : string)
    (args : list jsval) : state → ref * state :=
  _asyncToGenerator (_cachedSendCommand_body cache command args).

(** [getProperties], lines 301-304. *)
Definition getProperties (objectId : string) : state → ref * state :=
  _cachedSendCommand GetPropertiesRequestsInFlight "getProperties" [JStr objectId].

(** [_evaluateOnSelectedCallFrame], lines 355-367. *)
Definition _evaluateOnSelectedCallFrame (expression objectGroup : string)
    : state → ref * state :=
  _asyncToGenerator (λ s,
    let '(p, s) := _cachedSendCommand ExpressionsInFlight
                     "evaluateOnSelectedCallFrame"
                     [JStr expression; JStr objectGroup] s in
    (Yield p (K_evaluateOnSelectedCallFrame expression), s)).

(** [_runtimeEvaluate], lines 369-381. *)
Definition _runtimeEvaluate (expression : string) : state → ref * state :=
  _asyncToGenerator (λ s,
    let '(p, s) := _cachedSendCommand ExpressionsInFlight
                     "runtimeEvaluate" [JStr expression] s in
    (Yield p (K_runtimeEvaluate expression), s)).

(** [evaluateWatchExpression], lines 306-309. *)
Definition evaluateWatchExpression (expression : string) : state → ref * state :=
  _evaluateOnSelectedCallFrame expression "watch-group".

(** [evaluateConsoleExpression], lines 311-318; [debuggerMode] is what the
    store of the debugger model answers to [getDebuggerMode()]. *)
Definition evaluateConsoleExpression (debuggerMode : jsval) (expression : string)
    : state → ref * state :=
  if strict_eq_string debuggerMode "paused"
  then _evaluateOnSelectedCallFrame expression "console"
  else _runtimeEvaluate expression.

(** The value the two evaluation methods return for a missing result. *)
Definition failed_to_evaluate (expression : string) : jsval :=
  JObj [("type", JStr "text");
        ("value", JStr ("Failed to evaluate: " +:+ expression))].

(** The rest of each async method, resumed with the outcome of the promise
    it waited for: [gen.next(value)] or [gen.throw(error)]. *)
Definition resume (k : cont) (o : outcome) (s : state) : gen_result * state :=
  match k with
  | K_cachedSendCommand cache command value _ =>
      let '(result, s) :=
        match o with
        | Fulfilled result => (result, s)
        | Rejected e => (JNull, warn (command +:+ ": Error getting result.") e s)
        end in
      let s := set_table cache (delete value (get_table cache s)) s in
      (Done result, s)
  | K_evaluateOnSelectedCallFrame expression _
  | K_runtimeEvaluate expression _ =>
      match o with
      | Fulfilled result =>
          if nullish result then (Done (failed_to_evaluate expression), s)
          else (Done result, s)
      | Rejected e => (Thrown e, s)
      end
  end.

(** One microtask: [callNext] or [callThrow] of [_asyncToGenerator]. *)
Definition run_job (j : cont * outcome) (s : state) : state :=
  let '(r, s) := resume j.1 j.2 s in
  step_result (target j.1) r s.

(** The head of the queue is taken off and run; [None] on an empty queue. *)
Definition run_microtask (s : state) : option state :=
  match microtasks s with
  | [] => None
  | j :: q => Some (run_job j (set_runtime (heap s) (waiting s) q s))
  end.

Fixpoint drain (fuel : nat) (s : state) : state :=
  match fuel with
  | 0 => s
  | S fuel =>
      match run_microtask s with
      | None => s
      | Some s => drain fuel s
      end
  end.

(** A microtask checkpoint: the queue is run until it is empty.  No
    continuation of the bridge registers anything new, so every registration
    and every job is run at most once and their number is fuel enough
    ([run_microtasks_empty]). *)
Definition run_microtasks (s : state) : state :=
  drain (length (microtasks s) + length (waiting s)) s.

(** [_handleResponseForPendingRequest], lines 437-452.  The tables are keyed
    by strings, so [pending.get(key)] finds nothing under another key. *)
Definition _handleResponseForPendingRequest (pending : table)
    (response key : jsval) (s : state) : completion state :=
  match get_prop response "result" with
  | Throw e => Throw e
  | Normal result =>
  match get_prop response "error" with
  | Throw e => Throw e
  | Normal error =>
      match (match key with
             | JStr key => get_table pending s !! key
             | _ => None
             end) with
      | None => Normal s
      | Some deferred =>
          if nullish error then Normal (Deferred_resolve deferred result s)
          else Normal (Deferred_reject deferred error s)
      end
  end end.

(** [_handleDebuggerPaused], lines 534-538; [setDebuggerMode] acts on the
    debugger model. *)
Definition _handleDebuggerPaused (s : state) : state :=
  set_table ExpressionsInFlight ∅ s.

(** [_handleGetPropertiesResponse], lines 422-425. *)
Definition _handleGetPropertiesResponse (response : jsval) (s : state)
    : completion state :=
  match get_prop response "objectId" with
  | Throw e => Throw e
  | Normal objectId =>
      _handleResponseForPendingRequest GetPropertiesRequestsInFlight
        response objectId s
  end.

(** What the store of the debugger model answers while ['ready'] is
    handled. *)
Record DebuggerModel := {
  getSerializedData : jsval;
  getAllBreakpoints : list jsval;
  getTogglePauseOnException : jsval;
  getTogglePauseOnCaughtException : jsval;
  getEnableSingleThreadStepping : jsval
}.

(** [_updateDebuggerSettings], [_sendAllBreakpoints] and
    [_syncDebuggerState], lines 518-532 and 623-641.
    [_suppressBreakpointSync] is raised only while [_bindBreakpoint] and
    [_removeBreakpoint] call into the model and is down here; [_injectCSS]
    writes no message. *)
Definition _updateDebuggerSettings (m : DebuggerModel) : state → state :=
  send_if_attached [JStr "UpdateSettings"; getSerializedData m].
Definition _sendAllBreakpoints (m : DebuggerModel) : state → state :=
  send_if_attached [JStr "SyncBreakpoints"; JArr (getAllBreakpoints m)].
Definition _syncDebuggerState (m : DebuggerModel) (s : state) : state :=
  setSingleThreadStepping (getEnableSingleThreadStepping m)
    (setPauseOnCaughtException (getTogglePauseOnCaughtException m)
      (setPauseOnException (getTogglePauseOnException m) s)).

(** [_bindBreakpoint], lines 576-589, and [_removeBreakpoint], lines
    590-603: [location.sourceURL] is read first; what follows calls into the
    debugger model, with [_suppressBreakpointSync] raised before and lowered
    after, and leaves the bridge as it is. *)
Definition _bindBreakpoint (location : jsval) (s : state) : completion state :=
  match get_prop location "sourceURL" with
  | Throw e => Throw e
  | Normal _ => Normal s
  end.
Definition _removeBreakpoint (location : jsval) (s : state) : completion state :=
  match get_prop location "sourceURL" with
  | Throw e => Throw e
  | Normal _ => Normal s
  end.

Record event := { channel : string; args : list jsval }.

Section Bridge.

(** [normalizeRemoteObjectValue] is imported from a module that is not
    among the sources; it maps a result to a result. *)
Variable normalizeRemoteObjectValue : jsval → jsval.

(** [_handleExpressionEvaluationResponse], lines 416-420. *)
Definition _handleExpressionEvaluationResponse (response : jsval) (s : state)
    : completion state :=
  match get_prop response "result" with
  | Throw e => Throw e
  | Normal result =>
  match set_prop response "result" (normalizeRemoteObjectValue result) with
  | Throw e => Throw e
  | Normal response =>
  match get_prop response "expression" with
  | Throw e => Throw e
  | Normal expression =>
      _handleResponseForPendingRequest ExpressionsInFlight response expression s
  end end end.

(** [_handleIpcMessage], lines 454-516.  The notifications that are not
    listed call into the debugger model, none of them reads a property of
    its payload before a null check, and leave the bridge as it is. *)
Definition _handleIpcMessage (m : DebuggerModel) (e : event) (s : state)
    : completion state :=
  if String.eqb (channel e) "notification" then
    let name := hd JUndefined (args e) in
    if strict_eq_string name "ready" then
      Normal (_syncDebuggerState m
               (_sendAllBreakpoints m (_updateDebuggerSettings m s)))
    else if strict_eq_string name "BreakpointAdded" then
      _bindBreakpoint (nth 1 (args e) JUndefined) s
    else if strict_eq_string name "BreakpointRemoved" then
      _removeBreakpoint (nth 1 (args e) JUndefined) s
    else if strict_eq_string name "NonLoaderDebuggerPaused" then
      Normal (_handleDebuggerPaused s)
    else if strict_eq_string name "ExpressionEvaluationResponse" then
      _handleExpressionEvaluationResponse (nth 1 (args e) JUndefined) s
    else if strict_eq_string name "GetPropertiesResponse" then
      _handleGetPropertiesResponse (nth 1 (args e) JUndefined) s
    else Normal s
  else Normal s.

End Bridge.

(** ** The spec's name for the inbound operation of the multiplexer *)

(** The spec's [send] is [_cachedSendCommand];
    [deliver(table, correlationKey, result, error)]: the inbound handler
    applied to a response that carries [result] and [error]. *)
Definition deliver (t : table) (key : string) (result error : jsval)
    : state → completion state :=
  _handleResponseForPendingRequest t
    (JObj [("result", result); ("error", error)]) (JStr key).

(** ** Executions *)

Section Executions.

Variable normalizeRemoteObjectValue : jsval → jsval.

(** What can happen to a bridge.  Its methods are called by synchronous
    code, at any time; queued microtasks run one by one; an inbound message
    is handled by a listener, and as the call stack is empty when a listener
    returns, the microtask checkpoint that follows runs the queue until it is
    empty before anything else happens. *)
Inductive step : state → state → Prop :=
  | step_setWebviewElement w s :
      step s (setWebviewElement w s)
  | step_cleanup s :
      step s (cleanup s)
  | step_dispose s :
      step s (dispose s)
  | step_send_if_attached msg s :
      step s (send_if_attached msg s)
  | step_cachedSendCommand cache command args s :
      step s (_cachedSendCommand cache command args s).2
  | step_getProperties objectId s :
      step s (getProperties objectId s).2
  | step_evaluateWatchExpression expression s :
      step s (evaluateWatchExpression expression s).2
  | step_evaluateConsoleExpression mode expression s :
      step s (evaluateConsoleExpression mode expression s).2
  | step_microtask s s' :
      run_microtask s = Some s' →
      step s s'
  | step_handleIpcMessage m e s s' :
      _handleIpcMessage normalizeRemoteObjectValue m e s = Normal s' →
      step s (run_microtasks s')
  | step_handleResponseForPendingRequest pending response key s s' :
      _handleResponseForPendingRequest pending response key s = Normal s' →
      step s (run_microtasks s').

Definition reachable (s : state) : Prop := rtc step constructor s.

(** The executions of the multiplexer alone: sends and deliveries in any
    order, with the handle attached and cleared and other commands written
    in between.  These are the steps above without [_handleIpcMessage], that
    is, without the notification that empties [_expressionsInFlight]. *)
Inductive mux_step : state → state → Prop :=
  | mux_setWebviewElement w s :
      mux_step s (setWebviewElement w s)
  | mux_cleanup s :
      mux_step s (cleanup s)
  | mux_send_if_attached msg s :
      mux_step s (send_if_attached msg s)
  | mux_cachedSendCommand cache command args s :
      mux_step s (_cachedSendCommand cache command args s).2
  | mux_evaluateWatchExpression expression s :
      mux_step s (evaluateWatchExpression expression s).2
  | mux_evaluateConsoleExpression mode expression s :
      mux_step s (evaluateConsoleExpression mode expression s).2
  | mux_microtask s s' :
      run_microtask s = Some s' →
      mux_step s s'
  | mux_handleResponseForPendingRequest pending response key s s' :
      _handleResponseForPendingRequest pending response key s = Normal s' →
      mux_step s (run_microtasks s').

Definition mux_reachable (s : state) : Prop := rtc mux_step constructor s.

(** The two ways in which the send of an evaluation comes back with
    nothing, for an evaluation method [evaluate] called in state [s]: the
    webview is detached, or it is attached and the response that is later
    delivered for the expression carries an error or a null result.  In both
    the promise of the evaluation ends up fulfilled with [fallback]. *)
Definition falls_back (expression : string) (fallback : jsval)
    (evaluate : state → ref * state) (s : state) : Prop :=
  let '(p, s1) := evaluate s in
  (_webview s = None →
   heap (run_microtasks s1) !! p = Some (Some (Fulfilled fallback))) ∧
  (∀ w, _webview s = Some w →
   ∃ d, get_table ExpressionsInFlight s1 !! expression = Some d ∧
   ∀ s1' result error,
     rtc step s1 s1' →
     get_table ExpressionsInFlight s1' !! expression = Some d →
     nullish error = false ∨ nullish result = true →
     ∃ s2,
       deliver ExpressionsInFlight expression result error s1' = Normal s2 ∧
       heap (run_microtasks s2) !! p = Some (Some (Fulfilled fallback))).

End Executions.

(** ** Well-formed states *)

(** The continuations that are still to run. *)
Definition live (s : state) : list cont :=
  (snd <$> waiting s) ++ (fst <$> microtasks s).

(** The continuations of [_cachedSendCommand]. *)
Definition is_cached (k : cont) : Prop :=
  match k with
  | K_cachedSendCommand _ _ _ _ => True
  | _ => False
  end.

Record wf_core (s : state) : Prop := {
  (** registrations are on pending promises *)
  wf_waiting_pending :
    ∀ p k, (p, k) ∈ waiting s → heap s !! p = Some None;
  (** a promise returned by an async method is settled by that call only *)
  wf_targets_nodup :
    NoDup (target <$> live s);
  wf_targets_pending :
    ∀ k, k ∈ live s → heap s !! target k = Some None;
  (** a [Deferred] is not the promise of an async method *)
  wf_deferred_not_target :
    ∀ d t c v o k, (d, K_cachedSendCommand t c v o) ∈ waiting s →
      k ∈ live s → target k ≠ d;
  (** a [Deferred] is stored once, under the key it was made for *)
  wf_table_inj :
    ∀ t1 k1 t2 k2 d, get_table t1 s !! k1 = Some d →
      get_table t2 s !! k2 = Some d → t1 = t2 ∧ k1 = k2;
  wf_own_key :
    ∀ d t c v o t' k', (d, K_cachedSendCommand t c v o) ∈ waiting s →
      get_table t' s !! k' = Some d → t' = t ∧ k' = v;
  (** an entry is awaited by a send, or its removal is queued *)
  wf_entry_live :
    ∀ t key d, get_table t s !! key = Some d →
      (heap s !! d = Some None ∧
       ∃ c o, (d, K_cachedSendCommand t c key o) ∈ waiting s) ∨
      (∃ r, heap s !! d = Some (Some r) ∧
       ∃ c o r', (K_cachedSendCommand t c key o, r') ∈ microtasks s)
}.

(** The sends that are queued for resumption all wait on the key [key] of
    table [t]: the state of the queue while the delivery for that key is
    completed. *)
Definition jobs_for (t : table) (key : string) (s : state) : Prop :=
  ∀ t' c v o r, (K_cachedSendCommand t' c v o, r) ∈ microtasks s →
    t' = t ∧ v = key.

(** Between two steps no send is queued for resumption. *)
Definition no_cached_job (s : state) : Prop :=
  ∀ k r, (k, r) ∈ microtasks s → ¬ is_cached k.

Definition wf (s : state) : Prop := wf_core s ∧ no_cached_job s.

(** A promise that nothing refers to yet. *)
Definition unused (p : ref) (s : state) : Prop :=
  heap s !! p = Some None ∧
  (∀ k, k ∈ live s → target k ≠ p) ∧
  (∀ q k, (q, k) ∈ waiting s → q ≠ p) ∧
  (∀ t key, get_table t s !! key ≠ Some p).

(** The key a continuation of [_cachedSendCommand] removes. *)
Definition for_key (t : table) (key : string) (k : cont) : Prop :=
  match k with
  | K_cachedSendCommand t' _ v _ => t' = t ∧ v = key
  | _ => True
  end.

(** How the continuation [k], resumed with [r], settles its promise. *)
Definition job_outcome (k : cont) (r : outcome) : outcome :=
  match (resume k r constructor).1 with
  | Done value => Fulfilled value
  | Thrown error => Rejected error
  | Yield _ _ => r
  end.

(** An address that a registration, a continuation or a table mentions. *)
Definition referenced (q : ref) (s : state) : Prop :=
  (∃ k, (q, k) ∈ waiting s) ∨
  (∃ k, k ∈ live s ∧ target k = q) ∨
  (∃ t key, get_table t s !! key = Some q).

(** How a response with [result] and [error] settles a waiter: lines
    446-450 of [_handleResponseForPendingRequest]. *)
Definition settlement (result error : jsval) : outcome :=
  if nullish error then Fulfilled result else Rejected error.

(** From [s] to [s']: promises stay allocated and settled ones keep their
    outcome, a registration stays until its promise is settled, and the log
    only grows. *)
Definition extends (s s' : state) : Prop :=
  (∀ p x, heap s !! p = Some x →
     ∃ y, heap s' !! p = Some y ∧ (x = y ∨ x = None)) ∧
  (∀ e, e ∈ waiting s →
     e ∈ waiting s' ∨ ∃ r, heap s' !! e.1 = Some (Some r)) ∧
  (∀ x, x ∈ warnings s → x ∈ warnings s').

(** [p] is allocated, is not a waiter of a table, and the continuations that
    are going to settle it satisfy [P]. *)
Definition guarded (P : cont → Prop) (p : ref) (s : state) : Prop :=
  p < length (heap s) ∧
  (∀ t key, get_table t s !! key ≠ Some p) ∧
  (∀ k, k ∈ live s → target k = p → P k).

(** The state of a promise either stays, or goes from pending to what a
    continuation in [P] makes of it. *)
Definition evolves (P : cont → Prop) (x y : option (option outcome)) : Prop :=
  x = y ∨ (x = Some None ∧ ∃ k r, P k ∧ y = Some (Some (job_outcome k r))).

(** From [s] to [s'] the promise [p] stays guarded and evolves. *)
Definition keeps (P : cont → Prop) (p : ref) (s s' : state) : Prop :=
  guarded P p s →
  guarded P p s' ∧ evolves P (heap s !! p) (heap s' !! p).

(** The promise [d] and the registrations on it are the same in [s'] as in
    [s]. *)
Definition same_waiter (d : ref) (s s' : state) : Prop :=
  heap s' !! d = heap s !! d ∧
  filter (λ e, e.1 = d) (waiting s') = filter (λ e, e.1 = d) (waiting s).

(** An unsettled waiter that a send for the key [key] of table [t] waits
    for. *)
Definition pending_waiter (t : table) (key : string) (d : ref) (s : state)
    : Prop :=
  heap s !! d = Some None ∧
  ∃ c o, (d, K_cachedSendCommand t c key o) ∈ waiting s.

(** Every waiter that a send waits for is the entry of the send's key. *)
Definition registered (s : state) : Prop :=
  ∀ d t c v o, (d, K_cachedSendCommand t c v o) ∈ waiting s →
    get_table t s !! v = Some d.

(** While a delivery for [key] is completed, the entry of [key], if it is
    still there, is settled. *)
Definition entry_settled (t : table) (key : string) (s : state) : Prop :=
  ∀ d, get_table t s !! key = Some d → ∃ r, heap s !! d = Some (Some r).

(** The send continuation [k] registered on [d] is still registered, or is
    queued, or has settled its promise. *)
Definition tracked (d : ref) (k : cont) (s : state) : Prop :=
  (d, k) ∈ waiting s ∨
  (∃ r, (k, r) ∈ microtasks s) ∨
  (∃ r, heap s !! target k = Some (Some r)).

(** ** Sample states *)

(** A bridge with webview 1 attached; then with a request for ['x+1'] in
    flight (promise 0 returned, waiter 1 stored); then with a property
    request for the same key in flight as well (promise 2, waiter 3). *)
Definition example_attached : state :=
  setWebviewElement 1 constructor.

Definition example_requested : state :=
  (_cachedSendCommand ExpressionsInFlight "evaluateOnSelectedCallFrame"
     [JStr "x+1"; JStr "console"] example_attached).2.

Definition example_both : state :=
  (getProperties "x+1" example_requested).2.

Definition example_paused : event :=
  {| channel := "notification"; args := [JStr "NonLoaderDebuggerPaused"] |}.

(** The bridge of [example_requested] once the debugger has paused, and
    once [cleanup] was called instead. *)
Definition example_after_pause : state :=
  run_microtasks (_handleDebuggerPaused example_requested).

Definition example_detached : state :=
  cleanup example_requested.

Definition example_model : DebuggerModel :=
  {| getSerializedData := JObj [];
     getAllBreakpoints := [];
     getTogglePauseOnException := JBool false;
     getTogglePauseOnCaughtException := JBool false;
     getEnableSingleThreadStepping := JBool false |}.

(** ** What the bridge writes and what an evaluation answers *)

(** From [s] to [s'] the bridge wrote only to the webview that is attached
    in [s], and only on the channel ['command']. *)
Definition wrote_to_attached (s s' : state) : Prop :=
  ∃ l, sent s' = sent s ++ l ∧
       Forall (λ m, _webview s = Some m.1 ∧ hd JUndefined m.2 = JStr "command") l.


(** * The other packages *)

(** ** The Clang linter: [pkg/nuclide-clang/lib/ClangLinter.js], lines 57-190 *)

Module ClangLinter.

(** Atom's [Point] and [Range], written as the source writes them:
    [[row, column]] and [new Range([...], [...])]. *)
Definition Point : Type := Z * Z.

Inductive Range := mkRange (start end_ : Point).

(** What the linter reads from a text editor: the path of the editor and
    of its buffer, [getBuffer().rangeForRow(row)], and the range of the word
    that [wordAtPosition(editor, point, IDENTIFIER_REGEX)] of
    [commons-atom/range] finds at a point, if it finds one. *)
Record TextEditor := {
  getPath : option string;
  buffer_getPath : option string;
  rangeForRow : Z → Range;
  wordAtPosition : Point → option Range
}.

(** The diagnostics of [libclang], as far as the linter reads them. *)
Record ClangLocation := {
  file : option string;
  line : Z;
  column : Z
}.

Record ClangSourceRange := {
  start : ClangLocation;
  end_ : ClangLocation
}.

Record Fixit := {
  fixit_range : ClangSourceRange;
  value : string
}.

Record Child := {
  child_spelling : string;
  child_location : ClangLocation
}.

Record Diagnostic := {
  spelling : string;
  severity : Z;
  location : ClangLocation;
  ranges : option (list ClangSourceRange);
  fixits : option (list Fixit);
  children : option (list Child)
}.

Record ClangCompileResult := {
  diagnostics : list Diagnostic;
  accurateFlags : option bool
}.

(** The messages handed to the linter package. *)
Record Trace := {
  trace_type : string;
  trace_text : string;
  trace_filePath : option string;
  trace_range : Range
}.

Record Fix := {
  fix_range : Range;
  newText : string
}.

Record LinterMessage := {
  scope : string;
  providerName : string;
  type : string;
  filePath : option string;
  text : string;
  range : Range;
  trace : option (list Trace);
  fix_ : option Fix
}.

Definition DEFAULT_FLAGS_WARNING : string :=
  "Diagnostics are disabled due to lack of compilation flags. " +:+
  "Build this file with Buck, or create a compile_commands.json file manually.".

(** [a || b] on paths: [null], [undefined] and [''] are falsy. *)
Definition or_path (a b : option string) : option string :=
  match a with
  | Some EmptyString | None => b
  | Some _ => a
  end.

(** [atomRangeFromLocation], lines 70-80. *)
Definition atomRangeFromLocation (editor : TextEditor) (location : ClangLocation)
    : Range :=
  if (line location <? 0)%Z then rangeForRow editor 0
  else
    match wordAtPosition editor (line location, column location) with
    | Some word_range => word_range
    | None => rangeForRow editor (line location)
    end.

(** [atomRangeFromSourceRange], lines 60-68. *)
Definition atomRangeFromSourceRange (editor : TextEditor)
    (clangRange : ClangSourceRange) : Range :=
  if (line (end_ clangRange) =? -1)%Z
     || ((line (start clangRange) =? line (end_ clangRange))%Z
         && (column (start clangRange) =? column (end_ clangRange))%Z)
  then atomRangeFromLocation editor (start clangRange)
  else mkRange (line (start clangRange), column (start clangRange))
               (line (end_ clangRange), column (end_ clangRange)).

(** The callback of [data.diagnostics.forEach], lines 120-170, with the
    [result] it pushes to.  [diagnostic.ranges[0]] of an empty array is
    [undefined], and [atomRangeFromSourceRange] reads [clangRange.end] of
    it. *)
Definition process_diagnostic (editor : TextEditor) (diagnostic : Diagnostic)
    (result : list LinterMessage) : completion (list LinterMessage) :=
  if (severity diagnostic <? 2)%Z then Normal result
  else
    match (match ranges diagnostic with
           | Some (first :: _) => Normal (atomRangeFromSourceRange editor first)
           | Some [] => Throw TypeError
           | None => Normal (atomRangeFromLocation editor (location diagnostic))
           end) with
    | Throw e => Throw e
    | Normal range =>
        let filePath := or_path (file (location diagnostic)) (buffer_getPath editor) in
        let trace :=
          match children diagnostic with
          | Some children =>
              Some ((λ child,
                       {| trace_type := "Trace";
                          trace_text := child_spelling child;
                          trace_filePath :=
                            or_path (file (child_location child))
                                    (buffer_getPath editor);
                          trace_range :=
                            atomRangeFromLocation editor (child_location child) |})
                      <$> children)
          | None => None
          end in
        let fix_ :=
          match fixits diagnostic with
          | Some (fixit :: _) =>
              Some {| fix_range := atomRangeFromSourceRange editor (fixit_range fixit);
                      newText := value fixit |}
          | _ => None
          end in
        Normal (result ++
                [{| scope := "file";
                    providerName := "Clang";
                    type := if (severity diagnostic =? 2)%Z then "Warning" else "Error";
                    filePath := filePath;
                    text := spelling diagnostic;
                    range := range;
                    trace := trace;
                    fix_ := fix_ |}])
    end.

(** [forEach]: the callback is applied from left to right; what it throws
    ends the loop. *)
Fixpoint forEach (editor : TextEditor) (diagnostics : list Diagnostic)
    (result : list LinterMessage) : completion (list LinterMessage) :=
  match diagnostics with
  | [] => Normal result
  | diagnostic :: rest =>
      match process_diagnostic editor diagnostic result with
      | Throw e => Throw e
      | Normal result => forEach editor rest result
      end
  end.

(** [ClangLinter._processDiagnostics], lines 115-183; [defaultDiagnostics]
    is whether the setting ['nuclide-clang.defaultDiagnostics'] is truthy. *)
Definition _processDiagnostics (defaultDiagnostics : bool)
    (data : ClangCompileResult) (editor : TextEditor)
    : completion (list LinterMessage) :=
  if bool_decide (accurateFlags data = Some true) || defaultDiagnostics then
    forEach editor (diagnostics data) []
  else
    Normal [{| scope := "file";
               providerName := "Clang";
               type := "Warning";
               filePath := buffer_getPath editor;
               text := DEFAULT_FLAGS_WARNING;
               range := rangeForRow editor 0;
               trace := None;
               fix_ := None |}].

(** What [getDiagnostics(textEditor)] of [./libclang] comes back with: a
    result, [null], or a failure. *)
Inductive fetched :=
  | Resolved (diagnostics : option ClangCompileResult)
  | Failed (error : jsval).

(** What [lint] leaves behind: the event it tracks (the count and the flag
    go through [String]) and the error it logs. *)
Record TrackEvent := {
  track_filePath : string;
  count : nat;
  track_accurateFlags : option bool
}.

Record effects := {
  tracked : list TrackEvent;
  logged : list (string * jsval)
}.

(** [ClangLinter.lint], lines 88-113: the value its promise is settled
    with, for what the fetch came back with and for whether the editor was
    destroyed meanwhile.  The decorator [trackTiming] measures the call and
    hands its result on. *)
Definition lint (defaultDiagnostics : bool) (textEditor : TextEditor)
    (fetch : fetched) (isDestroyed : bool)
    : completion (list LinterMessage) * effects :=
  match getPath textEditor with
  | None | Some EmptyString => (Normal [], {| tracked := []; logged := [] |})
  | Some filePath =>
      let catch error tracked :=
        (Normal [],
         {| tracked := tracked;
            logged := [("ClangLinter: error linting " +:+ filePath, error)] |}) in
      match fetch with
      | Failed error => catch error []
      | Resolved None => (Normal [], {| tracked := []; logged := [] |})
      | Resolved (Some diagnostics_) =>
          if isDestroyed then (Normal [], {| tracked := []; logged := [] |})
          else
            let event :=
              {| track_filePath := filePath;
                 count := length (diagnostics diagnostics_);
                 track_accurateFlags := accurateFlags diagnostics_ |} in
            match _processDiagnostics defaultDiagnostics diagnostics_ textEditor with
            | Normal result => (Normal result, {| tracked := [event]; logged := [] |})
            | Throw error => catch error [event]
            end
      end
  end.

End ClangLinter.

(** The diagnostics that are shown: warnings, errors and fatals. *)
Definition shown (d : ClangLinter.Diagnostic) : Prop :=
  (2 ≤ ClangLinter.severity d)%Z.

Global Instance shown_dec d : Decision (shown d).
Proof. unfold shown. apply _. Defined.

(** A diagnostic whose [ranges] is an array without elements. *)
Definition without_first_range (d : ClangLinter.Diagnostic) : Prop :=
  ClangLinter.ranges d = Some [].

(** The message [m] reports the diagnostic [d] in [editor]. *)
Definition reports (editor : ClangLinter.TextEditor)
    (d : ClangLinter.Diagnostic) (m : ClangLinter.LinterMessage) : Prop :=
  ClangLinter.scope m = "file" ∧
  ClangLinter.providerName m = "Clang" ∧
  ClangLinter.text m = ClangLinter.spelling d ∧
  ClangLinter.type m
    = (if decide (ClangLinter.severity d = 2%Z) then "Warning" else "Error") ∧
  ClangLinter.filePath m
    = ClangLinter.or_path (ClangLinter.file (ClangLinter.location d))
        (ClangLinter.buffer_getPath editor) ∧
  fmap (M:=list) ClangLinter.trace_text <$> ClangLinter.trace m
    = fmap (M:=list) ClangLinter.child_spelling <$> ClangLinter.children d ∧
  ClangLinter.newText <$> ClangLinter.fix_ m
    = ClangLinter.value <$> (ClangLinter.fixits d ≫= head).

(** Diagnostics are processed: the flags are accurate or the setting asks
    for diagnostics all the same. *)
Definition enabled (defaultDiagnostics : bool)
    (data : ClangLinter.ClangCompileResult) : Prop :=
  ClangLinter.accurateFlags data = Some true ∨ defaultDiagnostics = true.

(** A source range of [libclang] without an end, one that ends in line
    -1, or without an extent. *)
Definition unbounded_or_empty (r : ClangLinter.ClangSourceRange) : Prop :=
  ClangLinter.line (ClangLinter.end_ r) = (-1)%Z ∨
  (ClangLinter.line (ClangLinter.start r) = ClangLinter.line (ClangLinter.end_ r) ∧
   ClangLinter.column (ClangLinter.start r)
     = ClangLinter.column (ClangLinter.end_ r)).

(** The range [atom] shown for the source range [r]: [r] as it is, corner
    by corner, unless it is unbounded or empty; then what is shown for the
    point where [r] starts. *)
Definition shows_source_range (editor : ClangLinter.TextEditor)
    (r : ClangLinter.ClangSourceRange) (atom : ClangLinter.Range) : Prop :=
  (¬ unbounded_or_empty r →
   atom = ClangLinter.mkRange
            (ClangLinter.line (ClangLinter.start r),
             ClangLinter.column (ClangLinter.start r))
            (ClangLinter.line (ClangLinter.end_ r),
             ClangLinter.column (ClangLinter.end_ r))) ∧
  (unbounded_or_empty r →
   atom = ClangLinter.atomRangeFromLocation editor (ClangLinter.start r)).

(** The ranges of the message [m] are those of the diagnostic [d]: the
    range of [m] shows the first range of [d], or its location if [d] has no
    array of ranges; the trace has one range for each child, that of the
    location of the child; the fix shows the range of the first fix-it. *)
Definition ranges_follow (editor : ClangLinter.TextEditor)
    (d : ClangLinter.Diagnostic) (m : ClangLinter.LinterMessage) : Prop :=
  match ClangLinter.ranges d with
  | Some (first :: _) => shows_source_range editor first (ClangLinter.range m)
  | Some [] => False
  | None =>
      ClangLinter.range m
        = ClangLinter.atomRangeFromLocation editor (ClangLinter.location d)
  end ∧
  fmap (M:=list) ClangLinter.trace_range <$> ClangLinter.trace m
    = fmap (M:=list)
        (λ child, ClangLinter.atomRangeFromLocation editor
                    (ClangLinter.child_location child))
        <$> ClangLinter.children d ∧
  match ClangLinter.fixits d ≫= head, ClangLinter.fix_ m with
  | Some fixit, Some f =>
      shows_source_range editor (ClangLinter.fixit_range fixit)
        (ClangLinter.fix_range f)
  | None, None => True
  | _, _ => False
  end.

(** Two editors that answer alike wherever the row is not negative. *)
Definition alike_from_row_0 (editor editor' : ClangLinter.TextEditor) : Prop :=
  ClangLinter.buffer_getPath editor = ClangLinter.buffer_getPath editor' ∧
  (∀ row, (0 ≤ row)%Z →
     ClangLinter.rangeForRow editor row = ClangLinter.rangeForRow editor' row) ∧
  (∀ point, (0 ≤ point.1)%Z →
     ClangLinter.wordAtPosition editor point
       = ClangLinter.wordAtPosition editor' point).

(** ** Native notifications: [pkg/nuclide-notifications/lib/main.js] *)

Module Notifications.

(** An Atom notification, as far as the package reads it: [getType()],
    [getMessage()], and of [getOptions()] whether [nativeFriendly] is truthy
    and what [detail] is. *)
Record AtomNotification := {
  getType : string;
  getMessage : string;
  nativeFriendly : bool;
  detail : jsval
}.

(** [new Notification(title, {body, icon})] *)
Record NativeNotification := {
  title : string;
  body : jsval;
  icon : string
}.

(** What the surroundings answer when they are asked: whether the settings
    ['nuclide-notifications.onlyNativeFriendly'] and
    ['nuclide-notifications.whenFocused'] are truthy and whether the current
    window is focused. *)
Record surroundings := {
  onlyNativeFriendly : bool;
  whenFocused : bool;
  isFocused : bool
}.

(** The variable [gkEnabled] of the module, line 53, and the native
    notifications raised so far. *)
Record state := {
  gkEnabled : bool;
  raised : list NativeNotification
}.

Section Strings.

(** The built-in [String.prototype.toUpperCase]. *)
Variable toUpperCase : string → string.

(** [upperCaseFirst], lines 102-104: [str[0]] of the empty string is
    [undefined], which has no method [toUpperCase]. *)
Definition upperCaseFirst (str : string) : completion string :=
  match str with
  | EmptyString => Throw TypeError
  | String first rest => Normal (toUpperCase (String first EmptyString) +:+ rest)
  end.

(** [raiseNativeNotification], lines 76-91. *)
Definition raiseNativeNotification (env : surroundings) (title : string)
    (body : jsval) (s : state) : state :=
  if negb (gkEnabled s) then s
  else if negb (whenFocused env) && isFocused env then s
  else
    {| gkEnabled := gkEnabled s;
       raised := raised s ++
         [{| title := title;
             body := body;
             icon := "atom://nuclide/pkg/nuclide-notifications/notification.png" |}] |}.

(** [proxyToNativeNotification], lines 65-74: the title is put together
    before [raiseNativeNotification] is entered. *)
Definition proxyToNativeNotification (env : surroundings)
    (notification : AtomNotification) (s : state) : completion state :=
  if negb (nativeFriendly notification) && onlyNativeFriendly env then Normal s
  else
    match upperCaseFirst (getType notification) with
    | Throw e => Throw e
    | Normal type =>
        Normal (raiseNativeNotification env
                  (type +:+ ": " +:+ getMessage notification)
                  (detail notification) s)
    end.

End Strings.

End Notifications.

(** ** The modal dialog: [pkg/nuclide-clang/lib/ClangLinter.js], lines 238-330 *)

Module Modal.

(** DOM elements and disposables are objects, told apart by identity. *)
Abbreviation Element := nat (only parsing).
Abbreviation Disposable := nat (only parsing).

(** The fields [_innerElement] and [_cancelDisposable] of a [Modal], and
    around them: the [CompositeDisposable]s made so far that are not
    disposed, each holding the ['core:cancel'] command and the subscription
    to the clicks on the window; of these subscriptions, the ones whose
    [interval(0)] has fired, which are past [skipUntil] and listen; the
    elements that were given the focus; how often [props.onDismiss] was
    called. *)
Record state := {
  _innerElement : option Element;
  _cancelDisposable : option Disposable;
  undisposed : list Disposable;
  listening : list Disposable;
  made : nat;
  focused : list Element;
  dismissed : nat
}.

(** A [Modal] before its first render. *)
Definition constructor : state :=
  {| _innerElement := None; _cancelDisposable := None; undisposed := [];
     listening := []; made := 0; focused := []; dismissed := 0 |}.

(** [this.props.onDismiss()] *)
Definition onDismiss (s : state) : state :=
  {| _innerElement := _innerElement s; _cancelDisposable := _cancelDisposable s;
     undisposed := undisposed s; listening := listening s; made := made s;
     focused := focused s; dismissed := S (dismissed s) |}.

(** [disposable.dispose()]: the command is removed and the subscription
    to the clicks is ended; disposing twice is disposing once. *)
Definition dispose (d : Disposable) (s : state) : state :=
  {| _innerElement := _innerElement s; _cancelDisposable := _cancelDisposable s;
     undisposed := filter (λ d', d' ≠ d) (undisposed s);
     listening := filter (λ d', d' ≠ d) (listening s); made := made s;
     focused := focused s; dismissed := dismissed s |}.

(** The timer of [Observable.interval(0).first()] of the subscription in
    [d] fires, in a task after the one that subscribed: from then on
    [skipUntil] lets the clicks through.  Disposing the subscription clears
    the timer. *)
Definition interval_fires (d : Disposable) (s : state) : state :=
  if bool_decide (d ∈ undisposed s) then
    {| _innerElement := _innerElement s;
       _cancelDisposable := _cancelDisposable s;
       undisposed := undisposed s; listening := d :: listening s;
       made := made s; focused := focused s; dismissed := dismissed s |}
  else s.

Section Dom.

(** [element.contains(target)] *)
Variable contains : Element → Element → bool.

(** [_handleWindowClick], lines 275-281, for a click on [target]. *)
Definition _handleWindowClick (target : Element) (s : state) : state :=
  match _innerElement s with
  | Some inner => if contains inner target then s else onDismiss s
  | None => s
  end.

(** [_handleContainerInnerElement], lines 285-305.  The subscription to the
    clicks starts behind [skipUntil(Observable.interval(0).first())], lines
    301-304: it does not listen yet. *)
Definition _handleContainerInnerElement (el : option Element) (s : state) : state :=
  let s :=
    match _cancelDisposable s with
    | Some d => dispose d s
    | None => s
    end in
  match el with
  | None =>
      {| _innerElement := None; _cancelDisposable := _cancelDisposable s;
         undisposed := undisposed s; listening := listening s;
         made := made s; focused := focused s; dismissed := dismissed s |}
  | Some e =>
      {| _innerElement := Some e; _cancelDisposable := Some (made s);
         undisposed := undisposed s ++ [made s]; listening := listening s;
         made := S (made s); focused := focused s ++ [e];
         dismissed := dismissed s |}
  end.

(** A click on the window: every undisposed subscription that is past its
    [skipUntil] runs [_handleWindowClick]; the others drop the click. *)
Definition window_click (target : Element) (s : state) : state :=
  Nat.iter (length (filter (λ d, d ∈ listening s) (undisposed s)))
    (_handleWindowClick target) s.

(** The command ['core:cancel']: every undisposed command runs its
    callback. *)
Definition core_cancel (s : state) : state :=
  Nat.iter (length (undisposed s)) onDismiss s.

(** What happens to a [Modal]: React calls the [ref] callback with the
    rendered element or with [null]; a zero-delay timer fires; the window is
    clicked; the command is run. *)
Inductive step : state → state → Prop :=
  | step_ref el s : step s (_handleContainerInnerElement el s)
  | step_interval d s : step s (interval_fires d s)
  | step_click target s : step s (window_click target s)
  | step_cancel s : step s (core_cancel s).

Definition reachable (s : state) : Prop := rtc step constructor s.

End Dom.

End Modal.

(** The state of the subscriptions of a [Modal]: none is undisposed while
    there is no inner element; while there is one, the only undisposed one
    is [_cancelDisposable]. *)
Definition one_subscription (s : Modal.state) : Prop :=
  (Modal._innerElement s = None ∧ Modal.undisposed s = []) ∨
  (∃ e d, Modal._innerElement s = Some e ∧ Modal._cancelDisposable s = Some d ∧
          Modal.undisposed s = [d]).

(** What [one_subscription] needs besides to be kept: the disposable in
    [_cancelDisposable] is one that was made, and the subscriptions that
    listen are undisposed. *)
Definition modal_inv (s : Modal.state) : Prop :=
  one_subscription s ∧
  (∀ d, Modal._cancelDisposable s = Some d → d < Modal.made s) ∧
  (∀ d, d ∈ Modal.listening s → d ∈ Modal.undisposed s).

(** The subscription to the clicks in [_cancelDisposable] is past its
    [skipUntil]: its [interval(0)] has fired. *)
Definition past_skipUntil (s : Modal.state) : bool :=
  match Modal._cancelDisposable s with
  | Some d => bool_decide (d ∈ Modal.listening s)
  | None => false
  end.

(** ** The device panel: [unnamed/part_000], lines 48-93 *)

Module DeviceEpics.

(** What awaiting a promise of a provider ends in. *)
Inductive awaited (A : Type) :=
  | Returned (a : A)
  | Raised (error : jsval).
Arguments Returned {A} a.
Arguments Raised {A} error.

Record Device := { name : string }.

(** The part of the state of the store that the epics read. *)
Record AppState := {
  host : string;
  device : option Device;
  deviceType : option string
}.

Section Providers.

(** What identifies a process, what killing one comes back with, and the
    table of a device info provider. *)
Variable Process : Type.
Variable Killed : Type.
Variable Table : Type.

Record DeviceProcessesProvider := {
  getType : string;
  killProcess : string → string → Process → Killed
}.

(** [getPriority] is [None] for a provider without that method. *)
Record DeviceInfoProvider := {
  info_getType : string;
  getPriority : option Z;
  getTitle : string;
  isSupported : string → awaited bool;
  fetch : string → string → awaited Table
}.

(** A JavaScript [Map] with string keys: its entries in the order of
    insertion.  [map.set(key, value)] replaces the value of a key that is
    there and adds a key that is not at the end. *)
Fixpoint Map_set {V} (key : string) (value : V) (map : list (string * V))
    : list (string * V) :=
  match map with
  | [] => [(key, value)]
  | (k, v) :: rest =>
      if String.eqb k key then (k, value) :: rest
      else (k, v) :: Map_set key value rest
  end.

(** [new Map(entries)] *)
Definition new_Map {V} (entries : list (string * V)) : list (string * V) :=
  foldl (λ map entry, Map_set entry.1 entry.2 map) [] entries.

(** The comparison function handed to [sort], lines 58-62. *)
Definition by_priority (a b : DeviceInfoProvider) : Z :=
  let pa := match getPriority a with None => (-1)%Z | Some p => p end in
  let pb := match getPriority b with None => (-1)%Z | Some p => p end in
  (pb - pa)%Z.

(** The function mapped over the sorted providers, lines 64-76: what its
    promise is fulfilled with, [None] for [null]. *)
Definition info_table (state : AppState) (device : Device)
    (provider : DeviceInfoProvider) : option (string * Table) :=
  match isSupported provider (host state) with
  | Returned true =>
      match fetch provider (host state) (name device) with
      | Returned table => Some (getTitle provider, table)
      | Raised _ => None
      end
  | Returned false | Raised _ => None
  end.

(** [getInfoTables], lines 48-78: the value of the promise it returns, for
    the providers that [getDeviceInfoProviders()] lists.  [sort] is the
    built-in [Array.prototype.sort]; [arrayCompact] of
    [nuclide-commons/collection] drops the [null]s. *)
Definition getInfoTables
    (sort : (DeviceInfoProvider → DeviceInfoProvider → Z) →
            list DeviceInfoProvider → list DeviceInfoProvider)
    (registered : list DeviceInfoProvider) (state : AppState)
    : list (string * Table) :=
  match device state with
  | None => new_Map []
  | Some device =>
      let sortedProviders :=
        sort by_priority
          (filter (λ provider, Some (info_getType provider) = deviceType state)
                  registered) in
      let infoTables := info_table state device <$> sortedProviders in
      new_Map (omap id infoTables)
  end.

(** [getProcessKiller], lines 80-93: the value of the promise it returns,
    for the providers that [getDeviceProcessesProviders()] lists. *)
Definition getProcessKiller (registered : list DeviceProcessesProvider)
    (state : AppState) : option (Process → Killed) :=
  match device state with
  | None => None
  | Some device =>
      let providers :=
        filter (λ provider, Some (getType provider) = deviceType state)
               registered in
      match providers with
      | first :: _ => Some (λ p, killProcess first (host state) (name device) p)
      | [] => None
      end
  end.

End Providers.

End DeviceEpics.

(** The priority by which info providers are compared. *)
Definition priority {Table} (p : DeviceEpics.DeviceInfoProvider Table) : Z :=
  default (-1)%Z (DeviceEpics.getPriority _ p).

(** What the specification of [Array.prototype.sort] asks of the array
    [sorted] it leaves, for the array [given] and a consistent comparison
    function: the same elements, none before one that compares lower. *)
Definition sorts {A} (compare : A → A → Z) (given sorted : list A) : Prop :=
  sorted ≡ₚ given ∧
  ∀ i j a b, i < j → sorted !! i = Some a → sorted !! j = Some b →
    (compare a b ≤ 0)%Z.

(** ** Sample inputs *)

(** An editor on [a.cpp] in which no word is found and every row has 80
    columns. *)
Definition example_editor : ClangLinter.TextEditor :=
  {| ClangLinter.getPath := Some "a.cpp";
     ClangLinter.buffer_getPath := Some "a.cpp";
     ClangLinter.rangeForRow := λ row, ClangLinter.mkRange (row, 0%Z) (row, 80%Z);
     ClangLinter.wordAtPosition := λ _, None |}.

Definition example_diagnostic (severity : Z)
    (ranges : option (list ClangLinter.ClangSourceRange))
    : ClangLinter.Diagnostic :=
  {| ClangLinter.spelling := "unused variable";
     ClangLinter.severity := severity;
     ClangLinter.location :=
       {| ClangLinter.file := None; ClangLinter.line := 3; ClangLinter.column := 4 |};
     ClangLinter.ranges := ranges;
     ClangLinter.fixits := None;
     ClangLinter.children := None |}.

Definition example_range : ClangLinter.ClangSourceRange :=
  {| ClangLinter.start :=
       {| ClangLinter.file := None; ClangLinter.line := 3; ClangLinter.column := 4 |};
     ClangLinter.end_ :=
       {| ClangLinter.file := None; ClangLinter.line := 3; ClangLinter.column := 9 |} |}.

(** A note, a warning and an error; then a warning and an error whose
    array of ranges has no element. *)
Definition example_data : ClangLinter.ClangCompileResult :=
  {| ClangLinter.diagnostics :=
       [example_diagnostic 1 None; example_diagnostic 2 None;
        example_diagnostic 3 (Some [example_range])];
     ClangLinter.accurateFlags := Some true |}.

Definition example_messages : list ClangLinter.LinterMessage :=
  match ClangLinter._processDiagnostics false example_data example_editor with
  | Normal messages => messages
  | Throw _ => []
  end.

(** A warning whose first range has no end, with a note outside the file,
    at line -1, and a fix-it; an editor that differs from [example_editor]
    below row 0 only. *)
Definition example_unbounded : ClangLinter.ClangCompileResult :=
  {| ClangLinter.diagnostics :=
       [{| ClangLinter.spelling := "expected ';'";
           ClangLinter.severity := 2;
           ClangLinter.location :=
             {| ClangLinter.file := None; ClangLinter.line := 3;
                ClangLinter.column := 4 |};
           ClangLinter.ranges :=
             Some [{| ClangLinter.start :=
                        {| ClangLinter.file := None; ClangLinter.line := 3;
                           ClangLinter.column := 4 |};
                      ClangLinter.end_ :=
                        {| ClangLinter.file := None; ClangLinter.line := (-1);
                           ClangLinter.column := (-1) |} |}];
           ClangLinter.fixits :=
             Some [{| ClangLinter.fixit_range := example_range;
                      ClangLinter.value := ";" |}];
           ClangLinter.children :=
             Some [{| ClangLinter.child_spelling := "in macro";
                      ClangLinter.child_location :=
                        {| ClangLinter.file := None; ClangLinter.line := (-1);
                           ClangLinter.column := 0 |} |}] |}];
     ClangLinter.accurateFlags := Some true |}.

Definition example_other_editor : ClangLinter.TextEditor :=
  {| ClangLinter.getPath := Some "a.cpp";
     ClangLinter.buffer_getPath := Some "a.cpp";
     ClangLinter.rangeForRow := λ row,
       if (row <? 0)%Z then ClangLinter.mkRange (0%Z, 0%Z) (0%Z, 0%Z)
       else ClangLinter.mkRange (row, 0%Z) (row, 80%Z);
     ClangLinter.wordAtPosition := λ point,
       if (point.1 <? 0)%Z
       then Some (ClangLinter.mkRange (0%Z, 0%Z) (0%Z, 1%Z)) else None |}.

Definition example_malformed : ClangLinter.ClangCompileResult :=
  {| ClangLinter.diagnostics :=
       [example_diagnostic 2 None; example_diagnostic 3 (Some [])];
     ClangLinter.accurateFlags := Some true |}.

(** Upper case for the letters a to z. *)
Fixpoint example_toUpperCase (s : string) : string :=
  match s with
  | EmptyString => EmptyString
  | String a rest =>
      let n := Ascii.nat_of_ascii a in
      String (if (97 <=? n) && (n <=? 122) then Ascii.ascii_of_nat (n - 32) else a)
             (example_toUpperCase rest)
  end.

Definition example_notification : Notifications.AtomNotification :=
  {| Notifications.getType := "info";
     Notifications.getMessage := "Build finished";
     Notifications.nativeFriendly := true;
     Notifications.detail := JStr "in 12 s" |}.

Definition example_untyped : Notifications.AtomNotification :=
  {| Notifications.getType := "";
     Notifications.getMessage := "Build finished";
     Notifications.nativeFriendly := true;
     Notifications.detail := JUndefined |}.

Definition example_surroundings : Notifications.surroundings :=
  {| Notifications.onlyNativeFriendly := true;
     Notifications.whenFocused := false;
     Notifications.isFocused := false |}.

Definition example_enabled : Notifications.state :=
  {| Notifications.gkEnabled := true; Notifications.raised := [] |}.

(** A modal whose content, element 7, was rendered once, and a DOM in
    which no element contains another. *)
Definition example_contains (inner target : nat) : bool := false.

Definition example_modal : Modal.state :=
  Modal._handleContainerInnerElement (Some 7) Modal.constructor.

(** That modal one task later, when the timer of its subscription has
    fired. *)
Definition example_shown : Modal.state :=
  Modal.interval_fires 0 example_modal.

(** Two providers of tables for Android devices, the second with a
    priority, and one for iOS devices; a state with an Android device.  An
    insertion sort stands for [Array.prototype.sort]. *)
Definition example_provider (type title : string) (priority : option Z)
    : DeviceEpics.DeviceInfoProvider string :=
  {| DeviceEpics.info_getType := type;
     DeviceEpics.getPriority := priority;
     DeviceEpics.getTitle := title;
     DeviceEpics.isSupported := λ _, DeviceEpics.Returned true;
     DeviceEpics.fetch := λ _ device, DeviceEpics.Returned (title +:+ " of " +:+ device) |}.

Definition example_providers : list (DeviceEpics.DeviceInfoProvider string) :=
  [example_provider "android" "Build" None;
   example_provider "ios" "Simulator" (Some 9%Z);
   example_provider "android" "Battery" (Some 5%Z)].

Definition example_device_state : DeviceEpics.AppState :=
  {| DeviceEpics.host := "local";
     DeviceEpics.device := Some {| DeviceEpics.name := "emulator-5554" |};
     DeviceEpics.deviceType := Some "android" |}.

Fixpoint example_insert {A} (compare : A → A → Z) (x : A) (l : list A) : list A :=
  match l with
  | [] => [x]
  | y :: rest =>
      if (compare x y <=? 0)%Z then x :: l
      else y :: example_insert compare x rest
  end.

Definition example_sort {A} (compare : A → A → Z) (l : list A) : list A :=
  foldr (example_insert compare) [] l.

(** * Proofs *)

(** ** Reading the fields of an updated state *)

Lemma get_set_table t m s : get_table t (set_table t m s) = m.
Proof. by destruct t. Qed.

Lemma get_set_table_ne t t' m s :
  t ≠ t' → get_table t' (set_table t m s) = get_table t' s.
Proof. by destruct t, t'. Qed.

Lemma get_set_table_lookup t t' m s key :
  get_table t' (set_table t m s) !! key =
  if decide (t = t') then m !! key else get_table t' s !! key.
Proof. by destruct t, t'. Qed.

Lemma heap_set_table t m s : heap (set_table t m s) = heap s.
Proof. by destruct t. Qed.
Lemma waiting_set_table t m s : waiting (set_table t m s) = waiting s.
Proof. by destruct t. Qed.
Lemma microtasks_set_table t m s : microtasks (set_table t m s) = microtasks s.
Proof. by destruct t. Qed.
Lemma sent_set_table t m s : sent (set_table t m s) = sent s.
Proof. by destruct t. Qed.
Lemma warnings_set_table t m s : warnings (set_table t m s) = warnings s.
Proof. by destruct t. Qed.
Lemma webview_set_table t m s : _webview (set_table t m s) = _webview s.
Proof. by destruct t. Qed.
Lemma live_set_table t m s : live (set_table t m s) = live s.
Proof. by destruct t. Qed.

Lemma get_table_set_runtime t h w q s :
  get_table t (set_runtime h w q s) = get_table t s.
Proof. by destruct t. Qed.
Lemma get_table_send t w msg s : get_table t (send w msg s) = get_table t s.
Proof. by destruct t. Qed.
Lemma get_table_warn t x e s : get_table t (warn x e s) = get_table t s.
Proof. by destruct t. Qed.
Lemma get_table_set_webview t w s : get_table t (set_webview w s) = get_table t s.
Proof. by destruct t. Qed.

Lemma get_table_settle t p o s : get_table t (settle p o s) = get_table t s.
Proof.
  unfold settle. destruct (heap s !! p) as [[?|]|]; by destruct t.
Qed.

Lemma get_table_then t p k s : get_table t (then_ p k s) = get_table t s.
Proof.
  unfold then_. destruct (heap s !! p) as [[?|]|]; by destruct t.
Qed.

Lemma heap_then p k s : heap (then_ p k s) = heap s.
Proof. unfold then_. by destruct (heap s !! p) as [[?|]|]. Qed.

Lemma sent_settle p o s : sent (settle p o s) = sent s.
Proof. unfold settle. by destruct (heap s !! p) as [[?|]|]. Qed.
Lemma sent_then p k s : sent (then_ p k s) = sent s.
Proof. unfold then_. by destruct (heap s !! p) as [[?|]|]. Qed.
Lemma warnings_settle p o s : warnings (settle p o s) = warnings s.
Proof. unfold settle. by destruct (heap s !! p) as [[?|]|]. Qed.
Lemma warnings_then p k s : warnings (then_ p k s) = warnings s.
Proof. unfold then_. by destruct (heap s !! p) as [[?|]|]. Qed.
Lemma webview_settle p o s : _webview (settle p o s) = _webview s.
Proof. unfold settle. by destruct (heap s !! p) as [[?|]|]. Qed.
Lemma webview_then p k s : _webview (then_ p k s) = _webview s.
Proof. unfold then_. by destruct (heap s !! p) as [[?|]|]. Qed.

(** ** Lists of registrations *)

Lemma filter_off (p : ref) (l : list (ref * cont)) :
  (∀ q k, (q, k) ∈ l → q ≠ p) →
  filter (λ e, e.1 ≠ p) l = l ∧ filter (λ e, e.1 = p) l = [].
Proof.
  induction l as [|[q k] l IH]; intros H; [done|].
  assert (q ≠ p) by (eapply H; left).
  rewrite filter_cons_True, filter_cons_False by (simpl; tauto).
  destruct IH as [-> ->]; [|done].
  intros q' k' ?. eapply H. by right.
Qed.

Lemma live_split (p : ref) (o : outcome) (w : list (ref * cont))
    (q : list (cont * outcome)) :
  (snd <$> filter (λ e, e.1 ≠ p) w) ++
    (fst <$> (q ++ ((λ e, (e.2, o)) <$> filter (λ e, e.1 = p) w)))
  ≡ₚ (snd <$> w) ++ (fst <$> q).
Proof.
  rewrite fmap_app, <-list_fmap_compose.
  change (fst ∘ (λ e : ref * cont, (e.2, o))) with (@snd ref cont).
  rewrite (Permutation_app_comm (fst <$> q)), app_assoc.
  apply Permutation_app_tail.
  rewrite <-fmap_app. apply fmap_Permutation.
  rewrite Permutation_app_comm. apply (filter_app_complement (λ e, e.1 = p)).
Qed.

(** ** What settling and registering do *)

Lemma settle_pending p o s :
  heap s !! p = Some None →
  settle p o s =
  set_runtime (<[p := Some o]> (heap s))
    (filter (λ e, e.1 ≠ p) (waiting s))
    (microtasks s ++ ((λ e, (e.2, o)) <$> filter (λ e, e.1 = p) (waiting s))) s.
Proof. unfold settle. by intros ->. Qed.

Lemma settle_settled p o r s :
  heap s !! p = Some (Some r) → settle p o s = s.
Proof. unfold settle. by intros ->. Qed.

Lemma settle_unallocated p o s :
  heap s !! p = None → settle p o s = s.
Proof. unfold settle. by intros ->. Qed.

Lemma heap_settle p o s q :
  heap (settle p o s) !! q =
  if decide (p = q) then
    match heap s !! p with Some None => Some (Some o) | x => x end
  else heap s !! q.
Proof.
  unfold settle. destruct (heap s !! p) as [[r|]|] eqn:E; simpl.
  - by case_decide; subst.
  - case_decide; subst.
    + apply list_lookup_insert_eq. by eapply lookup_lt_Some.
    + by apply list_lookup_insert_ne.
  - by case_decide; subst.
Qed.

Lemma length_heap_settle p o s : length (heap (settle p o s)) = length (heap s).
Proof.
  unfold settle. destruct (heap s !! p) as [[r|]|]; simpl; try done.
  apply length_insert.
Qed.

(** A settled promise keeps its outcome. *)
Lemma settle_stable p o s q r :
  heap s !! q = Some (Some r) → heap (settle p o s) !! q = Some (Some r).
Proof.
  intros H. rewrite heap_settle. case_decide as E; [|done].
  rewrite E. by rewrite H.
Qed.

Lemma settle_unused p o s :
  unused p s →
  settle p o s =
  set_runtime (<[p := Some o]> (heap s)) (waiting s) (microtasks s) s.
Proof.
  intros (Hp & _ & Hw & _). rewrite settle_pending by done.
  destruct (filter_off p (waiting s) Hw) as [-> ->].
  simpl. by rewrite app_nil_r.
Qed.

Lemma then_pending p k s :
  heap s !! p = Some None →
  then_ p k s = set_runtime (heap s) (waiting s ++ [(p, k)]) (microtasks s) s.
Proof. unfold then_. by intros ->. Qed.

Lemma then_settled p k r s :
  heap s !! p = Some (Some r) →
  then_ p k s = set_runtime (heap s) (waiting s) (microtasks s ++ [(k, r)]) s.
Proof. unfold then_. by intros ->. Qed.

(** ** Well-formedness is kept *)

Lemma unused_not_referenced p s : unused p s → ¬ referenced p s.
Proof.
  intros (_ & Hl & Hw & Ht) [[k H]|[(k & H & E)|(t & key & H)]].
  - by eapply Hw.
  - by eapply Hl.
  - by eapply Ht.
Qed.

Lemma wf_core_referenced s q :
  wf_core s → referenced q s → is_Some (heap s !! q).
Proof.
  intros W [[k H]|[(k & H & <-)|(t & key & H)]].
  - erewrite wf_waiting_pending; eauto.
  - erewrite wf_targets_pending; eauto.
  - destruct (wf_entry_live s W t key q H) as [[-> _]|(r & -> & _)]; eauto.
Qed.

Lemma wf_core_frame s s' :
  wf_core s →
  (∀ t key d, get_table t s' !! key = Some d → get_table t s !! key = Some d) →
  waiting s' = waiting s →
  microtasks s' = microtasks s →
  (∀ q, referenced q s → heap s' !! q = heap s !! q) →
  wf_core s'.
Proof.
  intros W Ht Hw Hq Hh.
  assert (live s' = live s) as Hl by (unfold live; by rewrite Hw, Hq).
  split.
  - intros p k H. rewrite Hw in H. rewrite Hh; [by eapply wf_waiting_pending|].
    left; eauto.
  - rewrite Hl. by apply wf_targets_nodup.
  - intros k H. rewrite Hl in H. rewrite Hh; [by apply wf_targets_pending|].
    right; left; eauto.
  - intros d t c v o k H1 H2. rewrite Hw in H1. rewrite Hl in H2.
    by eapply wf_deferred_not_target.
  - intros t1 k1 t2 k2 d H1 H2. eapply wf_table_inj; eauto.
  - intros d t c v o t' k' H1 H2. rewrite Hw in H1. eapply wf_own_key; eauto.
  - intros t key d H. rewrite Hw, Hq.
    rewrite Hh by (right; right; eauto).
    by apply wf_entry_live, Ht.
Qed.

Lemma wf_core_set_webview w s : wf_core s → wf_core (set_webview w s).
Proof. intros W. eapply wf_core_frame; eauto; intros t; by destruct t. Qed.

Lemma wf_core_send w msg s : wf_core s → wf_core (send w msg s).
Proof. intros W. eapply wf_core_frame; eauto; intros t; by destruct t. Qed.

Lemma wf_core_warn x e s : wf_core s → wf_core (warn x e s).
Proof. intros W. eapply wf_core_frame; eauto; intros t; by destruct t. Qed.

Lemma wf_core_send_if_attached msg s : wf_core s → wf_core (send_if_attached msg s).
Proof.
  intros W. unfold send_if_attached. destruct (_webview s); [|done].
  by apply wf_core_send.
Qed.

Lemma wf_core_shrink t m s :
  wf_core s → m ⊆ get_table t s → wf_core (set_table t m s).
Proof.
  intros W Hm.
  apply (wf_core_frame s); [done| |apply waiting_set_table
                           |apply microtasks_set_table|].
  - intros t' key d. rewrite get_set_table_lookup. case_decide; subst; [|done].
    intros H. eapply lookup_weaken; eauto.
  - intros q _. by rewrite heap_set_table.
Qed.

Lemma wf_core_new_promise s : wf_core s → wf_core (new_promise s).2.
Proof.
  intros W. apply (wf_core_frame s); [done| |done|done|].
  - intros t key d. simpl. by rewrite get_table_set_runtime.
  - intros q Hq. simpl.
    destruct (wf_core_referenced s q W Hq) as [x Hx].
    rewrite Hx. by apply lookup_app_l_Some.
Qed.

Lemma unused_new_promise s : wf_core s → unused (new_promise s).1 (new_promise s).2.
Proof.
  intros W. simpl.
  assert (∀ q, referenced q s → q ≠ length (heap s)) as Hr.
  { intros q Hq. apply wf_core_referenced in Hq as [x Hx]; [|done].
    apply lookup_lt_Some in Hx. lia. }
  split; [|split; [|split]]; simpl.
  - rewrite lookup_app_r by done. by rewrite Nat.sub_diag.
  - intros k Hk. apply Hr. right; left; eauto.
  - intros q k Hq. apply Hr. left; eauto.
  - intros t key. rewrite get_table_set_runtime. intros H.
    eapply Hr; [|done]. right; right; eauto.
Qed.

Lemma unused_allocated p s : unused p s → p < length (heap s).
Proof. intros [H _]. by eapply lookup_lt_Some. Qed.

Lemma unused_new_promise_other p s :
  unused p s → unused p (new_promise s).2.
Proof.
  intros (Hp & Hl & Hw & Ht). split; [|split; [|split]]; simpl; try done.
  by apply lookup_app_l_Some.
Qed.

Lemma wf_core_settle_unused p o s :
  wf_core s → unused p s → wf_core (settle p o s).
Proof.
  intros W U. rewrite settle_unused by done.
  apply (wf_core_frame s); [done| |done|done|].
  - intros t key d. by rewrite get_table_set_runtime.
  - intros q Hq. simpl. apply list_lookup_insert_ne.
    intros ->. by eapply unused_not_referenced.
Qed.

Lemma unused_settle_unused p q o s :
  unused p s → unused q s → p ≠ q → unused q (settle p o s).
Proof.
  intros U (Hq & Hl & Hw & Ht) Hne. rewrite settle_unused by done.
  split; [|split; [|split]]; simpl; try done.
  by rewrite list_lookup_insert_ne.
Qed.

Lemma live_then p k s k' :
  k' ∈ live (then_ p k s) ↔ k' = k ∨ k' ∈ live s.
Proof.
  unfold then_, live. destruct (heap s !! p) as [[r|]|]; simpl;
    rewrite ?fmap_app, !elem_of_app; simpl; rewrite ?list_elem_of_singleton; tauto.
Qed.

Lemma live_then_perm p k s : live (then_ p k s) ≡ₚ k :: live s.
Proof.
  unfold then_, live. destruct (heap s !! p) as [[r|]|]; simpl;
    rewrite ?fmap_app; simpl.
  - rewrite app_assoc. symmetry. apply Permutation_cons_append.
  - rewrite <-app_assoc. symmetry. apply Permutation_middle.
  - rewrite <-app_assoc. symmetry. apply Permutation_middle.
Qed.

Lemma waiting_then p k s q k' :
  (q, k') ∈ waiting (then_ p k s) →
  (q, k') ∈ waiting s ∨ (q = p ∧ k' = k ∧ ∀ r, heap s !! p ≠ Some (Some r)).
Proof.
  unfold then_. destruct (heap s !! p) as [[r|]|] eqn:E; simpl.
  - by left.
  - rewrite elem_of_app, list_elem_of_singleton. intros [?|[= -> ->]]; auto.
  - rewrite elem_of_app, list_elem_of_singleton. intros [?|[= -> ->]]; auto.
Qed.

Lemma waiting_then_incl p k s e : e ∈ waiting s → e ∈ waiting (then_ p k s).
Proof.
  unfold then_. destruct (heap s !! p) as [[r|]|]; simpl; try done;
    rewrite elem_of_app; auto.
Qed.

Lemma microtasks_then_incl p k s e : e ∈ microtasks s → e ∈ microtasks (then_ p k s).
Proof.
  unfold then_. destruct (heap s !! p) as [[r|]|]; simpl; try done;
    rewrite elem_of_app; auto.
Qed.

Lemma wf_core_entry_not_target s t key d k :
  wf_core s → get_table t s !! key = Some d → k ∈ live s → target k ≠ d.
Proof.
  intros W Ht Hk.
  destruct (wf_entry_live s W t key d Ht) as [[_ (c & o & H)]|(r & Hr & _)].
  - by eapply wf_deferred_not_target.
  - intros E. apply (wf_targets_pending s W) in Hk. congruence.
Qed.

(** Registering a continuation whose promise is new. *)
Lemma wf_core_then p k s :
  wf_core s →
  unused (target k) s →
  is_Some (heap s !! p) →
  (is_cached k →
     p ≠ target k ∧
     (∀ k', k' ∈ live s → target k' ≠ p) ∧
     (∀ t key, get_table t s !! key = Some p → for_key t key k)) →
  wf_core (then_ p k s).
Proof.
  intros W (Uh & Ul & Uw & Ut) [x Hp] Hc. split.
  - intros q k' [H|(-> & -> & H)]%waiting_then; rewrite heap_then.
    + by eapply wf_waiting_pending.
    + rewrite Hp. destruct x as [r|]; [|done]. by destruct (H r).
  - rewrite live_then_perm. simpl. apply NoDup_cons. split.
    + intros (k' & E & Hk')%list_elem_of_fmap. by eapply Ul.
    + by apply wf_targets_nodup.
  - intros k' [->|H]%live_then; rewrite heap_then; [done|].
    by apply wf_targets_pending.
  - intros d t c v o k' [H|(-> & E & H)]%waiting_then [->|Hk']%live_then.
    + intros E. by eapply Uw.
    + by eapply wf_deferred_not_target.
    + subst k. destruct (Hc I) as (H1 & _ & _). by intros E.
    + subst k. destruct (Hc I) as (_ & H2 & _). by apply H2.
  - intros t1 k1 t2 k2 d. rewrite !get_table_then. by apply wf_table_inj.
  - intros d t c v o t' k' [H|(-> & E & H)]%waiting_then; rewrite get_table_then.
    + by eapply wf_own_key.
    + subst k. intros Ht. destruct (Hc I) as (_ & _ & H3).
      by destruct (H3 _ _ Ht) as [-> ->].
  - intros t key d. rewrite get_table_then, heap_then. intros Ht.
    destruct (wf_entry_live s W t key d Ht) as [[? (c & o & H)]|(r & ? & c & o & r' & H)].
    + left. eauto using waiting_then_incl.
    + right. eauto 10 using microtasks_then_incl.
Qed.

Lemma unused_then q p k s :
  unused q s → q ≠ p → q ≠ target k → unused q (then_ p k s).
Proof.
  intros (Hq & Hl & Hw & Ht) H1 H2. split; [|split; [|split]].
  - by rewrite heap_then.
  - intros k' [->|H]%live_then; [done|]. by apply Hl.
  - intros q' k' [H|(-> & _)]%waiting_then; [|done]. by eapply Hw.
  - intros t key. rewrite get_table_then. apply Ht.
Qed.

(** Storing a waiter that a send already waits for. *)
Lemma wf_core_insert t v d s :
  wf_core s →
  heap s !! d = Some None →
  (∀ t' key, get_table t' s !! key ≠ Some d) →
  (∃ c o, (d, K_cachedSendCommand t c v o) ∈ waiting s) →
  (∀ t' c v' o, (d, K_cachedSendCommand t' c v' o) ∈ waiting s → t' = t ∧ v' = v) →
  wf_core (set_table t (<[v := d]> (get_table t s)) s).
Proof.
  intros W Hd Hfresh Hreg Hown.
  assert (∀ t' key d', get_table t' (set_table t (<[v:=d]> (get_table t s)) s) !! key = Some d' →
            (t' = t ∧ key = v ∧ d' = d) ∨ get_table t' s !! key = Some d') as Hcase.
  { intros t' key d'. rewrite get_set_table_lookup. case_decide; subst; [|auto].
    rewrite lookup_insert. case_decide; subst; [|auto]. intros [= <-]. auto. }
  split; rewrite ?waiting_set_table, ?live_set_table, ?heap_set_table,
           ?microtasks_set_table.
  - by apply wf_waiting_pending.
  - by apply wf_targets_nodup.
  - by apply wf_targets_pending.
  - by apply wf_deferred_not_target.
  - intros t1 k1 t2 k2 d' [(-> & -> & ->)|H1]%Hcase [(-> & -> & E)|H2]%Hcase;
      try done.
    + by destruct (Hfresh t2 k2).
    + subst. by destruct (Hfresh t1 k1).
    + by eapply wf_table_inj.
  - intros d' t' c v' o t'' k'' Hw [(-> & -> & ->)|H]%Hcase.
    + by apply Hown in Hw as [-> ->].
    + by eapply wf_own_key.
  - intros t' key d' [(-> & -> & ->)|H]%Hcase.
    + left. eauto.
    + by apply wf_entry_live.
Qed.

Lemma then_set_table_send p k w msg t m s :
  then_ p k (send w msg (set_table t m s)) = send w msg (set_table t m (then_ p k s)).
Proof.
  unfold then_. simpl. rewrite heap_set_table.
  destruct (heap s !! p) as [[r|]|]; by destruct t.
Qed.

Lemma wf_core_then_insert t c v out d w msg s :
  wf_core s → unused out s → unused d s → out ≠ d →
  wf_core (then_ d (K_cachedSendCommand t c v out)
             (send w msg (set_table t (<[v := d]> (get_table t s)) s))).
Proof.
  intros W Uo Ud Hne. rewrite then_set_table_send. apply wf_core_send.
  rewrite <-(get_table_then t d (K_cachedSendCommand t c v out) s).
  pose proof Ud as (Hd & Hl & Hw & Ht).
  apply wf_core_insert.
  - apply wf_core_then; [done|done|by rewrite Hd|]. intros _.
    split; [done|]. split; [done|]. intros t' key H. by destruct (Ht t' key).
  - by rewrite heap_then.
  - intros t' key. rewrite get_table_then. apply Ht.
  - exists c, out. rewrite then_pending by done. simpl.
    rewrite elem_of_app, list_elem_of_singleton. auto.
  - intros t' c' v' o [H|(_ & [= -> _ -> _] & _)]%waiting_then; [|done].
    by destruct (Hw _ _ H).
Qed.

Lemma wf_core_cachedSendCommand t c args s :
  wf_core s → wf_core (_cachedSendCommand t c args s).2.
Proof.
  intros W. unfold _cachedSendCommand, _asyncToGenerator.
  pose proof (wf_core_new_promise s W) as W1.
  pose proof (unused_new_promise s W) as U1.
  destruct (new_promise s) as [out s1] eqn:E1. simpl in W1, U1.
  unfold _cachedSendCommand_body.
  destruct (_webview s1) as [w|]; [|simpl; by apply wf_core_settle_unused].
  destruct (hd JUndefined args) as [| | |value| |];
    try (simpl; by apply wf_core_settle_unused).
  destruct (get_table t s1 !! value) as [d|] eqn:Ed.
  - simpl. apply wf_core_then; [done|done| |intros _].
    + apply wf_core_referenced; [done|]. right; right; eauto.
    + pose proof U1 as (_ & _ & _ & Ut). split; [|split].
      * intros ->. by destruct (Ut t value).
      * intros k'. by eapply wf_core_entry_not_target.
      * intros t' key H. simpl. by eapply wf_table_inj.
  - pose proof (wf_core_new_promise s1 W1) as W2.
    pose proof (unused_new_promise s1 W1) as U2.
    pose proof (unused_new_promise_other out s1 U1) as U1'.
    unfold Deferred_new.
    destruct (new_promise s1) as [d s2] eqn:E2. simpl in W2, U2, U1' |- *.
    apply wf_core_then_insert; try done.
    injection E2 as <- _. apply unused_allocated in U1. lia.
Qed.

Lemma live_settle p o s : live (settle p o s) ≡ₚ live s.
Proof.
  unfold settle. destruct (heap s !! p) as [[r|]|]; try done.
  unfold live. simpl. apply live_split.
Qed.

Lemma waiting_settle p o s q k :
  (q, k) ∈ waiting (settle p o s) → (q, k) ∈ waiting s ∧ (heap s !! p = Some None → q ≠ p).
Proof.
  unfold settle. destruct (heap s !! p) as [[r|]|] eqn:E; simpl; try done.
  rewrite list_elem_of_filter. simpl. tauto.
Qed.

Lemma waiting_settle_other p o s q k :
  (q, k) ∈ waiting s → q ≠ p → (q, k) ∈ waiting (settle p o s).
Proof.
  intros H Hne. unfold settle. destruct (heap s !! p) as [[r|]|] eqn:E; simpl; try done.
  rewrite list_elem_of_filter. simpl. tauto.
Qed.

Lemma microtasks_settle_incl p o s j :
  j ∈ microtasks s → j ∈ microtasks (settle p o s).
Proof.
  intros H. unfold settle. destruct (heap s !! p) as [[r|]|] eqn:E; simpl; try done.
  rewrite elem_of_app. auto.
Qed.

Lemma microtasks_settle_moved p o s k :
  heap s !! p = Some None → (p, k) ∈ waiting s → (k, o) ∈ microtasks (settle p o s).
Proof.
  intros Hp H. rewrite settle_pending by done. simpl.
  rewrite elem_of_app. right. apply list_elem_of_fmap.
  exists (p, k). split; [done|]. by apply list_elem_of_filter.
Qed.

Lemma microtasks_settle p o s k r :
  (k, r) ∈ microtasks (settle p o s) →
  (k, r) ∈ microtasks s ∨ (r = o ∧ (p, k) ∈ waiting s).
Proof.
  unfold settle. destruct (heap s !! p) as [[r'|]|] eqn:E; simpl; auto.
  rewrite elem_of_app. intros [?|H]; [auto|right].
  apply list_elem_of_fmap in H as ([q k'] & [= -> ->] & H).
  apply list_elem_of_filter in H as [H1 H2]. simpl in H1. by subst.
Qed.

(** Settling a promise that no continuation is going to settle. *)
Lemma wf_core_settle p o s :
  wf_core s → (∀ k, k ∈ live s → target k ≠ p) → wf_core (settle p o s).
Proof.
  intros W Hp.
  destruct (heap s !! p) as [[r|]|] eqn:E;
    [by erewrite settle_settled| |by rewrite settle_unallocated].
  split.
  - intros q k [H Hne]%waiting_settle. rewrite heap_settle.
    rewrite decide_False by (intros ->; by apply Hne).
    by eapply wf_waiting_pending.
  - rewrite live_settle. by apply wf_targets_nodup.
  - intros k. rewrite live_settle. intros H. rewrite heap_settle.
    rewrite decide_False by (intros E'; by eapply Hp).
    by apply wf_targets_pending.
  - intros d t c v o' k [H _]%waiting_settle. rewrite live_settle.
    by eapply wf_deferred_not_target.
  - intros t1 k1 t2 k2 d. rewrite !get_table_settle. by apply wf_table_inj.
  - intros d t c v o' t' k' [H _]%waiting_settle. rewrite get_table_settle.
    by eapply wf_own_key.
  - intros t key d. rewrite get_table_settle, heap_settle. intros Ht.
    destruct (wf_entry_live s W t key d Ht)
      as [[Hd (c & o' & H)]|(r & Hd & c & o' & r' & H)].
    + case_decide as Hpd.
      * subst d. right. rewrite E. eauto 10 using microtasks_settle_moved.
      * left. eauto using waiting_settle_other.
    + right. case_decide as Hpd.
      * subst d. congruence.
      * eauto 10 using microtasks_settle_incl.
Qed.

Lemma wf_core_settle_entry t key d o s :
  wf_core s → get_table t s !! key = Some d → wf_core (settle d o s).
Proof.
  intros W H. apply wf_core_settle; [done|]. intros k.
  by eapply wf_core_entry_not_target.
Qed.

(** The head of the queue is taken off, and entries may leave the tables. *)
Lemma wf_core_pop k r q s s1 :
  wf_core s →
  microtasks s = (k, r) :: q →
  heap s1 = heap s → waiting s1 = waiting s → microtasks s1 = q →
  (∀ t key d, get_table t s1 !! key = Some d → get_table t s !! key = Some d) →
  (∀ t c v o, k = K_cachedSendCommand t c v o → get_table t s1 !! v = None) →
  wf_core s1 ∧ (∀ k', k' ∈ live s1 → target k' ≠ target k).
Proof.
  intros W Hq Hh Hw Hq1 Ht Hk.
  assert (live s ≡ₚ k :: live s1) as Hl.
  { unfold live. rewrite Hq, Hw, Hq1. simpl. symmetry. apply Permutation_middle. }
  pose proof (wf_targets_nodup s W) as Hnd. rewrite Hl in Hnd.
  simpl in Hnd. apply NoDup_cons in Hnd as [Hnd1 Hnd2].
  assert (∀ k', k' ∈ live s1 → k' ∈ live s) as Hin.
  { intros k' H. rewrite Hl. by right. }
  split; [split|].
  - intros p k'. rewrite Hw, Hh. by apply wf_waiting_pending.
  - done.
  - intros k' H. rewrite Hh. by apply wf_targets_pending, Hin.
  - intros d t c v o k'. rewrite Hw. intros H1 H2.
    eapply wf_deferred_not_target; eauto.
  - intros t1 k1 t2 k2 d H1 H2. eapply wf_table_inj; eauto.
  - intros d t c v o t' k'. rewrite Hw. intros H1 H2.
    eapply wf_own_key; eauto.
  - intros t key d H. rewrite Hh, Hw, Hq1.
    destruct (wf_entry_live s W t key d (Ht _ _ _ H))
      as [[Hd (c & o' & Hw')]|(r0 & Hd & c & o' & r' & Hj)]; [left; eauto|].
    right. exists r0. split; [done|]. exists c, o', r'.
    rewrite Hq in Hj. apply elem_of_cons in Hj as [[= <- <-]|Hj]; [|done].
    rewrite (Hk t c key o') in H; done.
  - intros k' H E. apply Hnd1. rewrite <-E. by apply list_elem_of_fmap_2.
Qed.

(** ** Running a microtask *)

Lemma run_job_settle k r s :
  run_job (k, r) s = settle (target k) (job_outcome k r) (resume k r s).2.
Proof.
  unfold run_job, job_outcome.
  destruct k, r; simpl; try done; by destruct (nullish value).
Qed.

Lemma heap_resume k r s : heap (resume k r s).2 = heap s.
Proof.
  destruct k, r; simpl; rewrite ?heap_set_table; try done;
    by destruct (nullish value).
Qed.

Lemma waiting_resume k r s : waiting (resume k r s).2 = waiting s.
Proof.
  destruct k, r; simpl; rewrite ?waiting_set_table; try done;
    by destruct (nullish value).
Qed.

Lemma microtasks_resume k r s : microtasks (resume k r s).2 = microtasks s.
Proof.
  destruct k, r; simpl; rewrite ?microtasks_set_table; try done;
    by destruct (nullish value).
Qed.

Lemma sent_resume k r s : sent (resume k r s).2 = sent s.
Proof.
  destruct k, r; simpl; rewrite ?sent_set_table; try done;
    by destruct (nullish value).
Qed.

Lemma webview_resume k r s : _webview (resume k r s).2 = _webview s.
Proof.
  destruct k, r; simpl; rewrite ?webview_set_table; try done;
    by destruct (nullish value).
Qed.

Lemma get_table_resume k r s t' :
  get_table t' (resume k r s).2 =
  match k with
  | K_cachedSendCommand t _ v _ =>
      if decide (t = t') then delete v (get_table t' s) else get_table t' s
  | _ => get_table t' s
  end.
Proof.
  destruct k as [t c v o|e o|e o], r; simpl;
    try (by destruct (nullish value)).
  - case_decide; subst; [by rewrite get_set_table|by rewrite get_set_table_ne].
  - case_decide; subst; [rewrite get_set_table|rewrite get_set_table_ne by done];
      by rewrite get_table_warn.
  - done.
  - done.
Qed.

Lemma get_table_resume_incl k r s t key d :
  get_table t (resume k r s).2 !! key = Some d → get_table t s !! key = Some d.
Proof.
  rewrite get_table_resume. destruct k; try done.
  case_decide; [|done]. by intros [_ ?]%lookup_delete_Some.
Qed.

Lemma run_microtask_cons s s' :
  run_microtask s = Some s' →
  ∃ k r q, microtasks s = (k, r) :: q ∧
    s' = settle (target k) (job_outcome k r)
           (resume k r (set_runtime (heap s) (waiting s) q s)).2.
Proof.
  unfold run_microtask. destruct (microtasks s) as [|[k r] q]; [done|].
  intros [= <-]. exists k, r, q. by rewrite run_job_settle.
Qed.

Lemma wf_core_run_microtask s s' :
  wf_core s → run_microtask s = Some s' → wf_core s'.
Proof.
  intros W (k & r & q & Hq & ->)%run_microtask_cons.
  destruct (wf_core_pop k r q s
              (resume k r (set_runtime (heap s) (waiting s) q s)).2 W Hq)
    as [W1 Hk].
  - by rewrite heap_resume.
  - by rewrite waiting_resume.
  - by rewrite microtasks_resume.
  - intros t key d H%get_table_resume_incl. by rewrite get_table_set_runtime in H.
  - intros t c v o ->. rewrite get_table_resume, decide_True by done.
    apply lookup_delete_eq.
  - by apply wf_core_settle.
Qed.

Lemma wf_core_drain n s : wf_core s → wf_core (drain n s).
Proof.
  revert s. induction n as [|n IH]; intros s W; simpl; [done|].
  destruct (run_microtask s) as [s'|] eqn:E; [|done].
  eapply IH, wf_core_run_microtask; eauto.
Qed.

(** The queue and the registrations together never grow, and a microtask
    takes one away: the checkpoint empties the queue. *)
Lemma run_microtask_measure s s' :
  run_microtask s = Some s' →
  length (microtasks s') + length (waiting s') <
  length (microtasks s) + length (waiting s).
Proof.
  intros (k & r & q & Hq & ->)%run_microtask_cons. rewrite Hq. simpl.
  set (s1 := (resume k r _).2).
  assert (microtasks s1 = q) as Hq1 by (unfold s1; by rewrite microtasks_resume).
  assert (waiting s1 = waiting s) as Hw1 by (unfold s1; by rewrite waiting_resume).
  unfold settle. destruct (heap s1 !! target k) as [[?|]|]; rewrite <-?Hw1;
    simpl; rewrite ?Hq1; try lia.
  rewrite length_app, length_fmap.
  pose proof (filter_app_complement (λ e : ref * cont, e.1 = target k) (waiting s1)) as HP.
  apply Permutation_length in HP. rewrite length_app in HP.
  lia.
Qed.

Lemma drain_empty n s :
  length (microtasks s) + length (waiting s) ≤ n → microtasks (drain n s) = [].
Proof.
  revert s. induction n as [|n IH]; intros s Hn; simpl.
  - destruct (microtasks s); [done|simpl in Hn; lia].
  - destruct (run_microtask s) as [s'|] eqn:E.
    + apply IH. apply run_microtask_measure in E. lia.
    + unfold run_microtask in E. by destruct (microtasks s).
Qed.

Lemma run_microtasks_empty s : microtasks (run_microtasks s) = [].
Proof. by apply drain_empty. Qed.

Lemma wf_core_run_microtasks s : wf_core s → wf_core (run_microtasks s).
Proof. apply wf_core_drain. Qed.

(** ** What a send does, case by case *)

Lemma insert_snoc {A} (l : list A) (x y : A) : <[length l := y]> (l ++ [x]) = l ++ [y].
Proof.
  replace (length l) with (length l + 0) by lia. by rewrite insert_app_r.
Qed.

Lemma settle_new_promise o s :
  wf_core s →
  settle (length (heap s)) o (new_promise s).2 =
  set_runtime (heap s ++ [Some o]) (waiting s) (microtasks s) s.
Proof.
  intros W. rewrite settle_unused by apply (unused_new_promise s W).
  simpl. by rewrite insert_snoc.
Qed.

Lemma length_snoc {A} (l : list A) (x : A) : length (l ++ [x]) = S (length l).
Proof. rewrite length_app. simpl. lia. Qed.

Lemma cachedSendCommand_new t c args w v s :
  _webview s = Some w → hd JUndefined args = JStr v →
  get_table t s !! v = None →
  _cachedSendCommand t c args s =
  (length (heap s),
   send w (JStr "command" :: JStr c :: args)
     (set_table t (<[v := S (length (heap s))]> (get_table t s))
        (set_runtime (heap s ++ [None; None])
           (waiting s ++ [(S (length (heap s)),
                           K_cachedSendCommand t c v (length (heap s)))])
           (microtasks s) s))).
Proof.
  intros Hw Hv Ht.
  unfold _cachedSendCommand, _asyncToGenerator, _cachedSendCommand_body.
  cbn [new_promise].
  change (_webview (set_runtime _ _ _ s)) with (_webview s).
  rewrite Hw, Hv, get_table_set_runtime, Ht.
  unfold Deferred_new. cbn [new_promise step_result].
  f_equal. unfold then_. cbn [heap send].
  rewrite heap_set_table. cbn [heap set_runtime].
  rewrite length_snoc, lookup_app_r by (rewrite length_snoc; lia).
  rewrite length_snoc, Nat.sub_diag. cbn [lookup list_lookup].
  rewrite <-app_assoc. by destruct t.
Qed.

Lemma cachedSendCommand_reuse t c args w v d s :
  _webview s = Some w → hd JUndefined args = JStr v →
  get_table t s !! v = Some d →
  _cachedSendCommand t c args s =
  (length (heap s),
   then_ d (K_cachedSendCommand t c v (length (heap s))) (new_promise s).2).
Proof.
  intros Hw Hv Ht.
  unfold _cachedSendCommand, _asyncToGenerator, _cachedSendCommand_body.
  cbn [new_promise].
  change (_webview (set_runtime _ _ _ s)) with (_webview s).
  by rewrite Hw, Hv, get_table_set_runtime, Ht.
Qed.

Lemma cachedSendCommand_reuse_pending t c args w v d s :
  _webview s = Some w → hd JUndefined args = JStr v →
  get_table t s !! v = Some d → heap s !! d = Some None →
  _cachedSendCommand t c args s =
  (length (heap s),
   set_runtime (heap s ++ [None])
     (waiting s ++ [(d, K_cachedSendCommand t c v (length (heap s)))])
     (microtasks s) s).
Proof.
  intros Hw Hv Ht Hd. erewrite cachedSendCommand_reuse by done.
  rewrite then_pending; [done|]. simpl. by apply lookup_app_l_Some.
Qed.

Lemma cachedSendCommand_disconnected t c args s :
  wf_core s → _webview s = None →
  _cachedSendCommand t c args s =
  (length (heap s),
   set_runtime (heap s ++ [Some (Fulfilled JNull)]) (waiting s) (microtasks s) s).
Proof.
  intros W Hw.
  unfold _cachedSendCommand, _asyncToGenerator, _cachedSendCommand_body.
  cbn [new_promise].
  change (_webview (set_runtime _ _ _ s)) with (_webview s).
  rewrite Hw. cbn [step_result]. f_equal. by apply settle_new_promise.
Qed.

Lemma cachedSendCommand_not_string t c args w s :
  wf_core s → _webview s = Some w →
  (∀ v, hd JUndefined args ≠ JStr v) →
  _cachedSendCommand t c args s =
  (length (heap s),
   set_runtime (heap s ++ [Some (Rejected AssertionError)])
     (waiting s) (microtasks s) s).
Proof.
  intros W Hw Hv.
  unfold _cachedSendCommand, _asyncToGenerator, _cachedSendCommand_body.
  cbn [new_promise].
  change (_webview (set_runtime _ _ _ s)) with (_webview s).
  rewrite Hw.
  destruct (hd JUndefined args) as [| | |v| |]; cbn [step_result];
    try (f_equal; by apply settle_new_promise).
  by destruct (Hv v).
Qed.

Lemma cachedSendCommand_fst t c args s :
  (_cachedSendCommand t c args s).1 = length (heap s).
Proof.
  unfold _cachedSendCommand, _asyncToGenerator. cbn [new_promise].
  by destruct (_cachedSendCommand_body _ _ _ _).
Qed.

(** ** Every reachable state is well formed *)

Lemma wf_constructor : wf constructor.
Proof.
  split; [split|]; simpl; try (intros; set_solver).
  - constructor.
  - intros t key d. by destruct t.
  - intros t key d. by destruct t.
  - intros k r H. simpl in H. set_solver.
Qed.

Lemma wf_entry_pending s t key d :
  wf s → get_table t s !! key = Some d →
  heap s !! d = Some None ∧
  ∃ c o, (d, K_cachedSendCommand t c key o) ∈ waiting s.
Proof.
  intros [W N] H.
  destruct (wf_entry_live s W t key d H) as [?|(r & _ & c & o & r' & Hj)]; [done|].
  by destruct (N _ _ Hj).
Qed.

Lemma microtasks_cachedSendCommand t c args s :
  wf s → microtasks (_cachedSendCommand t c args s).2 = microtasks s.
Proof.
  intros W. pose proof W as [Wc _].
  destruct (_webview s) as [w|] eqn:Hw;
    [|by rewrite cachedSendCommand_disconnected].
  destruct (hd JUndefined args) as [| | |v| |] eqn:Hv;
    try (by erewrite cachedSendCommand_not_string by (try done; by rewrite Hv)).
  destruct (get_table t s !! v) as [d|] eqn:Ht.
  - destruct (wf_entry_pending s t v d W Ht) as [Hd _].
    by erewrite cachedSendCommand_reuse_pending.
  - erewrite cachedSendCommand_new by done. simpl.
    by rewrite microtasks_set_table.
Qed.

Lemma wf_cachedSendCommand t c args s :
  wf s → wf (_cachedSendCommand t c args s).2.
Proof.
  intros W. split; [apply wf_core_cachedSendCommand, W|].
  unfold no_cached_job. rewrite microtasks_cachedSendCommand by done. apply W.
Qed.

Lemma length_heap_then p k s : length (heap (then_ p k s)) = length (heap s).
Proof. by rewrite heap_then. Qed.

Lemma length_heap_cachedSendCommand t c args s :
  length (heap s) < length (heap (_cachedSendCommand t c args s).2).
Proof.
  unfold _cachedSendCommand, _asyncToGenerator, _cachedSendCommand_body.
  cbn [new_promise].
  change (_webview (set_runtime _ _ _ s)) with (_webview s).
  assert (length (heap s) < length (heap (set_runtime (heap s ++ [None]) (waiting s) (microtasks s) s))) as H0
    by (simpl; rewrite length_snoc; lia).
  destruct (_webview s) as [w|];
    [|cbn [step_result snd]; by rewrite length_heap_settle].
  destruct (hd JUndefined args) as [| | |v| |];
    try (cbn [step_result snd]; by rewrite length_heap_settle).
  rewrite get_table_set_runtime.
  destruct (get_table t s !! v) as [d|].
  - cbn [step_result snd]. by rewrite length_heap_then.
  - unfold Deferred_new. cbn [new_promise step_result snd].
    rewrite length_heap_then. simpl. rewrite heap_set_table. simpl.
    rewrite !length_snoc. lia.
Qed.

Lemma unused_cachedSendCommand q t c args s :
  wf_core s → unused q s → unused q (_cachedSendCommand t c args s).2.
Proof.
  intros W U.
  pose proof (unused_allocated q s U) as Hq.
  pose proof (unused_new_promise s W) as U1.
  pose proof (unused_new_promise_other q s U) as Uq1.
  destruct (_webview s) as [w|] eqn:Hw.
  2:{ unfold _cachedSendCommand, _asyncToGenerator, _cachedSendCommand_body.
      cbn [new_promise].
      change (_webview (set_runtime _ _ _ s)) with (_webview s). rewrite Hw.
      cbn [step_result snd]. apply unused_settle_unused; try done.
      simpl. lia. }
  destruct (hd JUndefined args) as [| | |v| |] eqn:Hv;
    try (unfold _cachedSendCommand, _asyncToGenerator, _cachedSendCommand_body;
         cbn [new_promise];
         change (_webview (set_runtime _ _ _ s)) with (_webview s); rewrite Hw, Hv;
         cbn [step_result snd]; apply unused_settle_unused; try done;
         simpl; lia).
  destruct (get_table t s !! v) as [d|] eqn:Ht.
  - erewrite cachedSendCommand_reuse by done. cbn [snd].
    apply unused_then; [done| |simpl; lia].
    intros ->. destruct U as (_ & _ & _ & Ut). by destruct (Ut t v).
  - erewrite cachedSendCommand_new by done. cbn [snd].
    destruct U as (Uh & Ul & Uw & Ut).
    split; [|split; [|split]].
    + simpl. rewrite heap_set_table. simpl. by apply lookup_app_l_Some.
    + unfold live. simpl. rewrite waiting_set_table, microtasks_set_table. simpl.
      rewrite fmap_app. simpl. intros k.
      rewrite !elem_of_app, list_elem_of_singleton.
      intros [[H| ->]|H]; [apply Ul|simpl; lia|apply Ul];
        unfold live; rewrite elem_of_app; auto.
    + simpl. rewrite waiting_set_table. simpl. intros q' k.
      rewrite elem_of_app, list_elem_of_singleton.
      intros [H|[= -> ->]]; [by eapply Uw|lia].
    + intros t' key. rewrite get_table_send, get_set_table_lookup.
      case_decide; subst.
      * rewrite lookup_insert. case_decide; [intros [= E]; lia|]. apply Ut.
      * rewrite get_table_set_runtime. apply Ut.
Qed.

Lemma no_cached_job_then p k s :
  no_cached_job s → ¬ is_cached k → no_cached_job (then_ p k s).
Proof.
  intros N Hk k' r. unfold then_.
  destruct (heap s !! p) as [[r'|]|]; simpl; try apply N.
  rewrite elem_of_app, list_elem_of_singleton. intros [H|[= -> ->]]; [|done].
  by eapply N.
Qed.

(** The shape shared by the two evaluation methods. *)
Lemma wf_evaluate (k : ref → cont) t c args s :
  (∀ out, target (k out) = out) → (∀ out, ¬ is_cached (k out)) →
  wf s →
  wf (_asyncToGenerator (λ s,
        let '(p, s) := _cachedSendCommand t c args s in (Yield p k, s)) s).2.
Proof.
  intros Hk Hnc W. unfold _asyncToGenerator.
  pose proof W as [Wc N].
  pose proof (wf_core_new_promise s Wc) as W1.
  pose proof (unused_new_promise s Wc) as U1.
  destruct (new_promise s) as [out s1] eqn:E1.
  assert (microtasks s1 = microtasks s) as Hq by (by injection E1 as <- <-).
  assert (wf s1) as W1' by (split; [done|]; unfold no_cached_job; by rewrite Hq).
  simpl in W1, U1.
  pose proof (wf_cachedSendCommand t c args s1 W1') as [W2 N2].
  pose proof (unused_cachedSendCommand out t c args s1 W1 U1) as U2.
  pose proof (length_heap_cachedSendCommand t c args s1) as Hlen.
  pose proof (cachedSendCommand_fst t c args s1) as Hp.
  destruct (_cachedSendCommand t c args s1) as [p s2]. simpl in *. subst p.
  split.
  - apply wf_core_then; [done|by rewrite Hk| |by intros ?%Hnc].
    by apply lookup_lt_is_Some.
  - by apply no_cached_job_then.
Qed.

Lemma wf_evaluateOnSelectedCallFrame expression objectGroup s :
  wf s → wf (_evaluateOnSelectedCallFrame expression objectGroup s).2.
Proof. apply (wf_evaluate (K_evaluateOnSelectedCallFrame expression)); auto. Qed.

Lemma wf_runtimeEvaluate expression s :
  wf s → wf (_runtimeEvaluate expression s).2.
Proof. apply (wf_evaluate (K_runtimeEvaluate expression)); auto. Qed.

Lemma wf_evaluateConsoleExpression mode expression s :
  wf s → wf (evaluateConsoleExpression mode expression s).2.
Proof.
  intros W. unfold evaluateConsoleExpression.
  case_match; auto using wf_evaluateOnSelectedCallFrame, wf_runtimeEvaluate.
Qed.

Lemma wf_run_microtask s s' : wf s → run_microtask s = Some s' → wf s'.
Proof.
  intros [W N] H. split; [by eapply wf_core_run_microtask|].
  apply run_microtask_cons in H as (k & r & q & Hq & ->).
  intros k' r' Hj%microtasks_settle Hc.
  rewrite microtasks_resume, waiting_resume in Hj. simpl in Hj.
  destruct Hj as [Hj|[_ Hj]].
  - eapply N; [|done]. rewrite Hq. by right.
  - destruct k' as [t c v o| |]; try done.
    eapply (wf_deferred_not_target s W); [done| |done].
    unfold live. rewrite Hq. simpl. rewrite elem_of_app. right. by left.
Qed.

Lemma wf_run_microtasks s : wf_core s → wf (run_microtasks s).
Proof.
  intros W. split; [by apply wf_core_run_microtasks|].
  unfold no_cached_job. rewrite run_microtasks_empty. set_solver.
Qed.

Lemma wf_core_handleResponseForPendingRequest pending response key s s' :
  wf_core s →
  _handleResponseForPendingRequest pending response key s = Normal s' →
  wf_core s'.
Proof.
  intros W. unfold _handleResponseForPendingRequest.
  destruct (get_prop response "result") as [result|]; [|done].
  destruct (get_prop response "error") as [error|]; [|done].
  destruct key as [| | |key| |]; try (by intros [= <-]).
  destruct (get_table pending s !! key) as [d|] eqn:Ht; [|by intros [= <-]].
  unfold Deferred_resolve, Deferred_reject.
  destruct (nullish error); intros [= <-]; by eapply wf_core_settle_entry.
Qed.

Lemma wf_core_handleDebuggerPaused s : wf_core s → wf_core (_handleDebuggerPaused s).
Proof. intros W. apply wf_core_shrink; [done|]. apply map_empty_subseteq. Qed.

Section Reachable.

Variable normalizeRemoteObjectValue : jsval → jsval.

Lemma handleIpcMessage_cases m e s :
  let r := _handleIpcMessage normalizeRemoteObjectValue m e s in
  r = Normal (_syncDebuggerState m
                (_sendAllBreakpoints m (_updateDebuggerSettings m s))) ∨
  r = Normal (_handleDebuggerPaused s) ∨
  r = _handleExpressionEvaluationResponse normalizeRemoteObjectValue
        (nth 1 (args e) JUndefined) s ∨
  r = _handleGetPropertiesResponse (nth 1 (args e) JUndefined) s ∨
  r = Normal s ∨
  r = Throw TypeError.
Proof.
  unfold _handleIpcMessage, _bindBreakpoint, _removeBreakpoint, get_prop.
  destruct (String.eqb (channel e) "notification"); [|tauto].
  cbv zeta. repeat case_match; simplify_eq; tauto.
Qed.

Lemma wf_core_handleExpressionEvaluationResponse response s s' :
  wf_core s →
  _handleExpressionEvaluationResponse normalizeRemoteObjectValue response s
    = Normal s' →
  wf_core s'.
Proof.
  intros W. unfold _handleExpressionEvaluationResponse.
  repeat case_match; try done.
  by apply wf_core_handleResponseForPendingRequest.
Qed.

Lemma wf_core_handleGetPropertiesResponse response s s' :
  wf_core s → _handleGetPropertiesResponse response s = Normal s' → wf_core s'.
Proof.
  intros W. unfold _handleGetPropertiesResponse.
  repeat case_match; try done.
  by apply wf_core_handleResponseForPendingRequest.
Qed.

Lemma wf_core_handleIpcMessage m e s s' :
  wf_core s →
  _handleIpcMessage normalizeRemoteObjectValue m e s = Normal s' →
  wf_core s'.
Proof.
  intros W.
  destruct (handleIpcMessage_cases m e s) as [->|[->|[->|[->|[->| ->]]]]].
  - intros [= <-]. unfold _syncDebuggerState, _sendAllBreakpoints,
      _updateDebuggerSettings, setSingleThreadStepping,
      setPauseOnCaughtException, setPauseOnException.
    by repeat apply wf_core_send_if_attached.
  - intros [= <-]. by apply wf_core_handleDebuggerPaused.
  - by apply wf_core_handleExpressionEvaluationResponse.
  - by apply wf_core_handleGetPropertiesResponse.
  - by intros [= <-].
  - done.
Qed.

Lemma wf_set_webview w s : wf s → wf (set_webview w s).
Proof. intros [W N]. split; [by apply wf_core_set_webview|done]. Qed.

Lemma wf_send_if_attached msg s : wf s → wf (send_if_attached msg s).
Proof.
  intros [W N]. split; [by apply wf_core_send_if_attached|].
  unfold send_if_attached. by destruct (_webview s).
Qed.

Lemma wf_step s s' : wf s → step normalizeRemoteObjectValue s s' → wf s'.
Proof.
  intros W H. destruct H.
  - by apply wf_set_webview.
  - by apply wf_set_webview.
  - by apply wf_set_webview.
  - by apply wf_send_if_attached.
  - by apply wf_cachedSendCommand.
  - by apply wf_cachedSendCommand.
  - by apply wf_evaluateOnSelectedCallFrame.
  - by apply wf_evaluateConsoleExpression.
  - by eapply wf_run_microtask.
  - apply wf_run_microtasks. eapply wf_core_handleIpcMessage; [apply W|done].
  - apply wf_run_microtasks.
    eapply wf_core_handleResponseForPendingRequest; [apply W|done].
Qed.

Lemma wf_steps s s' : wf s → rtc (step normalizeRemoteObjectValue) s s' → wf s'.
Proof. intros W H. induction H; eauto using wf_step. Qed.

Lemma reachable_wf s : reachable normalizeRemoteObjectValue s → wf s.
Proof. apply wf_steps, wf_constructor. Qed.

End Reachable.

(** ** What a microtask checkpoint keeps and what it brings about *)

Lemma heap_run_microtask_stable s s' p r :
  run_microtask s = Some s' →
  heap s !! p = Some (Some r) → heap s' !! p = Some (Some r).
Proof.
  intros (k & r0 & q & Hq & ->)%run_microtask_cons H.
  apply settle_stable. by rewrite heap_resume.
Qed.

Lemma heap_drain_stable n s p r :
  heap s !! p = Some (Some r) → heap (drain n s) !! p = Some (Some r).
Proof.
  revert s. induction n as [|n IH]; intros s H; simpl; [done|].
  destruct (run_microtask s) as [s'|] eqn:E; [|done].
  eauto using heap_run_microtask_stable.
Qed.

Lemma get_table_run_microtask_incl s s' t key d :
  run_microtask s = Some s' →
  get_table t s' !! key = Some d → get_table t s !! key = Some d.
Proof.
  intros (k & r0 & q & Hq & ->)%run_microtask_cons.
  rewrite get_table_settle. intros H%get_table_resume_incl.
  by rewrite get_table_set_runtime in H.
Qed.

Lemma get_table_drain_incl n s t key d :
  get_table t (drain n s) !! key = Some d → get_table t s !! key = Some d.
Proof.
  revert s. induction n as [|n IH]; intros s; simpl; [done|].
  destruct (run_microtask s) as [s'|] eqn:E; [|done].
  eauto using get_table_run_microtask_incl.
Qed.

(** A queued continuation gets to settle its promise. *)
Lemma drain_job n s k r :
  wf_core s → (k, r) ∈ microtasks s →
  length (microtasks s) + length (waiting s) ≤ n →
  heap (drain n s) !! target k = Some (Some (job_outcome k r)).
Proof.
  revert s. induction n as [|n IH]; intros s W Hj Hn.
  { destruct (microtasks s); [set_solver|simpl in Hn; lia]. }
  simpl. destruct (run_microtask s) as [s'|] eqn:E.
  2:{ unfold run_microtask in E. destruct (microtasks s); [set_solver|done]. }
  pose proof (wf_core_run_microtask s s' W E) as W'.
  pose proof (run_microtask_measure s s' E) as Hm.
  apply run_microtask_cons in E as (k0 & r0 & q & Hq & ->).
  rewrite Hq in Hj. apply elem_of_cons in Hj as [[= <- <-]|Hj].
  - apply heap_drain_stable. rewrite heap_settle, decide_True by done.
    rewrite heap_resume. simpl.
    rewrite (wf_targets_pending s W k); [done|].
    unfold live. rewrite Hq. simpl. rewrite elem_of_app. right. by left.
  - apply IH; [done| |lia].
    apply microtasks_settle_incl. by rewrite microtasks_resume.
Qed.

Lemma run_microtasks_job s k r :
  wf_core s → (k, r) ∈ microtasks s →
  heap (run_microtasks s) !! target k = Some (Some (job_outcome k r)).
Proof. intros. by apply drain_job. Qed.

Lemma warnings_settle_incl p o s x : x ∈ warnings s → x ∈ warnings (settle p o s).
Proof. by rewrite warnings_settle. Qed.

Lemma warnings_resume_incl k r s x : x ∈ warnings s → x ∈ warnings (resume k r s).2.
Proof.
  destruct k, r; simpl; rewrite ?warnings_set_table; simpl;
    try done; try (by destruct (nullish value)).
  rewrite elem_of_app. auto.
Qed.

Lemma warnings_drain_incl n s x : x ∈ warnings s → x ∈ warnings (drain n s).
Proof.
  revert s. induction n as [|n IH]; intros s H; simpl; [done|].
  destruct (run_microtask s) as [s'|] eqn:E; [|done].
  apply IH. apply run_microtask_cons in E as (k0 & r0 & q & Hq & ->).
  by apply warnings_settle_incl, warnings_resume_incl.
Qed.

(** A send that is resumed with a failure logs it. *)
Lemma drain_job_warns n s t c v o e :
  (K_cachedSendCommand t c v o, Rejected e) ∈ microtasks s →
  length (microtasks s) + length (waiting s) ≤ n →
  (c +:+ ": Error getting result.", e) ∈ warnings (drain n s).
Proof.
  revert s. induction n as [|n IH]; intros s Hj Hn.
  { destruct (microtasks s); [set_solver|simpl in Hn; lia]. }
  simpl. destruct (run_microtask s) as [s'|] eqn:E.
  2:{ unfold run_microtask in E. destruct (microtasks s); [set_solver|done]. }
  pose proof (run_microtask_measure s s' E) as Hm.
  apply run_microtask_cons in E as (k0 & r0 & q & Hq & ->).
  rewrite Hq in Hj. apply elem_of_cons in Hj as [[= <- <-]|Hj].
  - apply warnings_drain_incl, warnings_settle_incl. simpl.
    rewrite warnings_set_table. simpl. rewrite elem_of_app, list_elem_of_singleton.
    auto.
  - apply IH; [|lia].
    apply microtasks_settle_incl. by rewrite microtasks_resume.
Qed.

(** ** Deliveries *)

Lemma deliver_unfold t key result error s :
  deliver t key result error s =
  match get_table t s !! key with
  | None => Normal s
  | Some d => Normal (settle d (settlement result error) s)
  end.
Proof.
  unfold deliver, _handleResponseForPendingRequest, settlement,
    Deferred_resolve, Deferred_reject.
  cbn [get_prop assoc String.eqb Ascii.eqb Bool.eqb].
  destruct (get_table t s !! key); [|done]. by destruct (nullish error).
Qed.

Lemma deliver_inert t key result error s :
  (∀ d, get_table t s !! key = Some d → heap s !! d ≠ Some None) →
  deliver t key result error s = Normal s.
Proof.
  intros H. rewrite deliver_unfold.
  destruct (get_table t s !! key) as [d|] eqn:E; [|done].
  specialize (H d eq_refl). f_equal. unfold settle.
  by destruct (heap s !! d) as [[r|]|].
Qed.

(** ** What every step keeps *)

Lemma extends_refl s : extends s s.
Proof. split_and!; eauto. Qed.

Lemma extends_trans s1 s2 s3 : extends s1 s2 → extends s2 s3 → extends s1 s3.
Proof.
  intros (H1 & W1 & L1) (H2 & W2 & L2). split_and!.
  - intros p x (y & Hy & E)%H1. apply H2 in Hy as (z & Hz & E').
    exists z. split; [done|]. destruct E as [ -> | -> ]; auto.
  - intros e [H|(r & Hr)]%W1; [by apply W2|].
    right. apply H2 in Hr as (z & Hz & [ <- | ? ]); [eauto|done].
  - auto.
Qed.

Lemma extends_same s s' :
  heap s' = heap s → waiting s' = waiting s → warnings s' = warnings s →
  extends s s'.
Proof. intros Hh Hw Hl. unfold extends. rewrite Hh, Hw, Hl. apply extends_refl. Qed.

Lemma extends_new_promise s : extends s (new_promise s).2.
Proof.
  split_and!; simpl; eauto.
  intros p x H. exists x. split; [|auto]. by apply lookup_app_l_Some.
Qed.

Lemma extends_settle p o s : extends s (settle p o s).
Proof.
  split_and!.
  - intros q x H. rewrite heap_settle. case_decide as E; [subst q|eauto].
    rewrite H. destruct x; eauto.
  - intros [q k] H. unfold settle.
    destruct (heap s !! p) as [[r|]|] eqn:E; auto.
    destruct (decide (q = p)) as [->|Hn].
    + right. exists o. simpl. apply list_lookup_insert_eq.
      by eapply lookup_lt_Some.
    + left. simpl. by apply list_elem_of_filter.
  - by rewrite warnings_settle.
Qed.

Lemma extends_then p k s : extends s (then_ p k s).
Proof.
  split_and!.
  - rewrite heap_then. eauto.
  - intros e H. left. by apply waiting_then_incl.
  - by rewrite warnings_then.
Qed.

Lemma extends_set_table t m s : extends s (set_table t m s).
Proof.
  apply extends_same; [apply heap_set_table|apply waiting_set_table
                      |apply warnings_set_table].
Qed.

Lemma extends_send w msg s : extends s (send w msg s).
Proof. by apply extends_same. Qed.

Lemma extends_set_webview w s : extends s (set_webview w s).
Proof. by apply extends_same. Qed.

Lemma extends_send_if_attached msg s : extends s (send_if_attached msg s).
Proof.
  unfold send_if_attached. destruct (_webview s);
    [apply extends_send|apply extends_refl].
Qed.

Lemma extends_resume k r s : extends s (resume k r s).2.
Proof.
  split_and!.
  - rewrite heap_resume. eauto.
  - rewrite waiting_resume. eauto.
  - apply warnings_resume_incl.
Qed.

Lemma extends_run_microtask s s' : run_microtask s = Some s' → extends s s'.
Proof.
  intros (k & r & q & Hq & ->)%run_microtask_cons.
  eapply extends_trans; [|apply extends_settle].
  eapply extends_trans; [|apply extends_resume].
  by apply extends_same.
Qed.

Lemma extends_drain n s : extends s (drain n s).
Proof.
  revert s. induction n as [|n IH]; intros s; simpl; [apply extends_refl|].
  destruct (run_microtask s) as [s'|] eqn:E; [|apply extends_refl].
  eapply extends_trans; [by apply extends_run_microtask|apply IH].
Qed.

Lemma extends_step_result out r s : extends s (step_result out r s).
Proof. destruct r; simpl; auto using extends_settle, extends_then. Qed.

Lemma extends_cachedSendCommand t c args s :
  extends s (_cachedSendCommand t c args s).2.
Proof.
  unfold _cachedSendCommand, _asyncToGenerator.
  destruct (new_promise s) as [out s1] eqn:E1.
  assert (extends s s1) as H1.
  { replace s1 with (new_promise s).2 by (by rewrite E1). apply extends_new_promise. }
  destruct (_cachedSendCommand_body t c args s1) as [r s2] eqn:E2. simpl.
  eapply extends_trans; [|apply extends_step_result].
  eapply extends_trans; [done|].
  unfold _cachedSendCommand_body in E2.
  repeat case_match; simplify_eq; try apply extends_refl.
  unfold Deferred_new in *.
  eapply extends_trans; [apply extends_new_promise|].
  match goal with H : new_promise _ = _ |- _ => rewrite H end. simpl.
  eapply extends_trans; [apply extends_set_table|apply extends_send].
Qed.

Lemma extends_evaluate (k : ref → cont) t c args s :
  extends s (_asyncToGenerator (λ s,
        let '(p, s) := _cachedSendCommand t c args s in (Yield p k, s)) s).2.
Proof.
  unfold _asyncToGenerator. cbn [new_promise].
  pose proof (extends_cachedSendCommand t c args (new_promise s).2) as H.
  simpl in H. destruct (_cachedSendCommand t c args _) as [p s2]. simpl in *.
  eapply extends_trans; [|apply extends_then].
  eapply extends_trans; [apply extends_new_promise|done].
Qed.

Lemma extends_handleResponseForPendingRequest pending response key s s' :
  _handleResponseForPendingRequest pending response key s = Normal s' →
  extends s s'.
Proof.
  unfold _handleResponseForPendingRequest, Deferred_resolve, Deferred_reject.
  intros H. repeat case_match; simplify_eq;
    auto using extends_refl, extends_settle.
Qed.

(** ** Promises that only some continuations may settle *)

Lemma keeps_refl P p s : keeps P p s s.
Proof. intros G. split; [done|by left]. Qed.

Lemma keeps_trans P p s1 s2 s3 :
  keeps P p s1 s2 → keeps P p s2 s3 → keeps P p s1 s3.
Proof.
  intros H1 H2 G1. destruct (H1 G1) as [G2 E1]. destruct (H2 G2) as [G3 E2].
  split; [done|].
  destruct E1 as [->|(-> & k & r & Hk & E1)]; [done|].
  destruct E2 as [<-|(E2 & _)]; [|congruence].
  right. eauto.
Qed.

Lemma keeps_same P p s s' :
  heap s' = heap s → waiting s' = waiting s → microtasks s' = microtasks s →
  (∀ t, get_table t s' = get_table t s) →
  keeps P p s s'.
Proof.
  intros Hh Hw Hq Ht. unfold keeps, guarded, live.
  rewrite Hh, Hw, Hq. setoid_rewrite Ht. split; [done|by left].
Qed.

Lemma keeps_set_webview P p w s : keeps P p s (set_webview w s).
Proof. by apply keeps_same. Qed.

Lemma keeps_send P p w msg s : keeps P p s (send w msg s).
Proof. by apply keeps_same. Qed.

Lemma keeps_send_if_attached P p msg s : keeps P p s (send_if_attached msg s).
Proof.
  unfold send_if_attached. destruct (_webview s);
    [apply keeps_send|apply keeps_refl].
Qed.

Lemma keeps_new_promise P p s : keeps P p s (new_promise s).2.
Proof.
  intros (Hp & Ht & Hl). split; [split_and!|left]; simpl.
  - rewrite length_app. lia.
  - intros t key. rewrite get_table_set_runtime. apply Ht.
  - done.
  - by rewrite lookup_app_l.
Qed.

Lemma keeps_settle_other P p q o s : q ≠ p → keeps P p s (settle q o s).
Proof.
  intros Hne (Hp & Ht & Hl). split; [split_and!|left].
  - by rewrite length_heap_settle.
  - intros t key. rewrite get_table_settle. apply Ht.
  - intros k. rewrite live_settle. apply Hl.
  - by rewrite heap_settle, decide_False.
Qed.

Lemma keeps_then P p q k s : target k ≠ p → keeps P p s (then_ q k s).
Proof.
  intros Hne (Hp & Ht & Hl). split; [split_and!|left].
  - by rewrite heap_then.
  - intros t key. rewrite get_table_then. apply Ht.
  - intros k' [->|H]%live_then; [done|by apply Hl].
  - by rewrite heap_then.
Qed.

Lemma keeps_set_table P p t m s :
  (∀ key, m !! key = Some p → get_table t s !! key = Some p) →
  keeps P p s (set_table t m s).
Proof.
  intros Hm (Hp & Ht & Hl). split; [split_and!|left].
  - by rewrite heap_set_table.
  - intros t' key. rewrite get_set_table_lookup. case_decide; subst; [|done].
    intros H%Hm. by destruct (Ht t' key).
  - by rewrite live_set_table.
  - by rewrite heap_set_table.
Qed.

Lemma keeps_resume P p k r s : keeps P p s (resume k r s).2.
Proof.
  intros (Hp & Ht & Hl). split; [split_and!|left].
  - by rewrite heap_resume.
  - intros t key H%get_table_resume_incl. by destruct (Ht t key).
  - unfold live. by rewrite waiting_resume, microtasks_resume.
  - by rewrite heap_resume.
Qed.

Lemma live_head k r q s k' :
  microtasks s = (k, r) :: q →
  k' ∈ live s ↔ k' = k ∨ k' ∈ live (set_runtime (heap s) (waiting s) q s).
Proof.
  intros Hq. unfold live. rewrite Hq. simpl.
  rewrite !elem_of_app, elem_of_cons. tauto.
Qed.

Lemma keeps_run_microtask P p s s' :
  run_microtask s = Some s' → keeps P p s s'.
Proof.
  intros (k & r & q & Hq & ->)%run_microtask_cons G.
  pose proof G as (Hp & Ht & Hl).
  set (s0 := set_runtime (heap s) (waiting s) q s).
  assert (guarded P p (resume k r s0).2) as G1.
  { apply keeps_resume. split_and!; try done.
    intros k' Hk'. apply Hl. rewrite (live_head k r q) by done. by right. }
  destruct (decide (target k = p)) as [E|Hne].
  - split.
    + destruct G1 as (G1 & G2 & G3). split_and!.
      * by rewrite length_heap_settle.
      * intros t key. rewrite get_table_settle. apply G2.
      * intros k'. rewrite live_settle. apply G3.
    + rewrite heap_settle, decide_True, heap_resume by done. simpl. subst p.
      destruct (heap s !! target k) as [[x|]|] eqn:Ex; [by left| |by left].
      right. split; [done|]. exists k, r. split; [|done].
      apply Hl; [|done]. rewrite (live_head k r q) by done. by left.
  - destruct (keeps_settle_other P p (target k) (job_outcome k r) _ Hne G1)
      as [G2 E2].
    split; [done|]. rewrite heap_resume in E2. done.
Qed.

Lemma keeps_drain P p n s : keeps P p s (drain n s).
Proof.
  revert s. induction n as [|n IH]; intros s; simpl; [apply keeps_refl|].
  destruct (run_microtask s) as [s'|] eqn:E; [|apply keeps_refl].
  eapply keeps_trans; [by apply keeps_run_microtask|apply IH].
Qed.

Lemma keeps_cachedSendCommand P p t c args s :
  keeps P p s (_cachedSendCommand t c args s).2.
Proof.
  intros G. pose proof G as (Hp & Ht & _). revert G.
  unfold _cachedSendCommand, _asyncToGenerator. cbn [new_promise].
  set (s1 := set_runtime (heap s ++ [None]) (waiting s) (microtasks s) s).
  assert (keeps P p s s1) as K1 by apply keeps_new_promise.
  assert (length (heap s) ≠ p) as Hout by lia.
  unfold _cachedSendCommand_body.
  destruct (_webview s1) as [w|];
    [|cbn [step_result snd]; eapply keeps_trans; [done|];
      by apply keeps_settle_other].
  destruct (hd JUndefined args) as [| | |v| |];
    try (cbn [step_result snd]; eapply keeps_trans; [done|];
         by apply keeps_settle_other).
  destruct (get_table t s1 !! v) as [d|].
  - cbn [step_result snd]. eapply keeps_trans; [done|]. by apply keeps_then.
  - unfold Deferred_new. cbn [new_promise step_result snd].
    eapply keeps_trans; [done|].
    eapply keeps_trans; [apply keeps_new_promise|]. cbn [snd].
    eapply keeps_trans; [|by apply keeps_then].
    eapply keeps_trans; [|apply keeps_send].
    apply keeps_set_table. intros key. rewrite lookup_insert.
    case_decide; [|done]. intros [= E]. simpl in E. rewrite length_snoc in E. lia.
Qed.

Lemma keeps_evaluate P p (k : ref → cont) t c args s :
  (∀ out, target (k out) = out) →
  keeps P p s (_asyncToGenerator (λ s,
        let '(p, s) := _cachedSendCommand t c args s in (Yield p k, s)) s).2.
Proof.
  intros Hk G. pose proof G as (Hp & _). revert G.
  unfold _asyncToGenerator. cbn [new_promise].
  pose proof (keeps_cachedSendCommand P p t c args (new_promise s).2) as H.
  simpl in H. destruct (_cachedSendCommand t c args _) as [q s2]. simpl in *.
  eapply keeps_trans; [|apply keeps_then; rewrite Hk; lia].
  eapply keeps_trans; [apply keeps_new_promise|done].
Qed.

Lemma keeps_handleResponseForPendingRequest P p pending response key s s' :
  _handleResponseForPendingRequest pending response key s = Normal s' →
  keeps P p s s'.
Proof.
  unfold _handleResponseForPendingRequest, Deferred_resolve, Deferred_reject.
  intros H G. pose proof G as (_ & Ht & _). revert G.
  repeat case_match; simplify_eq; try apply keeps_refl;
    apply keeps_settle_other; intros ->; by eapply Ht.
Qed.

Lemma keeps_handleDebuggerPaused P p s : keeps P p s (_handleDebuggerPaused s).
Proof. apply keeps_set_table. intros key. by rewrite lookup_empty. Qed.

Lemma NoDup_fmap_eq {A B} (f : A → B) (l : list A) x y :
  NoDup (f <$> l) → x ∈ l → y ∈ l → f x = f y → x = y.
Proof.
  induction l as [|a l IH]; [set_solver|].
  rewrite fmap_cons, NoDup_cons, !elem_of_cons.
  intros [Hn Hd] [->|Hx] [->|Hy] E; auto.
  - destruct Hn. rewrite E. by apply list_elem_of_fmap_2.
  - destruct Hn. rewrite <-E. by apply list_elem_of_fmap_2.
Qed.

Lemma live_waiting s p k : (p, k) ∈ waiting s → k ∈ live s.
Proof.
  intros H. unfold live. rewrite elem_of_app. left.
  by apply (list_elem_of_fmap_2 snd) in H.
Qed.

Lemma live_microtasks s k r : (k, r) ∈ microtasks s → k ∈ live s.
Proof.
  intros H. unfold live. rewrite elem_of_app. right.
  by apply (list_elem_of_fmap_2 fst) in H.
Qed.

(** The promise that a waiting send returned is for that send to settle. *)
Lemma guarded_waiting_send s d t c v p :
  wf_core s → (d, K_cachedSendCommand t c v p) ∈ waiting s →
  guarded is_cached p s ∧ heap s !! p = Some None.
Proof.
  intros W H. pose proof (live_waiting _ _ _ H) as Hl.
  pose proof (wf_targets_pending s W _ Hl) as Hp. simpl in Hp.
  split; [split_and!|done].
  - by eapply lookup_lt_Some.
  - intros t' key Ht. by eapply (wf_core_entry_not_target s t' key p _ W Ht Hl).
  - intros k Hk E.
    assert (k = K_cachedSendCommand t c v p) as ->; [|done].
    eapply (NoDup_fmap_eq target); eauto using wf_targets_nodup.
Qed.

Lemma job_outcome_cached k r :
  is_cached k → ∃ v, job_outcome k r = Fulfilled v.
Proof. destruct k, r; simpl; try done; eauto. Qed.

Lemma job_outcome_send t c v p result error :
  job_outcome (K_cachedSendCommand t c v p) (settlement result error) =
  Fulfilled (if nullish error then result else JNull).
Proof. unfold settlement. by destruct (nullish error). Qed.

(** A waiter that is in no table and is no promise of an async method. *)
Lemma guarded_dropped s t key d :
  wf_core s → get_table t s !! key = Some d →
  guarded (λ _, False) d (set_table t ∅ s) ∧ heap s !! d = Some None
  ∨ ∃ r, heap s !! d = Some (Some r).
Proof.
  intros W Ht.
  destruct (wf_entry_live s W t key d Ht) as [[Hd _]|(r & Hd & _)]; [left|eauto].
  split; [split_and!|done].
  - rewrite heap_set_table. by eapply lookup_lt_Some.
  - intros t' key'. rewrite get_set_table_lookup. case_decide; [done|].
    intros H'. by destruct (wf_table_inj s W _ _ _ _ _ Ht H') as [-> _].
  - intros k. rewrite live_set_table. intros Hk E.
    by eapply (wf_core_entry_not_target s t key d k).
Qed.

(** A queued continuation settles its promise, and the continuation that
    waits for that promise then settles its own. *)
Lemma drain_job_then n s k1 r1 k2 :
  wf_core s → (k1, r1) ∈ microtasks s → (target k1, k2) ∈ waiting s →
  length (microtasks s) + length (waiting s) ≤ n →
  heap (drain n s) !! target k2
    = Some (Some (job_outcome k2 (job_outcome k1 r1))).
Proof.
  revert s. induction n as [|n IH]; intros s W Hj Hw Hn.
  { destruct (microtasks s); [set_solver|simpl in Hn; lia]. }
  simpl. destruct (run_microtask s) as [s'|] eqn:E.
  2:{ unfold run_microtask in E. destruct (microtasks s); [set_solver|done]. }
  pose proof (wf_core_run_microtask s s' W E) as W'.
  pose proof (run_microtask_measure s s' E) as Hm.
  apply run_microtask_cons in E as (k0 & r0 & q & Hq & ->).
  set (s0 := (resume k0 r0 (set_runtime (heap s) (waiting s) q s)).2) in *.
  assert (heap s0 = heap s) as Hh0 by (unfold s0; by rewrite heap_resume).
  assert (waiting s0 = waiting s) as Hw0 by (unfold s0; by rewrite waiting_resume).
  assert (microtasks s0 = q) as Hq0 by (unfold s0; by rewrite microtasks_resume).
  rewrite Hq in Hj. apply elem_of_cons in Hj as [[= <- <-]|Hj].
  - apply drain_job; [done| |lia].
    apply microtasks_settle_moved; [|by rewrite Hw0].
    rewrite Hh0. apply (wf_targets_pending s W).
    rewrite (live_head k1 r1 q) by done. by left.
  - apply IH; [done| | |lia].
    + apply microtasks_settle_incl. by rewrite Hq0.
    + apply waiting_settle_other; [by rewrite Hw0|].
      destruct (wf_core_pop k0 r0 q s s0 W Hq Hh0 Hw0 Hq0) as [_ Hne].
      * intros t key d H%get_table_resume_incl.
        by rewrite get_table_set_runtime in H.
      * intros t c v o ->. unfold s0.
        rewrite get_table_resume, decide_True by done. apply lookup_delete_eq.
      * apply Hne. eapply live_microtasks. by rewrite Hq0.
Qed.

Lemma run_microtasks_job_then s k1 r1 k2 :
  wf_core s → (k1, r1) ∈ microtasks s → (target k1, k2) ∈ waiting s →
  heap (run_microtasks s) !! target k2
    = Some (Some (job_outcome k2 (job_outcome k1 r1))).
Proof. intros. by apply drain_job_then. Qed.

Lemma wf_new_promise s : wf s → wf (new_promise s).2.
Proof. intros [W N]. split; [by apply wf_core_new_promise|done]. Qed.

(** What an evaluation method leaves behind when the webview is attached:
    its send waits for the waiter of the key, and it waits for the send. *)
Lemma evaluate_connected (k : ref → cont) t c v rest w s :
  wf s → _webview s = Some w →
  let r := _asyncToGenerator (λ s,
             let '(p, s) := _cachedSendCommand t c (JStr v :: rest) s in
             (Yield p k, s)) s in
  r.1 = length (heap s) ∧
  ∃ d, get_table t r.2 !! v = Some d ∧
       (d, K_cachedSendCommand t c v (S (length (heap s)))) ∈ waiting r.2 ∧
       (S (length (heap s)), k (length (heap s))) ∈ waiting r.2.
Proof.
  intros W Hw. unfold _asyncToGenerator. cbn [new_promise].
  set (s1 := set_runtime (heap s ++ [None]) (waiting s) (microtasks s) s).
  assert (wf s1) as W1 by apply (wf_new_promise s W).
  assert (length (heap s1) = S (length (heap s))) as Hlen
    by (unfold s1; simpl; apply length_snoc).
  destruct (get_table t s1 !! v) as [d|] eqn:Ht.
  - destruct (wf_entry_pending s1 t v d W1 Ht) as [Hd _].
    rewrite (cachedSendCommand_reuse_pending t c (JStr v :: rest) w v d s1
               Hw eq_refl Ht Hd).
    cbn [step_result fst snd]. split; [done|]. exists d.
    rewrite then_pending
      by (simpl; rewrite lookup_app_r by done; by rewrite Nat.sub_diag).
    rewrite get_table_set_runtime, Hlen. simpl.
    split_and!; [done| |]; rewrite !elem_of_app, !list_elem_of_singleton; auto.
  - rewrite (cachedSendCommand_new t c (JStr v :: rest) w v s1 Hw eq_refl Ht).
    cbn [step_result fst snd]. split; [done|]. exists (S (length (heap s1))).
    rewrite then_pending.
    2:{ simpl. rewrite heap_set_table. simpl.
        rewrite lookup_app_r by done. by rewrite Nat.sub_diag. }
    rewrite !get_table_set_runtime, get_table_send, get_set_table, Hlen. simpl.
    rewrite waiting_set_table. simpl.
    split_and!; [apply lookup_insert_eq| |];
      rewrite !elem_of_app, !list_elem_of_singleton; auto.
Qed.

Lemma evaluate_disconnected (k : ref → cont) t c args s :
  wf s → _webview s = None →
  let r := _asyncToGenerator (λ s,
             let '(p, s) := _cachedSendCommand t c args s in
             (Yield p k, s)) s in
  r.1 = length (heap s) ∧
  (k (length (heap s)), Fulfilled JNull) ∈ microtasks r.2.
Proof.
  intros W Hw. unfold _asyncToGenerator. cbn [new_promise].
  set (s1 := set_runtime (heap s ++ [None]) (waiting s) (microtasks s) s).
  assert (wf s1) as [W1 _] by apply (wf_new_promise s W).
  rewrite (cachedSendCommand_disconnected t c args s1 W1 Hw).
  cbn [step_result fst snd]. split; [done|].
  erewrite then_settled
    by (simpl; rewrite lookup_app_r by done; by rewrite Nat.sub_diag).
  simpl. rewrite elem_of_app, list_elem_of_singleton. auto.
Qed.

(** ** Completing a delivery touches one key only *)

Lemma jobs_for_settle_entry t key d o s :
  wf s → get_table t s !! key = Some d → jobs_for t key (settle d o s).
Proof.
  intros [W N] Ht t' c v p r [Hj|[_ Hw]]%microtasks_settle.
  - by destruct (N _ _ Hj).
  - by destruct (wf_own_key s W _ _ _ _ _ _ _ Hw Ht) as [-> ->].
Qed.

Lemma jobs_for_no_cached_job t key s : no_cached_job s → jobs_for t key s.
Proof. intros N t' c v p r Hj. by destruct (N _ _ Hj). Qed.

Lemma jobs_for_run_microtask t key s s' :
  wf_core s → jobs_for t key s → run_microtask s = Some s' → jobs_for t key s'.
Proof.
  intros W J (k & r & q & Hq & ->)%run_microtask_cons.
  intros t' c v p r' [Hj|[_ Hw]]%microtasks_settle.
  - rewrite microtasks_resume in Hj. simpl in Hj.
    eapply J. rewrite Hq. by right.
  - rewrite waiting_resume in Hw. simpl in Hw.
    destruct (wf_deferred_not_target s W _ _ _ _ _ k Hw); [|done].
    rewrite (live_head k r q) by done. by left.
Qed.

Lemma get_table_run_microtask_other t key s s' t' key' :
  jobs_for t key s → run_microtask s = Some s' →
  t' ≠ t ∨ key' ≠ key →
  get_table t' s' !! key' = get_table t' s !! key'.
Proof.
  intros J (k & r & q & Hq & ->)%run_microtask_cons Hne.
  rewrite get_table_settle, get_table_resume, get_table_set_runtime.
  destruct k as [t0 c v0 o| |]; try done.
  destruct (J t0 c v0 o r) as [-> ->]; [rewrite Hq; by left|].
  case_decide; [subst t'|done].
  destruct Hne as [?|?]; [done|]. by rewrite lookup_delete_ne.
Qed.

Lemma get_table_drain_other n t key s t' key' :
  wf_core s → jobs_for t key s → t' ≠ t ∨ key' ≠ key →
  get_table t' (drain n s) !! key' = get_table t' s !! key'.
Proof.
  revert s. induction n as [|n IH]; intros s W J Hne; simpl; [done|].
  destruct (run_microtask s) as [s'|] eqn:E; [|done].
  rewrite IH; eauto using wf_core_run_microtask, jobs_for_run_microtask,
    get_table_run_microtask_other.
Qed.

Lemma same_waiter_settle d p o s : p ≠ d → same_waiter d s (settle p o s).
Proof.
  intros Hne. split; [by rewrite heap_settle, decide_False|].
  unfold settle. destruct (heap s !! p) as [[r|]|]; try done. simpl.
  rewrite list_filter_filter. apply list_filter_iff. intros [q k]. simpl.
  split; [tauto|]. intros ->. split; [done|]. by intros ->.
Qed.

Lemma same_waiter_run_microtask d t key s s' :
  wf_core s → get_table t s !! key = Some d →
  run_microtask s = Some s' → same_waiter d s s'.
Proof.
  intros W Ht (k & r & q & Hq & ->)%run_microtask_cons.
  destruct (same_waiter_settle d (target k) (job_outcome k r)
              (resume k r (set_runtime (heap s) (waiting s) q s)).2) as [H1 H2].
  - eapply wf_core_entry_not_target; [done..|].
    rewrite (live_head k r q) by done. by left.
  - split; [by rewrite H1, heap_resume|by rewrite H2, waiting_resume].
Qed.

Lemma same_waiter_drain n d t t' key s :
  wf_core s → jobs_for t' key s → t ≠ t' →
  get_table t s !! key = Some d → same_waiter d s (drain n s).
Proof.
  revert s. induction n as [|n IH]; intros s W J Hne Ht; simpl; [done|].
  destruct (run_microtask s) as [s'|] eqn:E; [|done].
  destruct (same_waiter_run_microtask d t key s s' W Ht E) as [H1 H2].
  destruct (IH s') as [H3 H4];
    eauto using wf_core_run_microtask, jobs_for_run_microtask.
  - by rewrite (get_table_run_microtask_other t' key s s') by auto.
  - split; congruence.
Qed.

(** ** Sends and deliveries alone: every waiting send waits for the entry
    of its key *)

Lemma registered_same s s' :
  waiting s' = waiting s → (∀ t, get_table t s' = get_table t s) →
  registered s → registered s'.
Proof. intros Hw Ht H d t c v o. rewrite Hw, Ht. apply H. Qed.

Lemma registered_cachedSendCommand t c args s :
  wf s → registered s → registered (_cachedSendCommand t c args s).2.
Proof.
  intros W O. pose proof W as [Wc _].
  destruct (_webview s) as [w|] eqn:Hw.
  2:{ rewrite cachedSendCommand_disconnected by done.
      eapply registered_same; [..|done]; [done|]. intros t'; by destruct t'. }
  destruct (hd JUndefined args) as [| | |v| |] eqn:Hv;
    try (erewrite cachedSendCommand_not_string by (try done; by rewrite Hv);
         eapply registered_same; [..|done]; [done|]; intros t'; by destruct t').
  destruct (get_table t s !! v) as [d|] eqn:Ht.
  - destruct (wf_entry_pending s t v d W Ht) as [Hd _].
    erewrite cachedSendCommand_reuse_pending by done. cbn [snd].
    intros d' t' c' v' o'. rewrite get_table_set_runtime. simpl.
    rewrite elem_of_app, list_elem_of_singleton.
    intros [H|[= -> -> _ -> _]]; [by apply (O _ _ _ _ _ H)|done].
  - erewrite cachedSendCommand_new by done. cbn [snd].
    intros d' t' c' v' o'. rewrite get_table_send, get_set_table_lookup. simpl.
    rewrite waiting_set_table. simpl.
    rewrite elem_of_app, list_elem_of_singleton.
    intros [H|[= -> -> _ -> _]].
    + apply O in H. case_decide; [subst t'|by rewrite get_table_set_runtime].
      rewrite lookup_insert_ne; [done|]. intros ->. congruence.
    + rewrite decide_True by done. apply lookup_insert_eq.
Qed.

Lemma registered_settle p o s : registered s → registered (settle p o s).
Proof.
  intros O d t c v o' [H _]%waiting_settle. rewrite get_table_settle.
  by apply (O _ _ _ _ _ H).
Qed.

Lemma registered_run_microtask t key s s' :
  wf_core s → jobs_for t key s → entry_settled t key s → registered s →
  run_microtask s = Some s' →
  entry_settled t key s' ∧ registered s'.
Proof.
  intros W J S O E. split.
  - intros d Hd%(get_table_run_microtask_incl s s' _ _ _ E).
    destruct (S d Hd) as [r Hr]. exists r.
    by eapply heap_run_microtask_stable.
  - intros d t' c v o Hw.
    assert ((d, K_cachedSendCommand t' c v o) ∈ waiting s) as Hw0.
    { apply run_microtask_cons in E as (k & r & q & Hq & ->).
      apply waiting_settle in Hw as [Hw _]. by rewrite waiting_resume in Hw. }
    pose proof (O _ _ _ _ _ Hw0) as Ht.
    rewrite (get_table_run_microtask_other t key s s'); [done..|].
    destruct (decide (t' = t)) as [->|]; [|auto].
    destruct (decide (v = key)) as [->|]; [|auto].
    destruct (S d Ht) as [r Hr].
    pose proof (wf_waiting_pending s W _ _ Hw0). congruence.
Qed.

Lemma registered_drain n t key s :
  wf_core s → jobs_for t key s → entry_settled t key s → registered s →
  registered (drain n s).
Proof.
  revert s. induction n as [|n IH]; intros s W J S O; simpl; [done|].
  destruct (run_microtask s) as [s'|] eqn:E; [|done].
  destruct (registered_run_microtask t key s s' W J S O E).
  apply IH; eauto using wf_core_run_microtask, jobs_for_run_microtask.
Qed.

Section Steps.

Variable normalizeRemoteObjectValue : jsval → jsval.

Lemma handleExpressionEvaluationResponse_inv response s s' :
  _handleExpressionEvaluationResponse normalizeRemoteObjectValue response s
    = Normal s' →
  ∃ response' key,
    _handleResponseForPendingRequest ExpressionsInFlight response' key s
      = Normal s'.
Proof.
  unfold _handleExpressionEvaluationResponse. intros H.
  repeat case_match; simplify_eq. eauto.
Qed.

Lemma handleGetPropertiesResponse_inv response s s' :
  _handleGetPropertiesResponse response s = Normal s' →
  ∃ key,
    _handleResponseForPendingRequest GetPropertiesRequestsInFlight response key s
      = Normal s'.
Proof.
  unfold _handleGetPropertiesResponse. intros H.
  repeat case_match; simplify_eq. eauto.
Qed.

Lemma extends_handleIpcMessage m e s s' :
  _handleIpcMessage normalizeRemoteObjectValue m e s = Normal s' →
  extends s s'.
Proof.
  destruct (handleIpcMessage_cases normalizeRemoteObjectValue m e s)
    as [->|[->|[->|[->|[->| ->]]]]].
  - intros [= <-]. unfold _syncDebuggerState, _sendAllBreakpoints,
      _updateDebuggerSettings, setSingleThreadStepping,
      setPauseOnCaughtException, setPauseOnException.
    repeat (eapply extends_trans; [|apply extends_send_if_attached]).
    apply extends_refl.
  - intros [= <-]. apply extends_set_table.
  - intros (r & k & H)%handleExpressionEvaluationResponse_inv.
    by eapply extends_handleResponseForPendingRequest.
  - intros (k & H)%handleGetPropertiesResponse_inv.
    by eapply extends_handleResponseForPendingRequest.
  - intros [= <-]. apply extends_refl.
  - done.
Qed.

Lemma keeps_handleIpcMessage P p m e s s' :
  _handleIpcMessage normalizeRemoteObjectValue m e s = Normal s' →
  keeps P p s s'.
Proof.
  destruct (handleIpcMessage_cases normalizeRemoteObjectValue m e s)
    as [->|[->|[->|[->|[->| ->]]]]].
  - intros [= <-]. unfold _syncDebuggerState, _sendAllBreakpoints,
      _updateDebuggerSettings, setSingleThreadStepping,
      setPauseOnCaughtException, setPauseOnException.
    repeat (eapply keeps_trans; [|apply keeps_send_if_attached]).
    apply keeps_refl.
  - intros [= <-]. apply keeps_handleDebuggerPaused.
  - intros (r & k & H)%handleExpressionEvaluationResponse_inv.
    by eapply keeps_handleResponseForPendingRequest.
  - intros (k & H)%handleGetPropertiesResponse_inv.
    by eapply keeps_handleResponseForPendingRequest.
  - intros [= <-]. apply keeps_refl.
  - done.
Qed.

Lemma extends_step s s' : step normalizeRemoteObjectValue s s' → extends s s'.
Proof.
  intros H. destruct H.
  - apply extends_set_webview.
  - apply extends_set_webview.
  - apply extends_set_webview.
  - apply extends_send_if_attached.
  - apply extends_cachedSendCommand.
  - apply extends_cachedSendCommand.
  - apply extends_evaluate.
  - unfold evaluateConsoleExpression. case_match; apply extends_evaluate.
  - by apply extends_run_microtask.
  - eapply extends_trans; [by eapply extends_handleIpcMessage|apply extends_drain].
  - eapply extends_trans; [by eapply extends_handleResponseForPendingRequest|].
    apply extends_drain.
Qed.

Lemma keeps_step P p s s' : step normalizeRemoteObjectValue s s' → keeps P p s s'.
Proof.
  intros H. destruct H.
  - apply keeps_set_webview.
  - apply keeps_set_webview.
  - apply keeps_set_webview.
  - apply keeps_send_if_attached.
  - apply keeps_cachedSendCommand.
  - apply keeps_cachedSendCommand.
  - by apply keeps_evaluate.
  - unfold evaluateConsoleExpression. case_match; by apply keeps_evaluate.
  - by apply keeps_run_microtask.
  - eapply keeps_trans; [by eapply keeps_handleIpcMessage|apply keeps_drain].
  - eapply keeps_trans; [by eapply keeps_handleResponseForPendingRequest|].
    apply keeps_drain.
Qed.

Lemma extends_steps s s' :
  rtc (step normalizeRemoteObjectValue) s s' → extends s s'.
Proof.
  induction 1; [apply extends_refl|].
  eapply extends_trans; [by apply extends_step|done].
Qed.

Lemma keeps_steps P p s s' :
  rtc (step normalizeRemoteObjectValue) s s' → keeps P p s s'.
Proof.
  induction 1; [apply keeps_refl|].
  eapply keeps_trans; [by apply keeps_step|done].
Qed.

Lemma mux_step_step s s' :
  mux_step s s' → step normalizeRemoteObjectValue s s'.
Proof.
  intros H. destruct H.
  - apply step_setWebviewElement.
  - apply step_cleanup.
  - apply step_send_if_attached.
  - apply step_cachedSendCommand.
  - apply step_evaluateWatchExpression.
  - apply step_evaluateConsoleExpression.
  - by apply step_microtask.
  - by eapply step_handleResponseForPendingRequest.
Qed.

Lemma mux_reachable_reachable s :
  mux_reachable s → reachable normalizeRemoteObjectValue s.
Proof.
  unfold mux_reachable, reachable. induction 1; [done|].
  eapply rtc_l; [by apply mux_step_step|done].
Qed.

End Steps.

Lemma handleResponseForPendingRequest_inv pending response key s s' :
  _handleResponseForPendingRequest pending response key s = Normal s' →
  s' = s ∨
  ∃ k d o, get_table pending s !! k = Some d ∧ s' = settle d o s.
Proof.
  unfold _handleResponseForPendingRequest, Deferred_resolve, Deferred_reject.
  intros H. repeat case_match; simplify_eq; eauto 10.
Qed.

Lemma registered_then p k s :
  ¬ is_cached k → registered s → registered (then_ p k s).
Proof.
  intros Hk O d t c v o [H|(-> & <- & _)]%waiting_then; [|by destruct Hk].
  rewrite get_table_then. by apply (O _ _ _ _ _ H).
Qed.

Lemma registered_evaluate (k : ref → cont) t c args s :
  (∀ out, ¬ is_cached (k out)) → wf s → registered s →
  registered (_asyncToGenerator (λ s,
        let '(p, s) := _cachedSendCommand t c args s in (Yield p k, s)) s).2.
Proof.
  intros Hk W O. unfold _asyncToGenerator. cbn [new_promise].
  pose proof (registered_cachedSendCommand t c args (new_promise s).2
                (wf_new_promise s W)) as H.
  simpl in H. destruct (_cachedSendCommand t c args _) as [p s2]. simpl in *.
  apply registered_then; [done|]. apply H.
  by eapply registered_same.
Qed.

Lemma registered_run_microtask_idle s s' :
  wf s → registered s → run_microtask s = Some s' → registered s'.
Proof.
  intros [Wc N] O H.
  apply run_microtask_cons in H as (k & r & q & Hq & ->).
  intros d t c v o [Hw _]%waiting_settle.
  rewrite waiting_resume in Hw. simpl in Hw.
  rewrite get_table_settle, get_table_resume, get_table_set_runtime.
  destruct k; [|by apply (O _ _ _ _ _ Hw)..].
  destruct (N (K_cachedSendCommand cache command value out) r);
    [rewrite Hq; by left|done].
Qed.

Lemma registered_drain_idle n s : wf s → registered s → registered (drain n s).
Proof.
  revert s. induction n as [|n IH]; intros s W O; simpl; [done|].
  destruct (run_microtask s) as [s'|] eqn:E; [|done].
  eauto using wf_run_microtask, registered_run_microtask_idle.
Qed.

Lemma registered_mux_step s s' :
  wf s → registered s → mux_step s s' → registered s'.
Proof.
  intros W O H. destruct H.
  - by eapply registered_same.
  - by eapply registered_same.
  - unfold send_if_attached. destruct (_webview s); [|done].
    by eapply registered_same.
  - by apply registered_cachedSendCommand.
  - apply registered_evaluate; [by intros ? []|done..].
  - unfold evaluateConsoleExpression.
    case_match; (apply registered_evaluate; [by intros ? []|done..]).
  - by eapply registered_run_microtask_idle.
  - apply handleResponseForPendingRequest_inv in H
      as [->|(k & d & o & Ht & ->)].
    + by apply registered_drain_idle.
    + apply (registered_drain _ pending k).
      * eapply wf_core_settle_entry; [apply W|done].
      * by apply jobs_for_settle_entry.
      * intros d'. rewrite get_table_settle, Ht. intros [= <-].
        destruct (wf_entry_pending s pending k d W Ht) as [Hd _].
        exists o. by rewrite heap_settle, decide_True, Hd.
      * by apply registered_settle.
Qed.

Lemma mux_reachable_registered s : mux_reachable s → wf s ∧ registered s.
Proof.
  unfold mux_reachable. intros H.
  assert (wf constructor ∧ registered constructor) as H0.
  { split; [apply wf_constructor|]. intros d t c v o Hw. simpl in Hw. set_solver. }
  revert H0. induction H as [|s1 s2 s3 Hs _ IH]; [done|].
  intros [W O]. apply IH. split.
  - eapply (wf_step (λ v, v)); [done|]. by apply mux_step_step.
  - by eapply registered_mux_step.
Qed.

Lemma tracked_same d k s s' :
  heap s' = heap s → waiting s' = waiting s → microtasks s' = microtasks s →
  tracked d k s → tracked d k s'.
Proof. intros Hh Hw Hq. unfold tracked. by rewrite Hh, Hw, Hq. Qed.

Lemma tracked_new_promise d k s : tracked d k s → tracked d k (new_promise s).2.
Proof.
  intros [H|[H|[r H]]]; [by left|by right; left|right; right].
  exists r. simpl. by apply lookup_app_l_Some.
Qed.

Lemma tracked_settle d k q o s : tracked d k s → tracked d k (settle q o s).
Proof.
  intros [H|[[r H]|[r H]]].
  - destruct (heap s !! q) as [[r|]|] eqn:E;
      [left; by erewrite settle_settled| |left; by rewrite settle_unallocated].
    destruct (decide (d = q)) as [->|Hne].
    + right; left. exists o. by apply microtasks_settle_moved.
    + left. by apply waiting_settle_other.
  - right; left. exists r. by apply microtasks_settle_incl.
  - right; right. exists r. by apply settle_stable.
Qed.

Lemma tracked_then d k q k' s : tracked d k s → tracked d k (then_ q k' s).
Proof.
  intros [H|[[r H]|[r H]]].
  - left. by apply waiting_then_incl.
  - right; left. exists r. by apply microtasks_then_incl.
  - right; right. exists r. by rewrite heap_then.
Qed.

Lemma tracked_set_table d k t m s : tracked d k s → tracked d k (set_table t m s).
Proof.
  apply tracked_same; [apply heap_set_table|apply waiting_set_table
                      |apply microtasks_set_table].
Qed.

Lemma tracked_send d k w msg s : tracked d k s → tracked d k (send w msg s).
Proof. by apply tracked_same. Qed.

Lemma tracked_send_if_attached d k msg s :
  tracked d k s → tracked d k (send_if_attached msg s).
Proof. unfold send_if_attached. by destruct (_webview s). Qed.

Lemma tracked_step_result d k out r s :
  tracked d k s → tracked d k (step_result out r s).
Proof. destruct r; simpl; auto using tracked_settle, tracked_then. Qed.

Lemma tracked_cachedSendCommand d k t c args s :
  tracked d k s → tracked d k (_cachedSendCommand t c args s).2.
Proof.
  intros T. unfold _cachedSendCommand, _asyncToGenerator.
  apply tracked_new_promise in T.
  destruct (new_promise s) as [out s1]. simpl in T.
  destruct (_cachedSendCommand_body t c args s1) as [r s2] eqn:E2. simpl.
  apply tracked_step_result.
  unfold _cachedSendCommand_body in E2.
  repeat case_match; simplify_eq; try done.
  unfold Deferred_new in *.
  match goal with H : new_promise _ = _ |- _ =>
    apply (f_equal snd) in H; simpl in H; subst end.
  by apply tracked_send, tracked_set_table, tracked_new_promise.
Qed.

Lemma tracked_run_microtask d k s s' :
  wf_core s → tracked d k s → run_microtask s = Some s' → tracked d k s'.
Proof.
  intros W T (k0 & r0 & q & Hq & ->)%run_microtask_cons.
  set (s0 := (resume k0 r0 (set_runtime (heap s) (waiting s) q s)).2).
  assert (heap s0 = heap s) as Hh0 by (unfold s0; by rewrite heap_resume).
  assert (waiting s0 = waiting s) as Hw0 by (unfold s0; by rewrite waiting_resume).
  assert (microtasks s0 = q) as Hq0 by (unfold s0; by rewrite microtasks_resume).
  destruct T as [H|[[r H]|[r H]]].
  - apply tracked_settle. left. by rewrite Hw0.
  - rewrite Hq in H. apply elem_of_cons in H as [[= <- <-]|H].
    + right; right. exists (job_outcome k r).
      rewrite heap_settle, decide_True, Hh0 by done.
      rewrite (wf_targets_pending s W k); [done|].
      rewrite (live_head k r q) by done. by left.
    + apply tracked_settle. right; left. exists r. by rewrite Hq0.
  - apply tracked_settle. right; right. exists r. by rewrite Hh0.
Qed.

Lemma tracked_drain n d k s : wf_core s → tracked d k s → tracked d k (drain n s).
Proof.
  revert s. induction n as [|n IH]; intros s W T; simpl; [done|].
  destruct (run_microtask s) as [s'|] eqn:E; [|done].
  eauto using wf_core_run_microtask, tracked_run_microtask.
Qed.

Lemma tracked_evaluate d k (k' : ref → cont) t c args s :
  tracked d k s →
  tracked d k (_asyncToGenerator (λ s,
        let '(p, s) := _cachedSendCommand t c args s in (Yield p k', s)) s).2.
Proof.
  intros T. unfold _asyncToGenerator. cbn [new_promise].
  pose proof (tracked_cachedSendCommand d k t c args (new_promise s).2
                (tracked_new_promise d k s T)) as H.
  simpl in H. destruct (_cachedSendCommand t c args _) as [p s2]. simpl in *.
  by apply tracked_then.
Qed.

Lemma tracked_mux_step d k s s' :
  wf s → tracked d k s → mux_step s s' → tracked d k s'.
Proof.
  intros W T H. destruct H.
  - done.
  - done.
  - by apply tracked_send_if_attached.
  - by apply tracked_cachedSendCommand.
  - by apply tracked_evaluate.
  - unfold evaluateConsoleExpression. case_match; by apply tracked_evaluate.
  - eapply tracked_run_microtask; [apply W|done..].
  - apply handleResponseForPendingRequest_inv in H
      as [->|(k0 & d0 & o & Ht & ->)].
    + apply tracked_drain; [apply W|done].
    + apply tracked_drain; [|by apply tracked_settle].
      eapply wf_core_settle_entry; [apply W|done].
Qed.

Lemma mux_steps_wf s s' : wf s → rtc mux_step s s' → wf s'.
Proof.
  intros W H. induction H as [|s1 s2 s3 Hs _ IH]; [done|].
  apply IH. eapply (wf_step (λ v, v)); [done|]. by apply mux_step_step.
Qed.

Lemma tracked_mux_steps d k s s' :
  wf s → tracked d k s → rtc mux_step s s' → tracked d k s'.
Proof.
  intros W T H. induction H as [|s1 s2 s3 Hs _ IH]; [done|].
  apply IH; [by eapply mux_steps_wf, rtc_once|by eapply tracked_mux_step].
Qed.

Lemma registered_mux_steps s s' :
  wf s → registered s → rtc mux_step s s' → registered s'.
Proof.
  intros W O H. induction H as [|s1 s2 s3 Hs _ IH]; [done|].
  apply IH; [by eapply mux_steps_wf, rtc_once|by eapply registered_mux_step].
Qed.

(** In the executions of the multiplexer, a send whose promise is still
    pending is still registered on its waiter, and the waiter is still the
    entry of its key. *)
Lemma mux_pending_send d t c v p s s' :
  wf s → registered s →
  (d, K_cachedSendCommand t c v p) ∈ waiting s →
  rtc mux_step s s' →
  heap s' !! p = Some None →
  (d, K_cachedSendCommand t c v p) ∈ waiting s' ∧
  get_table t s' !! v = Some d.
Proof.
  intros W O Hw Hs Hp.
  pose proof (mux_steps_wf _ _ W Hs) as [W' N'].
  pose proof (registered_mux_steps _ _ W O Hs) as O'.
  destruct (tracked_mux_steps d (K_cachedSendCommand t c v p) s s' W) as
    [H|[[r H]|[r H]]]; [by left|done| | |].
  - split; [done|]. by apply (O' _ _ _ _ _ H).
  - by destruct (N' _ _ H).
  - simpl in H. congruence.
Qed.

Lemma mux_steps_steps normalizeRemoteObjectValue s s' :
  rtc mux_step s s' → rtc (step normalizeRemoteObjectValue) s s'.
Proof.
  induction 1; [done|]. eapply rtc_l; [by apply mux_step_step|done].
Qed.

(** * The claims *)

Section Claims.

Variable normalizeRemoteObjectValue : jsval → jsval.

Local Abbreviation reachable := (reachable normalizeRemoteObjectValue).
Local Abbreviation step := (step normalizeRemoteObjectValue).

(** C1 (de-duplication).  A send for a key that has no entry writes one
    message and stores a new waiter under the key.  When another send for
    the key is issued, with whatever command and further arguments, while
    that waiter is still the entry of the key and a webview is attached, it
    writes nothing and changes no table, and the two sends wait for the same
    waiter.  When a response for the key is then delivered while the waiter
    is still the entry, the two promises are, at the end of the checkpoint
    that follows, fulfilled with the same value.

    That the promise of the first send is still pending does not make the
    waiter the entry of the key: ['NonLoaderDebuggerPaused'] empties
    [_expressionsInFlight] without settling anything, and with the handle
    cleared a send does not look at its table. *)
Theorem C1_de_duplication t key c1 rest1 c2 rest2 w s :
  reachable s →
  _webview s = Some w →
  get_table t s !! key = None →
  let '(p1, s1) := _cachedSendCommand t c1 (JStr key :: rest1) s in
  sent s1 = sent s ++ [(w, JStr "command" :: JStr c1 :: JStr key :: rest1)] ∧
  ∃ d,
    get_table t s1 !! key = Some d ∧
    heap s1 !! d = Some None ∧
    (d, K_cachedSendCommand t c1 key p1) ∈ waiting s1 ∧
    ∀ s1' w',
      rtc step s1 s1' →
      get_table t s1' !! key = Some d →
      _webview s1' = Some w' →
      let '(p2, s2) := _cachedSendCommand t c2 (JStr key :: rest2) s1' in
      sent s2 = sent s1' ∧
      (∀ t', get_table t' s2 = get_table t' s1') ∧
      p1 ≠ p2 ∧
      (d, K_cachedSendCommand t c1 key p1) ∈ waiting s2 ∧
      (d, K_cachedSendCommand t c2 key p2) ∈ waiting s2 ∧
      ∀ s2' result error,
        rtc step s2 s2' →
        get_table t s2' !! key = Some d →
        ∃ s3,
          deliver t key result error s2' = Normal s3 ∧
          heap (run_microtasks s3) !! p1
            = Some (Some (Fulfilled (if nullish error then result else JNull))) ∧
          heap (run_microtasks s3) !! p2
            = Some (Some (Fulfilled (if nullish error then result else JNull))).
Proof.
  intros R Hw Ht. pose proof (reachable_wf _ s R) as W.
  pose proof (wf_cachedSendCommand t c1 (JStr key :: rest1) s W) as W1.
  rewrite (cachedSendCommand_new t c1 (JStr key :: rest1) w key s Hw eq_refl Ht)
    in W1 |- *.
  set (p1 := length (heap s)) in *. set (d := S p1).
  match goal with |- context [sent ?x = _] => set (s1 := x) in * end.
  cbn [snd] in W1.
  assert (waiting s1 = waiting s ++ [(d, K_cachedSendCommand t c1 key p1)]) as Hw1
    by (unfold s1; simpl; by rewrite waiting_set_table).
  assert (heap s1 = heap s ++ [None; None]) as Hh1
    by (unfold s1; simpl; by rewrite heap_set_table).
  split; [unfold s1; simpl; by rewrite sent_set_table|].
  exists d. split_and!.
  { unfold s1. rewrite get_table_send, get_set_table. apply lookup_insert_eq. }
  { rewrite Hh1. unfold d, p1.
    by rewrite lookup_app_r, Nat.sub_succ_l, Nat.sub_diag by lia. }
  { rewrite Hw1, elem_of_app, list_elem_of_singleton. auto. }
  intros s1' w' Hs1 Ht1 Hw1'.
  pose proof (wf_steps _ _ _ W1 Hs1) as W1'.
  destruct (wf_entry_pending s1' t key d W1' Ht1) as [Hd1' _].
  pose proof (extends_steps _ _ _ Hs1) as (Hh & Hww & _).
  assert ((d, K_cachedSendCommand t c1 key p1) ∈ waiting s1') as Hreg1.
  { destruct (Hww (d, K_cachedSendCommand t c1 key p1)) as [?|[r Hr]]; [|done|].
    - rewrite Hw1, elem_of_app, list_elem_of_singleton. auto.
    - simpl in Hr. congruence. }
  pose proof (wf_cachedSendCommand t c2 (JStr key :: rest2) s1' W1') as W2.
  rewrite (cachedSendCommand_reuse_pending t c2 (JStr key :: rest2) w' key d s1'
             Hw1' eq_refl Ht1 Hd1') in W2 |- *.
  set (p2 := length (heap s1')) in *.
  match goal with |- context [sent ?x = _] => set (s2 := x) in * end.
  cbn [snd] in W2.
  assert (p1 < p2) as Hlt.
  { destruct (Hh p1 None) as (y & Hy & _).
    - rewrite Hh1. rewrite lookup_app_r by done. by rewrite Nat.sub_diag.
    - by apply lookup_lt_Some in Hy. }
  assert (∀ k, (d, k) ∈ waiting s1' → (d, k) ∈ waiting s2) as Hin2.
  { intros k Hk. simpl. rewrite elem_of_app. by left. }
  split_and!; try done; [lia|by apply Hin2| |].
  { simpl. rewrite elem_of_app, list_elem_of_singleton. by right. }
  intros s2' result error Hs2 Ht2.
  pose proof (wf_steps _ _ _ W2 Hs2) as W2'.
  destruct (wf_entry_pending s2' t key d W2' Ht2) as [Hd2' _].
  pose proof (extends_steps _ _ _ Hs2) as (_ & Hww2 & _).
  assert (∀ k, (d, k) ∈ waiting s2 → (d, k) ∈ waiting s2') as Hkeep.
  { intros k [?|[r Hr]]%Hww2; [done|]. simpl in Hr. congruence. }
  exists (settle d (settlement result error) s2'). split_and!.
  - by rewrite deliver_unfold, Ht2.
  - rewrite <-job_outcome_send with (t := t) (c := c1) (v := key) (p := p1).
    apply (run_microtasks_job _ (K_cachedSendCommand t c1 key p1));
      [eapply wf_core_settle_entry; [apply W2'|done]|].
    apply microtasks_settle_moved; [done|]. by apply Hkeep, Hin2.
  - rewrite <-job_outcome_send with (t := t) (c := c2) (v := key) (p := p2).
    apply (run_microtasks_job _ (K_cachedSendCommand t c2 key p2));
      [eapply wf_core_settle_entry; [apply W2'|done]|].
    apply microtasks_settle_moved; [done|]. apply Hkeep. simpl.
    rewrite elem_of_app, list_elem_of_singleton. by right.
Qed.

(** Where no inbound notification is handled in between, the waiter is the
    entry of the key for as long as the promise of the first send is
    pending: there it is enough that the second send is issued before the
    first is settled, with a webview attached. *)
Lemma send_shares_waiter_while_pending t key c1 rest1 c2 rest2 w s :
  mux_reachable s →
  _webview s = Some w →
  get_table t s !! key = None →
  let '(p1, s1) := _cachedSendCommand t c1 (JStr key :: rest1) s in
  sent s1 = sent s ++ [(w, JStr "command" :: JStr c1 :: JStr key :: rest1)] ∧
  heap s1 !! p1 = Some None ∧
  ∀ s1' w',
    rtc mux_step s1 s1' →
    heap s1' !! p1 = Some None →
    _webview s1' = Some w' →
    let '(p2, s2) := _cachedSendCommand t c2 (JStr key :: rest2) s1' in
    sent s2 = sent s1' ∧
    (∀ t', get_table t' s2 = get_table t' s1') ∧
    p1 ≠ p2 ∧
    (∃ d, get_table t s2 !! key = Some d ∧
          (d, K_cachedSendCommand t c1 key p1) ∈ waiting s2 ∧
          (d, K_cachedSendCommand t c2 key p2) ∈ waiting s2) ∧
    ∀ s2' result error,
      rtc mux_step s2 s2' →
      heap s2' !! p1 = Some None →
      ∃ s3,
        deliver t key result error s2' = Normal s3 ∧
        heap (run_microtasks s3) !! p1
          = Some (Some (Fulfilled (if nullish error then result else JNull))) ∧
        heap (run_microtasks s3) !! p2
          = Some (Some (Fulfilled (if nullish error then result else JNull))).
Proof.
  intros [W O]%mux_reachable_registered Hw Ht.
  pose proof (wf_cachedSendCommand t c1 (JStr key :: rest1) s W) as W1.
  pose proof (registered_cachedSendCommand t c1 (JStr key :: rest1) s W O) as O1.
  rewrite (cachedSendCommand_new t c1 (JStr key :: rest1) w key s Hw eq_refl Ht)
    in W1, O1 |- *.
  set (p1 := length (heap s)) in *. set (d := S p1) in *.
  match goal with |- context [sent ?x = _] => set (s1 := x) in * end.
  cbn [snd] in W1, O1.
  assert ((d, K_cachedSendCommand t c1 key p1) ∈ waiting s1) as Hreg.
  { unfold s1. simpl. rewrite waiting_set_table. simpl.
    rewrite elem_of_app, list_elem_of_singleton. auto. }
  assert (heap s1 = heap s ++ [None; None]) as Hh1
    by (unfold s1; simpl; by rewrite heap_set_table).
  split; [unfold s1; simpl; by rewrite sent_set_table|].
  split.
  { rewrite Hh1. unfold p1. rewrite lookup_app_r by done.
    by rewrite Nat.sub_diag. }
  intros s1' w' Hs1 Hp1 Hw1'.
  destruct (mux_pending_send d t c1 key p1 s1 s1' W1 O1 Hreg Hs1 Hp1)
    as [Hreg1 Ht1].
  pose proof (mux_steps_wf _ _ W1 Hs1) as W1'.
  pose proof (registered_mux_steps _ _ W1 O1 Hs1) as O1'.
  destruct (wf_entry_pending s1' t key d W1' Ht1) as [Hd1' _].
  pose proof (wf_cachedSendCommand t c2 (JStr key :: rest2) s1' W1') as W2.
  pose proof (registered_cachedSendCommand t c2 (JStr key :: rest2) s1' W1' O1')
    as O2.
  rewrite (cachedSendCommand_reuse_pending t c2 (JStr key :: rest2) w' key d s1'
             Hw1' eq_refl Ht1 Hd1') in W2, O2 |- *.
  set (p2 := length (heap s1')) in *.
  match goal with |- context [sent ?x = _] => set (s2 := x) in * end.
  cbn [snd] in W2, O2.
  assert (p1 < p2) as Hlt by (by apply lookup_lt_Some in Hp1).
  assert ((d, K_cachedSendCommand t c1 key p1) ∈ waiting s2) as Hreg2.
  { simpl. rewrite elem_of_app. by left. }
  assert ((d, K_cachedSendCommand t c2 key p2) ∈ waiting s2) as Hreg2'.
  { simpl. rewrite elem_of_app, list_elem_of_singleton. by right. }
  split_and!; try done; [lia|by exists d|].
  intros s2' result error Hs2 Hp2.
  destruct (mux_pending_send d t c1 key p1 s2 s2' W2 O2 Hreg2 Hs2 Hp2)
    as [Hreg3 Ht2].
  pose proof (mux_steps_wf _ _ W2 Hs2) as W2'.
  destruct (wf_entry_pending s2' t key d W2' Ht2) as [Hd2' _].
  pose proof (extends_steps (λ v, v) _ _ (mux_steps_steps _ _ _ Hs2))
    as (_ & Hww2 & _).
  assert ((d, K_cachedSendCommand t c2 key p2) ∈ waiting s2') as Hreg3'.
  { destruct (Hww2 _ Hreg2') as [?|[r Hr]]; [done|]. simpl in Hr. congruence. }
  exists (settle d (settlement result error) s2'). split_and!.
  - by rewrite deliver_unfold, Ht2.
  - rewrite <-job_outcome_send with (t := t) (c := c1) (v := key) (p := p1).
    apply (run_microtasks_job _ (K_cachedSendCommand t c1 key p1));
      [eapply wf_core_settle_entry; [apply W2'|done]|].
    by apply microtasks_settle_moved.
  - rewrite <-job_outcome_send with (t := t) (c := c2) (v := key) (p := p2).
    apply (run_microtasks_job _ (K_cachedSendCommand t c2 key p2));
      [eapply wf_core_settle_entry; [apply W2'|done]|].
    by apply microtasks_settle_moved.
Qed.

(** C2 (a single delivery resolves once).  Delivering a result for a key
    whose waiter is pending fulfils the waiter; at the end of the checkpoint
    that follows, where the sends that waited for it are resumed, the table
    has no entry for the key.  Another delivery for the key, before or after
    that checkpoint, returns normally and leaves the state exactly as it
    was. *)
Theorem C2_single_delivery_resolves_once t key d result s :
  reachable s →
  get_table t s !! key = Some d →
  ∃ s1,
    deliver t key result JNull s = Normal s1 ∧
    heap s !! d = Some None ∧
    heap s1 !! d = Some (Some (Fulfilled result)) ∧
    (∀ result' error', deliver t key result' error' s1 = Normal s1) ∧
    microtasks (run_microtasks s1) = [] ∧
    get_table t (run_microtasks s1) !! key = None ∧
    heap (run_microtasks s1) !! d = Some (Some (Fulfilled result)) ∧
    (∀ result' error',
       deliver t key result' error' (run_microtasks s1)
         = Normal (run_microtasks s1)).
Proof.
  intros R Ht. pose proof (reachable_wf _ s R) as W.
  destruct (wf_entry_pending s t key d W Ht) as [Hd _].
  exists (settle d (Fulfilled result) s).
  assert (heap (settle d (Fulfilled result) s) !! d = Some (Some (Fulfilled result)))
    as Hd1 by (by rewrite heap_settle, decide_True, Hd).
  assert (get_table t (run_microtasks (settle d (Fulfilled result) s)) !! key = None)
    as Hgone.
  { destruct (get_table t (run_microtasks _) !! key) as [d'|] eqn:E; [|done].
    pose proof E as E'. unfold run_microtasks in E'.
    apply get_table_drain_incl in E'. rewrite get_table_settle, Ht in E'.
    injection E' as <-.
    assert (wf (run_microtasks (settle d (Fulfilled result) s))) as W2.
    { apply wf_run_microtasks. eapply wf_core_settle_entry; [apply W|done]. }
    destruct (wf_entry_pending _ t key d W2 E) as [Hp _].
    unfold run_microtasks in Hp.
    by erewrite heap_drain_stable in Hp. }
  split_and!.
  - by rewrite deliver_unfold, Ht.
  - done.
  - done.
  - intros result' error'. apply deliver_inert.
    rewrite get_table_settle, Ht. intros ? [= <-]. by rewrite Hd1.
  - apply run_microtasks_empty.
  - done.
  - by apply heap_drain_stable.
  - intros result' error'. apply deliver_inert.
    by rewrite Hgone.
Qed.

(** C3 (disconnected short-circuit).  With the handle cleared,
    [_cachedSendCommand] returns, for any table, command and arguments, a new
    promise that is already fulfilled with [null]; nothing is written to a
    webview, neither table gets an entry, and nothing is logged. *)
Theorem C3_disconnected_short_circuit cache command args s :
  _webview s = None →
  let '(p, s') := _cachedSendCommand cache command args s in
  heap s !! p = None ∧
  heap s' !! p = Some (Some (Fulfilled JNull)) ∧
  sent s' = sent s ∧
  _expressionsInFlight s' = _expressionsInFlight s ∧
  _getPropertiesRequestsInFlight s' = _getPropertiesRequestsInFlight s ∧
  warnings s' = warnings s ∧
  _webview s' = None.
Proof.
  intros Hw. unfold _cachedSendCommand, _asyncToGenerator, _cachedSendCommand_body.
  cbn [new_promise].
  change (_webview (set_runtime _ _ _ s)) with (_webview s). rewrite Hw.
  cbn [step_result].
  split; [by apply lookup_ge_None_2|].
  split.
  { rewrite heap_settle, decide_True by done. simpl.
    rewrite lookup_app_r by done. by rewrite Nat.sub_diag. }
  rewrite sent_settle, warnings_settle, webview_settle.
  pose proof (get_table_settle ExpressionsInFlight) as H1.
  pose proof (get_table_settle GetPropertiesRequestsInFlight) as H2.
  simpl in H1, H2. by rewrite H1, H2.
Qed.

Lemma cachedSendCommand_connected t c v rest w s :
  wf s → _webview s = Some w →
  let r := _cachedSendCommand t c (JStr v :: rest) s in
  ∃ d, get_table t r.2 !! v = Some d ∧
       (d, K_cachedSendCommand t c v r.1) ∈ waiting r.2.
Proof.
  intros W Hw. cbv zeta. destruct (get_table t s !! v) as [d|] eqn:Ht.
  - destruct (wf_entry_pending s t v d W Ht) as [Hd _].
    rewrite (cachedSendCommand_reuse_pending t c (JStr v :: rest) w v d s
               Hw eq_refl Ht Hd).
    exists d. cbn [fst snd]. rewrite get_table_set_runtime. simpl.
    split; [done|]. rewrite elem_of_app, list_elem_of_singleton. auto.
  - rewrite (cachedSendCommand_new t c (JStr v :: rest) w v s Hw eq_refl Ht).
    exists (S (length (heap s))). cbn [fst snd].
    rewrite get_table_send, get_set_table. simpl. rewrite waiting_set_table.
    simpl. split; [apply lookup_insert_eq|].
    rewrite elem_of_app, list_elem_of_singleton. auto.
Qed.

Lemma error_mapping_waiting t key d c p result error s :
  wf s →
  get_table t s !! key = Some d →
  (d, K_cachedSendCommand t c key p) ∈ waiting s →
  nullish error = false →
  ∃ s1,
    deliver t key result error s = Normal s1 ∧
    heap s1 !! d = Some (Some (Rejected error)) ∧
    microtasks (run_microtasks s1) = [] ∧
    heap (run_microtasks s1) !! p = Some (Some (Fulfilled JNull)) ∧
    (c +:+ ": Error getting result.", error) ∈ warnings (run_microtasks s1).
Proof.
  intros W Ht Hw He.
  destruct (wf_entry_pending s t key d W Ht) as [Hd _].
  destruct W as [W _].
  exists (settle d (Rejected error) s).
  assert ((K_cachedSendCommand t c key p, Rejected error)
            ∈ microtasks (settle d (Rejected error) s)) as Hj
    by (by apply microtasks_settle_moved).
  split_and!.
  - rewrite deliver_unfold, Ht. unfold settlement. by rewrite He.
  - by rewrite heap_settle, decide_True, Hd.
  - apply run_microtasks_empty.
  - apply (run_microtasks_job _ _ _ (wf_core_settle_entry _ _ _ _ _ W Ht) Hj).
  - by eapply drain_job_warns.
Qed.

Lemma send_never_rejected t c key d p s s' :
  wf_core s →
  (d, K_cachedSendCommand t c key p) ∈ waiting s →
  rtc step s s' →
  ∀ e, heap s' !! p ≠ Some (Some (Rejected e)).
Proof.
  intros W Hw Hs e.
  destruct (guarded_waiting_send s d t c key p W Hw) as [G Hp].
  destruct (keeps_steps _ _ p _ _ Hs G) as [_ [E|(_ & k & r & Hk & E)]].
  - rewrite <-E, Hp. done.
  - rewrite E. destruct (job_outcome_cached k r Hk) as [v ->]. done.
Qed.

(** C4 (error mapping).  A send with a webview attached returns a promise
    [p] and waits for the waiter [d] of its key.  In no later state,
    whatever happens, is [p] rejected.  When a non-null error is delivered
    for the key while [d] is its entry, [d] is rejected; at the end of the
    checkpoint that follows, [p] is fulfilled with [null] and the failure is
    in the log under the name of the command. *)
Theorem C4_error_mapping t key c rest w s :
  reachable s →
  _webview s = Some w →
  let '(p, s1) := _cachedSendCommand t c (JStr key :: rest) s in
  ∃ d,
    get_table t s1 !! key = Some d ∧
    (∀ s', rtc step s1 s' → ∀ e, heap s' !! p ≠ Some (Some (Rejected e))) ∧
    ∀ s1' result error,
      rtc step s1 s1' →
      get_table t s1' !! key = Some d →
      nullish error = false →
      ∃ s2,
        deliver t key result error s1' = Normal s2 ∧
        heap s2 !! d = Some (Some (Rejected error)) ∧
        microtasks (run_microtasks s2) = [] ∧
        heap (run_microtasks s2) !! p = Some (Some (Fulfilled JNull)) ∧
        (c +:+ ": Error getting result.", error)
          ∈ warnings (run_microtasks s2).
Proof.
  intros R Hw. pose proof (reachable_wf _ s R) as W.
  pose proof (wf_cachedSendCommand t c (JStr key :: rest) s W) as W1.
  pose proof (cachedSendCommand_connected t c key rest w s W Hw) as Hcon.
  cbv zeta in Hcon.
  destruct (_cachedSendCommand t c (JStr key :: rest) s) as [p s1].
  cbn [fst snd] in *. destruct Hcon as (d & Ht & Hreg).
  exists d. split_and!; [done| |].
  - intros s' Hs. by eapply send_never_rejected; [apply W1|..].
  - intros s1' result error Hs Ht' He.
    pose proof (wf_steps _ _ _ W1 Hs) as W1'.
    destruct (wf_entry_pending s1' t key d W1' Ht') as [Hd _].
    pose proof (extends_steps _ _ _ Hs) as (_ & Hww & _).
    apply error_mapping_waiting; try done.
    destruct (Hww _ Hreg) as [?|[r Hr]]; [done|]. simpl in Hr. congruence.
Qed.

(** C5 (unmatched delivery is inert).  When the table holds no unsettled
    waiter under the key, [deliver] returns normally and the state it returns
    is the state it was given: no entry is made, and no table, promise,
    registration or queue changes. *)
Theorem C5_unmatched_delivery_inert t key result error s :
  (∀ d, get_table t s !! key = Some d → heap s !! d ≠ Some None) →
  deliver t key result error s = Normal s.
Proof. apply deliver_inert. Qed.

(** C6 (table invariant).  In every state that sends and deliveries, in
    any order, lead to, the unsettled waiters that sends wait for are
    exactly the entries of the tables: under one key of one table there is
    at most one.  A send for a key that has a pending waiter allocates its
    own promise and nothing else, writes no message, leaves the tables as
    they are and waits for that waiter, which is still the only one of the
    key. *)
Theorem C6_table_invariant s :
  mux_reachable s →
  (∀ t key d, pending_waiter t key d s ↔ get_table t s !! key = Some d) ∧
  (∀ t key d1 d2,
     pending_waiter t key d1 s → pending_waiter t key d2 s → d1 = d2) ∧
  (∀ t key d w c rest,
     _webview s = Some w →
     pending_waiter t key d s →
     let '(p, s') := _cachedSendCommand t c (JStr key :: rest) s in
     heap s' = heap s ++ [None] ∧
     sent s' = sent s ∧
     (∀ t', get_table t' s' = get_table t' s) ∧
     (d, K_cachedSendCommand t c key p) ∈ waiting s' ∧
     ∀ d', pending_waiter t key d' s' → d' = d).
Proof.
  intros R.
  assert (∀ s, mux_reachable s →
            ∀ t key d, pending_waiter t key d s ↔ get_table t s !! key = Some d)
    as Hiff.
  { clear s R. intros s [W O]%mux_reachable_registered t key d. split.
    - intros (_ & c & o & Hw). by apply (O _ _ _ _ _ Hw).
    - intros Ht. by apply wf_entry_pending. }
  split_and!.
  - by apply Hiff.
  - intros t key d1 d2 H1%Hiff H2%Hiff; [congruence|done..].
  - intros t key d w c rest Hw Hd.
    assert (mux_reachable (_cachedSendCommand t c (JStr key :: rest) s).2) as R'.
    { eapply rtc_r; [done|]. apply mux_cachedSendCommand. }
    pose proof (Hiff _ R') as Hiff'.
    pose proof Hd as Ht%Hiff; [|done]. destruct Hd as [Hd _].
    rewrite (cachedSendCommand_reuse_pending t c (JStr key :: rest) w key d s
               Hw eq_refl Ht Hd) in Hiff' |- *.
    cbn [snd] in Hiff'. split_and!; try done.
    + simpl. rewrite elem_of_app, list_elem_of_singleton. auto.
    + intros d' Hd'%Hiff'. rewrite get_table_set_runtime in Hd'. congruence.
Qed.

(** C7 (isolation across tables).  When the two tables each hold a waiter
    under the same key, delivering a response for the key in one table
    settles that table's waiter, whose entry is gone at the end of the
    checkpoint that follows; the other table, its waiter and the
    registrations on that waiter are the same after the delivery, and the
    same again at the end of the checkpoint. *)
Theorem C7_isolation_across_tables t1 t2 key d1 d2 result error s :
  reachable s →
  t1 ≠ t2 →
  get_table t1 s !! key = Some d1 →
  get_table t2 s !! key = Some d2 →
  ∃ s1,
    deliver t1 key result error s = Normal s1 ∧
    d1 ≠ d2 ∧
    heap s1 !! d1 = Some (Some (settlement result error)) ∧
    get_table t1 (run_microtasks s1) !! key = None ∧
    get_table t2 s1 = get_table t2 s ∧
    same_waiter d2 s s1 ∧
    get_table t2 (run_microtasks s1) = get_table t2 s ∧
    same_waiter d2 s (run_microtasks s1) ∧
    heap (run_microtasks s1) !! d2 = Some None.
Proof.
  intros R Hne Ht1 Ht2. pose proof (reachable_wf _ s R) as W.
  destruct (wf_entry_pending s t1 key d1 W Ht1) as [Hd1 _].
  destruct (wf_entry_pending s t2 key d2 W Ht2) as [Hd2 _].
  assert (d1 ≠ d2) as Hd.
  { intros ->. by destruct (wf_table_inj s (proj1 W) _ _ _ _ _ Ht1 Ht2). }
  set (s1 := settle d1 (settlement result error) s).
  assert (wf_core s1) as W1 by (eapply wf_core_settle_entry; [apply W|done]).
  assert (jobs_for t1 key s1) as J1 by (by apply jobs_for_settle_entry).
  assert (same_waiter d2 s s1) as S1 by (by apply same_waiter_settle).
  assert (get_table t2 s1 = get_table t2 s) as T1 by apply get_table_settle.
  assert (same_waiter d2 s (run_microtasks s1)) as S2.
  { destruct S1 as [H1 H2].
    destruct (same_waiter_drain (length (microtasks s1) + length (waiting s1))
                d2 t2 t1 key s1) as [H3 H4]; try done; [by rewrite T1|].
    split; unfold run_microtasks; congruence. }
  exists s1. split_and!; try done.
  - by rewrite deliver_unfold, Ht1.
  - unfold s1. by rewrite heap_settle, decide_True, Hd1.
  - destruct (get_table t1 (run_microtasks s1) !! key) as [d'|] eqn:E; [|done].
    pose proof (wf_run_microtasks s1 W1) as W2.
    destruct (wf_entry_pending _ t1 key d' W2 E) as [Hp _].
    apply get_table_drain_incl in E. unfold s1 in E.
    rewrite get_table_settle, Ht1 in E. injection E as <-.
    unfold run_microtasks in Hp. erewrite heap_drain_stable in Hp; [done|].
    unfold s1. by rewrite heap_settle, decide_True, Hd1.
  - apply map_eq. intros key'. rewrite <-T1.
    apply (get_table_drain_other _ t1 key); auto.
  - destruct S2 as [-> _]. done.
Qed.

(** C8 (cleanup does not fail pending requests).  [cleanup] clears the
    handle and nothing else: the two tables keep their entries, and no
    promise is settled, so a waiter that was pending is still pending and
    still in its table. *)
Theorem C8_cleanup_keeps_pending t key d s :
  get_table t s !! key = Some d →
  heap s !! d = Some None →
  _webview (cleanup s) = None ∧
  get_table t (cleanup s) !! key = Some d ∧
  heap (cleanup s) !! d = Some None ∧
  _expressionsInFlight (cleanup s) = _expressionsInFlight s ∧
  _getPropertiesRequestsInFlight (cleanup s) = _getPropertiesRequestsInFlight s ∧
  heap (cleanup s) = heap s ∧
  waiting (cleanup s) = waiting s ∧
  microtasks (cleanup s) = microtasks s.
Proof.
  intros Ht Hd. unfold cleanup. rewrite get_table_set_webview. by simpl.
Qed.

Lemma evaluate_falls_back (k : ref → cont) expression c rest s :
  (∀ out, k out = K_evaluateOnSelectedCallFrame expression out) ∨
  (∀ out, k out = K_runtimeEvaluate expression out) →
  reachable s →
  falls_back normalizeRemoteObjectValue expression
    (JObj [("type", JStr "text");
           ("value", JStr ("Failed to evaluate: " +:+ expression))])
    (_asyncToGenerator (λ s,
       let '(p, s) := _cachedSendCommand ExpressionsInFlight c
                        (JStr expression :: rest) s in
       (Yield p k, s))) s.
Proof.
  intros Hk R. pose proof (reachable_wf _ s R) as W. unfold falls_back.
  assert (∀ out, target (k out) = out) as Htg
    by (intros out; destruct Hk as [-> | ->]; done).
  assert (∀ out, ¬ is_cached (k out)) as Hnc
    by (intros out; destruct Hk as [-> | ->]; by intros []).
  assert (∀ out r, nullish r = true →
            job_outcome (k out) (Fulfilled r)
              = Fulfilled (failed_to_evaluate expression)) as Hfb.
  { intros out r Hr. unfold job_outcome.
    destruct Hk as [-> | ->]; simpl; by rewrite Hr. }
  pose proof (wf_evaluate k ExpressionsInFlight c (JStr expression :: rest) s
                Htg Hnc W) as We.
  pose proof (λ w, evaluate_connected k ExpressionsInFlight c expression rest
                     w s W) as Hcon.
  pose proof (evaluate_disconnected k ExpressionsInFlight c
                (JStr expression :: rest) s W) as Hdis.
  cbv zeta in Hcon, Hdis.
  destruct (_asyncToGenerator _ s) as [p se]. cbn [fst snd] in *.
  split.
  - intros Hw. destruct (Hdis Hw) as [-> Hj].
    rewrite <-(Htg (length (heap s))) at 1.
    rewrite (run_microtasks_job _ _ _ (proj1 We) Hj). by rewrite Hfb.
  - intros w Hw. destruct (Hcon w Hw) as (-> & d & Ht & Hreg1 & Hreg2).
    exists d. split; [done|].
    intros s1' result error Hs Ht' Hnull.
    pose proof (wf_steps _ _ _ We Hs) as W'.
    destruct (wf_entry_pending s1' _ _ d W' Ht') as [Hd _].
    destruct W' as [W' _].
    pose proof (extends_steps _ _ _ Hs) as (_ & Hww & _).
    set (inner := S (length (heap s))) in *.
    set (kc := K_cachedSendCommand ExpressionsInFlight c expression inner) in *.
    assert ((d, kc) ∈ waiting s1') as Hreg1'.
    { destruct (Hww _ Hreg1) as [?|[r Hr]]; [done|]. simpl in Hr. congruence. }
    assert (heap s1' !! inner = Some None) as Hinner.
    { apply (wf_targets_pending s1' W' kc). by eapply live_waiting. }
    assert ((inner, k (length (heap s))) ∈ waiting s1') as Hreg2'.
    { destruct (Hww _ Hreg2) as [?|[r Hr]]; [done|]. simpl in Hr. congruence. }
    exists (settle d (settlement result error) s1'). split.
    { by rewrite deliver_unfold, Ht'. }
    rewrite <-(Htg (length (heap s))) at 1.
    rewrite (run_microtasks_job_then _ kc (settlement result error)); try done.
    + f_equal. f_equal. unfold kc. rewrite job_outcome_send.
      apply Hfb. destruct Hnull as [-> | Hr]; [done|].
      by destruct (nullish error).
    + by eapply wf_core_settle_entry.
    + by apply microtasks_settle_moved.
    + apply waiting_settle_other; [done|]. simpl.
      pose proof (wf_core_entry_not_target s1' _ _ d kc W' Ht'
                    (live_waiting _ _ _ Hreg1')) as Hne.
      simpl in Hne. done.
Qed.

(** C9 (user-visible fallback).  For every expression, the fallback is the
    object [{type: 'text', value: 'Failed to evaluate: ' + expression}],
    which is neither null nor undefined.  Resumed with a null or undefined
    result, the two evaluation methods return that object.  So the promise
    that [_evaluateOnSelectedCallFrame] or [_runtimeEvaluate] returned is
    fulfilled with that object, and is not rejected, when the webview is
    detached, when the waiter of the expression is rejected, and when it is
    resolved with a null result. *)
Theorem C9_user_visible_fallback expression objectGroup s :
  reachable s →
  let fallback :=
    JObj [("type", JStr "text");
          ("value", JStr ("Failed to evaluate: " +:+ expression))] in
  nullish fallback = false ∧
  (∀ out r, nullish r = true →
     job_outcome (K_evaluateOnSelectedCallFrame expression out) (Fulfilled r)
       = Fulfilled fallback ∧
     job_outcome (K_runtimeEvaluate expression out) (Fulfilled r)
       = Fulfilled fallback) ∧
  falls_back normalizeRemoteObjectValue expression fallback
    (_evaluateOnSelectedCallFrame expression objectGroup) s ∧
  falls_back normalizeRemoteObjectValue expression fallback
    (_runtimeEvaluate expression) s.
Proof.
  intros R fallback. split_and!.
  - done.
  - intros out r Hr. unfold job_outcome. simpl. by rewrite Hr.
  - apply (evaluate_falls_back (K_evaluateOnSelectedCallFrame expression));
      auto.
  - apply (evaluate_falls_back (K_runtimeEvaluate expression)); auto.
Qed.

(** C10 (a pause drops the expressions in flight).  Handling the
    notification ['NonLoaderDebuggerPaused'] empties [_expressionsInFlight]
    and changes nothing else: [_getPropertiesRequestsInFlight] is as before
    and no promise is settled.  A waiter that was pending in the emptied
    table is then out of reach: whatever happens later, it stays pending and
    the sends that wait for it are never resumed. *)
Theorem C10_paused_drops_expressions m e s :
  channel e = "notification" →
  hd JUndefined (args e) = JStr "NonLoaderDebuggerPaused" →
  _handleIpcMessage normalizeRemoteObjectValue m e s
    = Normal (_handleDebuggerPaused s) ∧
  _expressionsInFlight (_handleDebuggerPaused s) = ∅ ∧
  _getPropertiesRequestsInFlight (_handleDebuggerPaused s)
    = _getPropertiesRequestsInFlight s ∧
  heap (_handleDebuggerPaused s) = heap s ∧
  waiting (_handleDebuggerPaused s) = waiting s ∧
  microtasks (_handleDebuggerPaused s) = microtasks s ∧
  (reachable s →
   ∀ key d, _expressionsInFlight s !! key = Some d → heap s !! d = Some None →
   ∀ s', rtc step (run_microtasks (_handleDebuggerPaused s)) s' →
     heap s' !! d = Some None ∧
     ∀ k, (d, k) ∈ waiting s → (d, k) ∈ waiting s').
Proof.
  intros Hc Ha. split_and!; try done.
  { unfold _handleIpcMessage. by rewrite Hc, Ha. }
  intros R key d Ht Hd s' Hs.
  pose proof (reachable_wf _ s R) as [W _].
  destruct (guarded_dropped s ExpressionsInFlight key d W Ht)
    as [[G _]|[r Hr]]; [|congruence].
  assert (heap s' !! d = Some None) as Hd'.
  { destruct (keeps_trans _ d _ _ _
                (keeps_drain _ d _ (_handleDebuggerPaused s))
                (keeps_steps _ _ d _ _ Hs) G)
      as [_ [E|(_ & k & r & [] & _)]].
    by rewrite <-E. }
  split; [done|]. intros k Hk.
  assert (extends s s') as (_ & Hw & _).
  { eapply extends_trans; [apply (extends_set_table ExpressionsInFlight ∅)|].
    eapply extends_trans; [|by eapply extends_steps]. apply extends_drain. }
  destruct (Hw _ Hk) as [?|[r Hr]]; [done|]. simpl in Hr. congruence.
Qed.

End Claims.

(** ** Sample executions *)

(** The scenario of the spec: two sends of ['evaluateOnSelectedCallFrame']
    for ['x+1'] write one message; the response that is then delivered
    fulfils both promises with the result and the key leaves the table. *)
Example two_sends_one_message :
  let '(p1, s1) := _cachedSendCommand ExpressionsInFlight
                     "evaluateOnSelectedCallFrame"
                     [JStr "x+1"; JStr "console"] example_attached in
  let '(p2, s2) := _cachedSendCommand ExpressionsInFlight
                     "evaluateOnSelectedCallFrame"
                     [JStr "x+1"; JStr "console"] s1 in
  let two := JObj [("type", JStr "number"); ("value", JStr "2")] in
  sent s2 = [(1, [JStr "command"; JStr "evaluateOnSelectedCallFrame";
                  JStr "x+1"; JStr "console"])] ∧
  ∃ s3,
    deliver ExpressionsInFlight "x+1" two JNull s2 = Normal s3 ∧
    heap (run_microtasks s3) !! p1 = Some (Some (Fulfilled two)) ∧
    heap (run_microtasks s3) !! p2 = Some (Some (Fulfilled two)) ∧
    get_table ExpressionsInFlight (run_microtasks s3) !! "x+1" = None.
Proof.
  vm_compute. split; [reflexivity|].
  eexists. split; [reflexivity|]. vm_compute. by split_and!.
Qed.

(** A non-string key fails the assertion of line 395: the promise of the
    send is rejected and nothing is stored or written. *)
Example send_without_string_key :
  let '(p, s1) := _cachedSendCommand ExpressionsInFlight
                    "evaluateOnSelectedCallFrame" [] example_attached in
  heap s1 !! p = Some (Some (Rejected AssertionError)) ∧
  sent s1 = [] ∧
  get_table ExpressionsInFlight s1 = ∅.
Proof. vm_compute. by split_and!. Qed.

(** A watch expression evaluated on a detached bridge: after the microtask
    checkpoint the caller has the fallback. *)
Example evaluate_detached :
  let '(p, s1) := evaluateWatchExpression "x+1" constructor in
  heap (run_microtasks s1) !! p
    = Some (Some (Fulfilled
        (JObj [("type", JStr "text");
               ("value", JStr "Failed to evaluate: x+1")]))) ∧
  sent (run_microtasks s1) = [].
Proof. vm_compute. by split. Qed.

(** ** The claims at sample states *)

Lemma reachable_example_attached : reachable (λ v, v) example_attached.
Proof. eapply rtc_l; [apply (step_setWebviewElement _ 1)|apply rtc_refl]. Qed.

Lemma reachable_example_requested : reachable (λ v, v) example_requested.
Proof.
  eapply rtc_r; [apply reachable_example_attached|].
  apply step_cachedSendCommand.
Qed.

Lemma reachable_example_both : reachable (λ v, v) example_both.
Proof.
  eapply rtc_r; [apply reachable_example_requested|].
  apply step_getProperties.
Qed.

Lemma reachable_example_after_pause : reachable (λ v, v) example_after_pause.
Proof.
  eapply rtc_r; [apply reachable_example_requested|].
  by apply (step_handleIpcMessage _ example_model example_paused).
Qed.

Lemma reachable_example_detached : reachable (λ v, v) example_detached.
Proof.
  eapply rtc_r; [apply reachable_example_requested|]. apply step_cleanup.
Qed.

Lemma mux_reachable_example_attached : mux_reachable example_attached.
Proof. eapply rtc_l; [apply (mux_setWebviewElement 1)|apply rtc_refl]. Qed.

Lemma mux_reachable_example_requested : mux_reachable example_requested.
Proof.
  eapply rtc_r; [apply mux_reachable_example_attached|].
  apply mux_cachedSendCommand.
Qed.

Lemma C3_witness :
  _webview constructor = None ∧
  let '(p, s') := _cachedSendCommand ExpressionsInFlight
                    "evaluateOnSelectedCallFrame"
                    [JStr "x+1"; JStr "console"] constructor in
  heap constructor !! p = None ∧
  heap s' !! p = Some (Some (Fulfilled JNull)) ∧
  sent s' = sent constructor ∧
  _expressionsInFlight s' = _expressionsInFlight constructor ∧
  _getPropertiesRequestsInFlight s' = _getPropertiesRequestsInFlight constructor ∧
  warnings s' = warnings constructor ∧
  _webview s' = None.
Proof.
  split; [reflexivity|].
  apply (C3_disconnected_short_circuit ExpressionsInFlight
           "evaluateOnSelectedCallFrame" [JStr "x+1"; JStr "console"] constructor).
  reflexivity.
Defined.

Lemma C5_witness :
  (∀ d, get_table GetPropertiesRequestsInFlight constructor !! "obj1" = Some d →
        heap constructor !! d ≠ Some None) ∧
  deliver GetPropertiesRequestsInFlight "obj1" (JStr "value") JNull constructor
    = Normal constructor.
Proof.
  assert (∀ d, get_table GetPropertiesRequestsInFlight constructor !! "obj1" = Some d →
               heap constructor !! d ≠ Some None) as H.
  { intros d H. vm_compute in H. discriminate. }
  split; [exact H|].
  apply (C5_unmatched_delivery_inert GetPropertiesRequestsInFlight "obj1"
           (JStr "value") JNull constructor H).
Defined.

Lemma C8_witness :
  get_table ExpressionsInFlight example_requested !! "x+1" = Some 1 ∧
  heap example_requested !! 1 = Some None ∧
  _webview (cleanup example_requested) = None ∧
  get_table ExpressionsInFlight (cleanup example_requested) !! "x+1" = Some 1 ∧
  heap (cleanup example_requested) !! 1 = Some None ∧
  _expressionsInFlight (cleanup example_requested)
    = _expressionsInFlight example_requested ∧
  _getPropertiesRequestsInFlight (cleanup example_requested)
    = _getPropertiesRequestsInFlight example_requested ∧
  heap (cleanup example_requested) = heap example_requested ∧
  waiting (cleanup example_requested) = waiting example_requested ∧
  microtasks (cleanup example_requested) = microtasks example_requested.
Proof.
  assert (get_table ExpressionsInFlight example_requested !! "x+1" = Some 1) as H1
    by (vm_compute; reflexivity).
  assert (heap example_requested !! 1 = Some None) as H2
    by (vm_compute; reflexivity).
  split; [exact H1|]. split; [exact H2|].
  apply (C8_cleanup_keeps_pending ExpressionsInFlight "x+1" 1 example_requested
           H1 H2).
Defined.

Lemma C1_witness :
  reachable (λ v, v) example_attached ∧
  _webview example_attached = Some 1 ∧
  get_table ExpressionsInFlight example_attached !! "x+1" = None ∧
  let '(p1, s1) := _cachedSendCommand ExpressionsInFlight
                     "evaluateOnSelectedCallFrame"
                     (JStr "x+1" :: [JStr "console"]) example_attached in
  sent s1 = sent example_attached ++
            [(1, JStr "command" :: JStr "evaluateOnSelectedCallFrame"
                   :: JStr "x+1" :: [JStr "console"])] ∧
  ∃ d,
    get_table ExpressionsInFlight s1 !! "x+1" = Some d ∧
    heap s1 !! d = Some None ∧
    (d, K_cachedSendCommand ExpressionsInFlight
          "evaluateOnSelectedCallFrame" "x+1" p1) ∈ waiting s1 ∧
    ∀ s1' w',
      rtc (step (λ v, v)) s1 s1' →
      get_table ExpressionsInFlight s1' !! "x+1" = Some d →
      _webview s1' = Some w' →
      let '(p2, s2) := _cachedSendCommand ExpressionsInFlight "runtimeEvaluate"
                         (JStr "x+1" :: []) s1' in
      sent s2 = sent s1' ∧
      (∀ t', get_table t' s2 = get_table t' s1') ∧
      p1 ≠ p2 ∧
      (d, K_cachedSendCommand ExpressionsInFlight
            "evaluateOnSelectedCallFrame" "x+1" p1) ∈ waiting s2 ∧
      (d, K_cachedSendCommand ExpressionsInFlight
            "runtimeEvaluate" "x+1" p2) ∈ waiting s2 ∧
      ∀ s2' result error,
        rtc (step (λ v, v)) s2 s2' →
        get_table ExpressionsInFlight s2' !! "x+1" = Some d →
        ∃ s3,
          deliver ExpressionsInFlight "x+1" result error s2' = Normal s3 ∧
          heap (run_microtasks s3) !! p1
            = Some (Some (Fulfilled (if nullish error then result else JNull))) ∧
          heap (run_microtasks s3) !! p2
            = Some (Some (Fulfilled (if nullish error then result else JNull))).
Proof.
  assert (_webview example_attached = Some 1) as H1 by reflexivity.
  assert (get_table ExpressionsInFlight example_attached !! "x+1" = None) as H2
    by (vm_compute; reflexivity).
  split; [exact reachable_example_attached|].
  split; [exact H1|]. split; [exact H2|].
  apply (C1_de_duplication (λ v, v) ExpressionsInFlight "x+1"
           "evaluateOnSelectedCallFrame" [JStr "console"]
           "runtimeEvaluate" [] 1 example_attached
           reachable_example_attached H1 H2).
Defined.

(** De-duplication for every second send that is issued before the first is
    settled (C1, read without the proviso that the waiter is still the
    entry) fails at [example_requested], where the first send for ['x+1']
    has returned promise 0 and waits for waiter 1.

    After the pause notification promise 0 is still pending and the webview
    is attached, yet a second send for ['x+1'] writes the command a second
    time and waits for a waiter of its own, 3; the response that is then
    delivered fulfils the second promise and leaves the first pending.

    After [cleanup] promise 0 is still pending as well, yet the promise of a
    second send for ['x+1'] is fulfilled with [null] at once; the response
    that is then delivered fulfils the first promise with the result. *)
Lemma C1_counterexample :
  (_cachedSendCommand ExpressionsInFlight "evaluateOnSelectedCallFrame"
     [JStr "x+1"; JStr "console"] example_attached).1 = 0 ∧
  (reachable (λ v, v) example_after_pause ∧
   heap example_after_pause !! 0 = Some None ∧
   _webview example_after_pause = Some 1 ∧
   let '(p2, s2) := _cachedSendCommand ExpressionsInFlight
                      "evaluateOnSelectedCallFrame"
                      [JStr "x+1"; JStr "console"] example_after_pause in
   sent s2
     = [(1, [JStr "command"; JStr "evaluateOnSelectedCallFrame";
             JStr "x+1"; JStr "console"]);
        (1, [JStr "command"; JStr "evaluateOnSelectedCallFrame";
             JStr "x+1"; JStr "console"])] ∧
   waiting s2
     = [(1, K_cachedSendCommand ExpressionsInFlight
              "evaluateOnSelectedCallFrame" "x+1" 0);
        (3, K_cachedSendCommand ExpressionsInFlight
              "evaluateOnSelectedCallFrame" "x+1" p2)] ∧
   ∃ s3,
     deliver ExpressionsInFlight "x+1" (JStr "2") JNull s2 = Normal s3 ∧
     heap (run_microtasks s3) !! 0 = Some None ∧
     heap (run_microtasks s3) !! p2 = Some (Some (Fulfilled (JStr "2")))) ∧
  (reachable (λ v, v) example_detached ∧
   heap example_detached !! 0 = Some None ∧
   let '(p2, s2) := _cachedSendCommand ExpressionsInFlight
                      "evaluateOnSelectedCallFrame"
                      [JStr "x+1"; JStr "console"] example_detached in
   sent s2 = sent example_detached ∧
   heap s2 !! p2 = Some (Some (Fulfilled JNull)) ∧
   waiting s2
     = [(1, K_cachedSendCommand ExpressionsInFlight
              "evaluateOnSelectedCallFrame" "x+1" 0)] ∧
   ∃ s3,
     deliver ExpressionsInFlight "x+1" (JStr "2") JNull s2 = Normal s3 ∧
     heap (run_microtasks s3) !! 0 = Some (Some (Fulfilled (JStr "2"))) ∧
     heap (run_microtasks s3) !! p2 = Some (Some (Fulfilled JNull))).
Proof.
  split; [reflexivity|]. split.
  - split; [exact reachable_example_after_pause|].
    vm_compute. split_and!; try reflexivity.
    eexists. split; [reflexivity|]. vm_compute. by split.
  - split; [exact reachable_example_detached|].
    vm_compute. split_and!; try reflexivity.
    eexists. split; [reflexivity|]. vm_compute. by split.
Qed.

Lemma C2_witness :
  reachable (λ v, v) example_requested ∧
  get_table ExpressionsInFlight example_requested !! "x+1" = Some 1 ∧
  ∃ s1,
    deliver ExpressionsInFlight "x+1" (JStr "2") JNull example_requested
      = Normal s1 ∧
    heap example_requested !! 1 = Some None ∧
    heap s1 !! 1 = Some (Some (Fulfilled (JStr "2"))) ∧
    (∀ result' error',
       deliver ExpressionsInFlight "x+1" result' error' s1 = Normal s1) ∧
    microtasks (run_microtasks s1) = [] ∧
    get_table ExpressionsInFlight (run_microtasks s1) !! "x+1" = None ∧
    heap (run_microtasks s1) !! 1 = Some (Some (Fulfilled (JStr "2"))) ∧
    (∀ result' error',
       deliver ExpressionsInFlight "x+1" result' error' (run_microtasks s1)
         = Normal (run_microtasks s1)).
Proof.
  assert (get_table ExpressionsInFlight example_requested !! "x+1" = Some 1) as H
    by (vm_compute; reflexivity).
  split; [exact reachable_example_requested|]. split; [exact H|].
  apply (C2_single_delivery_resolves_once (λ v, v) ExpressionsInFlight "x+1" 1
           (JStr "2") example_requested reachable_example_requested H).
Defined.

Lemma C4_witness :
  reachable (λ v, v) example_attached ∧
  _webview example_attached = Some 1 ∧
  let '(p, s1) := _cachedSendCommand ExpressionsInFlight
                    "evaluateOnSelectedCallFrame"
                    (JStr "x+1" :: [JStr "console"]) example_attached in
  ∃ d,
    get_table ExpressionsInFlight s1 !! "x+1" = Some d ∧
    (∀ s', rtc (step (λ v, v)) s1 s' →
       ∀ e, heap s' !! p ≠ Some (Some (Rejected e))) ∧
    ∀ s1' result error,
      rtc (step (λ v, v)) s1 s1' →
      get_table ExpressionsInFlight s1' !! "x+1" = Some d →
      nullish error = false →
      ∃ s2,
        deliver ExpressionsInFlight "x+1" result error s1' = Normal s2 ∧
        heap s2 !! d = Some (Some (Rejected error)) ∧
        microtasks (run_microtasks s2) = [] ∧
        heap (run_microtasks s2) !! p = Some (Some (Fulfilled JNull)) ∧
        ("evaluateOnSelectedCallFrame" +:+ ": Error getting result.", error)
          ∈ warnings (run_microtasks s2).
Proof.
  assert (_webview example_attached = Some 1) as H1 by reflexivity.
  split; [exact reachable_example_attached|]. split; [exact H1|].
  apply (C4_error_mapping (λ v, v) ExpressionsInFlight "x+1"
           "evaluateOnSelectedCallFrame" [JStr "console"] 1 example_attached
           reachable_example_attached H1).
Defined.

Lemma C6_witness :
  mux_reachable example_requested ∧
  (∀ t key d,
     pending_waiter t key d example_requested ↔
     get_table t example_requested !! key = Some d) ∧
  (∀ t key d1 d2,
     pending_waiter t key d1 example_requested →
     pending_waiter t key d2 example_requested → d1 = d2) ∧
  (∀ t key d w c rest,
     _webview example_requested = Some w →
     pending_waiter t key d example_requested →
     let '(p, s') := _cachedSendCommand t c (JStr key :: rest) example_requested in
     heap s' = heap example_requested ++ [None] ∧
     sent s' = sent example_requested ∧
     (∀ t', get_table t' s' = get_table t' example_requested) ∧
     (d, K_cachedSendCommand t c key p) ∈ waiting s' ∧
     ∀ d', pending_waiter t key d' s' → d' = d).
Proof.
  split; [exact mux_reachable_example_requested|].
  apply (C6_table_invariant example_requested mux_reachable_example_requested).
Defined.

Lemma C7_witness :
  reachable (λ v, v) example_both ∧
  ExpressionsInFlight ≠ GetPropertiesRequestsInFlight ∧
  get_table ExpressionsInFlight example_both !! "x+1" = Some 1 ∧
  get_table GetPropertiesRequestsInFlight example_both !! "x+1" = Some 3 ∧
  ∃ s1,
    deliver ExpressionsInFlight "x+1" (JStr "2") JNull example_both = Normal s1 ∧
    1 ≠ 3 ∧
    heap s1 !! 1 = Some (Some (settlement (JStr "2") JNull)) ∧
    get_table ExpressionsInFlight (run_microtasks s1) !! "x+1" = None ∧
    get_table GetPropertiesRequestsInFlight s1
      = get_table GetPropertiesRequestsInFlight example_both ∧
    same_waiter 3 example_both s1 ∧
    get_table GetPropertiesRequestsInFlight (run_microtasks s1)
      = get_table GetPropertiesRequestsInFlight example_both ∧
    same_waiter 3 example_both (run_microtasks s1) ∧
    heap (run_microtasks s1) !! 3 = Some None.
Proof.
  assert (ExpressionsInFlight ≠ GetPropertiesRequestsInFlight) as H0
    by discriminate.
  assert (get_table ExpressionsInFlight example_both !! "x+1" = Some 1) as H1
    by (vm_compute; reflexivity).
  assert (get_table GetPropertiesRequestsInFlight example_both !! "x+1" = Some 3)
    as H2 by (vm_compute; reflexivity).
  split; [exact reachable_example_both|].
  split; [exact H0|]. split; [exact H1|]. split; [exact H2|].
  apply (C7_isolation_across_tables (λ v, v) ExpressionsInFlight
           GetPropertiesRequestsInFlight "x+1" 1 3 (JStr "2") JNull
           example_both reachable_example_both H0 H1 H2).
Defined.

Lemma C9_witness :
  reachable (λ v, v) example_attached ∧
  nullish (JObj [("type", JStr "text");
                 ("value", JStr "Failed to evaluate: x+1")]) = false ∧
  (∀ out r, nullish r = true →
     job_outcome (K_evaluateOnSelectedCallFrame "x+1" out) (Fulfilled r)
       = Fulfilled (JObj [("type", JStr "text");
                          ("value", JStr "Failed to evaluate: x+1")]) ∧
     job_outcome (K_runtimeEvaluate "x+1" out) (Fulfilled r)
       = Fulfilled (JObj [("type", JStr "text");
                          ("value", JStr "Failed to evaluate: x+1")])) ∧
  falls_back (λ v, v) "x+1"
    (JObj [("type", JStr "text"); ("value", JStr "Failed to evaluate: x+1")])
    (_evaluateOnSelectedCallFrame "x+1" "console") example_attached ∧
  falls_back (λ v, v) "x+1"
    (JObj [("type", JStr "text"); ("value", JStr "Failed to evaluate: x+1")])
    (_runtimeEvaluate "x+1") example_attached.
Proof.
  split; [exact reachable_example_attached|].
  apply (C9_user_visible_fallback (λ v, v) "x+1" "console" example_attached
           reachable_example_attached).
Defined.

Lemma C10_witness :
  channel example_paused = "notification" ∧
  hd JUndefined (args example_paused) = JStr "NonLoaderDebuggerPaused" ∧
  _handleIpcMessage (λ v, v) example_model example_paused example_requested
    = Normal (_handleDebuggerPaused example_requested) ∧
  _expressionsInFlight (_handleDebuggerPaused example_requested) = ∅ ∧
  _getPropertiesRequestsInFlight (_handleDebuggerPaused example_requested)
    = _getPropertiesRequestsInFlight example_requested ∧
  heap (_handleDebuggerPaused example_requested) = heap example_requested ∧
  waiting (_handleDebuggerPaused example_requested) = waiting example_requested ∧
  microtasks (_handleDebuggerPaused example_requested)
    = microtasks example_requested ∧
  (reachable (λ v, v) example_requested →
   ∀ key d, _expressionsInFlight example_requested !! key = Some d →
   heap example_requested !! d = Some None →
   ∀ s', rtc (step (λ v, v))
           (run_microtasks (_handleDebuggerPaused example_requested)) s' →
     heap s' !! d = Some None ∧
     ∀ k, (d, k) ∈ waiting example_requested → (d, k) ∈ waiting s').
Proof.
  assert (channel example_paused = "notification") as H1 by reflexivity.
  assert (hd JUndefined (args example_paused) = JStr "NonLoaderDebuggerPaused")
    as H2 by reflexivity.
  split; [exact H1|]. split; [exact H2|].
  apply (C10_paused_drops_expressions (λ v, v) example_model example_paused
           example_requested H1 H2).
Defined.

(** * Further properties *)

(** ** The bridge *)

Lemma wrote_nothing s s' : sent s' = sent s → wrote_to_attached s s'.
Proof. intros H. exists []. by rewrite app_nil_r. Qed.

Lemma wrote_to_attached_trans s1 s2 s3 :
  wrote_to_attached s1 s2 → _webview s2 = _webview s1 →
  wrote_to_attached s2 s3 → wrote_to_attached s1 s3.
Proof.
  intros (l1 & H1 & F1) Hw (l2 & H2 & F2). exists (l1 ++ l2). split.
  - by rewrite H2, H1, app_assoc.
  - apply Forall_app. split; [done|]. by rewrite <-Hw.
Qed.

Lemma wrote_send_if_attached msg s :
  wrote_to_attached s (send_if_attached msg s) ∧
  _webview (send_if_attached msg s) = _webview s.
Proof.
  unfold send_if_attached. destruct (_webview s) as [w|] eqn:Hw.
  - split; [|done]. exists [(w, JStr "command" :: msg)]. split; [done|].
    by repeat constructor.
  - split; [|done]. by apply wrote_nothing.
Qed.

Lemma wrote_send_if_attached_after msg s s1 :
  wrote_to_attached s s1 ∧ _webview s1 = _webview s →
  wrote_to_attached s (send_if_attached msg s1) ∧
  _webview (send_if_attached msg s1) = _webview s.
Proof.
  intros [H1 H2]. destruct (wrote_send_if_attached msg s1) as [H3 H4].
  split; [|congruence]. by eapply wrote_to_attached_trans.
Qed.

Lemma webview_step_result out r s : _webview (step_result out r s) = _webview s.
Proof. destruct r; simpl; by rewrite ?webview_settle, ?webview_then. Qed.

Lemma sent_step_result out r s : sent (step_result out r s) = sent s.
Proof. destruct r; simpl; by rewrite ?sent_settle, ?sent_then. Qed.

Lemma wrote_cachedSendCommand t c args s :
  wrote_to_attached s (_cachedSendCommand t c args s).2 ∧
  _webview (_cachedSendCommand t c args s).2 = _webview s.
Proof.
  unfold _cachedSendCommand, _asyncToGenerator. cbn [new_promise].
  set (s1 := set_runtime _ _ _ s).
  assert (sent s1 = sent s ∧ _webview s1 = _webview s) as [Hs Hw] by done.
  unfold _cachedSendCommand_body. rewrite Hw.
  destruct (_webview s) as [w|] eqn:Hw'.
  2:{ cbn [snd]. rewrite webview_step_result. split; [|done].
      apply wrote_nothing. by rewrite sent_step_result. }
  destruct (hd JUndefined args) as [| | |v| |];
    try (cbn [snd]; rewrite webview_step_result; split; [|done];
         apply wrote_nothing; by rewrite sent_step_result).
  destruct (get_table t s1 !! v) as [d|].
  { cbn [snd]. rewrite webview_step_result. split; [|done].
    apply wrote_nothing. by rewrite sent_step_result. }
  unfold Deferred_new. cbn [new_promise snd].
  rewrite webview_step_result. split; [|by destruct t].
  exists [(w, JStr "command" :: JStr c :: args)].
  rewrite sent_step_result. simpl. rewrite sent_set_table. split; [done|].
  rewrite Hw'. by repeat constructor.
Qed.

Lemma wrote_evaluate (k : ref → cont) t c args s :
  let r := _asyncToGenerator (λ s,
             let '(p, s) := _cachedSendCommand t c args s in
             (Yield p k, s)) s in
  wrote_to_attached s r.2 ∧ _webview r.2 = _webview s.
Proof.
  cbv zeta. unfold _asyncToGenerator. cbn [new_promise].
  set (s1 := set_runtime _ _ _ s).
  destruct (wrote_cachedSendCommand t c args s1) as [(l & Hl & F) Hw].
  destruct (_cachedSendCommand t c args s1) as [p s2].
  cbn [fst snd step_result] in *.
  rewrite webview_then. split; [|done].
  exists l. by rewrite sent_then.
Qed.

Lemma sent_run_job j s : sent (run_job j s) = sent s.
Proof.
  unfold run_job. pose proof (sent_resume j.1 j.2 s) as H.
  destruct (resume j.1 j.2 s) as [r s']. simpl in H.
  by rewrite sent_step_result.
Qed.

Lemma webview_run_job j s : _webview (run_job j s) = _webview s.
Proof.
  unfold run_job. pose proof (webview_resume j.1 j.2 s) as H.
  destruct (resume j.1 j.2 s) as [r s']. simpl in H.
  by rewrite webview_step_result.
Qed.

Lemma sent_run_microtask s s' :
  run_microtask s = Some s' → sent s' = sent s ∧ _webview s' = _webview s.
Proof.
  unfold run_microtask. destruct (microtasks s) as [|j q]; [done|].
  intros [= <-]. by rewrite sent_run_job, webview_run_job.
Qed.

Lemma sent_drain n s : sent (drain n s) = sent s ∧ _webview (drain n s) = _webview s.
Proof.
  revert s. induction n as [|n IH]; intros s; [done|]. simpl.
  destruct (run_microtask s) as [s'|] eqn:E; [|done].
  destruct (sent_run_microtask s s' E) as [<- <-]. apply IH.
Qed.

Lemma sent_handleResponseForPendingRequest pending response key s s' :
  _handleResponseForPendingRequest pending response key s = Normal s' →
  sent s' = sent s ∧ _webview s' = _webview s.
Proof.
  unfold _handleResponseForPendingRequest, Deferred_resolve, Deferred_reject.
  intros H. repeat case_match; simplify_eq;
    by rewrite ?sent_settle, ?webview_settle.
Qed.




Lemma handleResponseForPendingRequest_object t fields key s :
  _handleResponseForPendingRequest t (JObj fields) (JStr key) s
  = Normal (match get_table t s !! key with
            | Some d => settle d (settlement (assoc "result" fields)
                                    (assoc "error" fields)) s
            | None => s
            end).
Proof.
  unfold _handleResponseForPendingRequest, settlement, Deferred_resolve,
    Deferred_reject. simpl.
  destruct (get_table t s !! key); [|done]. by destruct (nullish _).
Qed.

Lemma response_completes t key d fields s :
  wf s →
  get_table t s !! key = Some d →
  let s' := settle d (settlement (assoc "result" fields) (assoc "error" fields)) s in
  get_table t (run_microtasks s') !! key = None ∧
  ∀ c p, (d, K_cachedSendCommand t c key p) ∈ waiting s →
    heap (run_microtasks s') !! p
      = Some (Some (Fulfilled (if nullish (assoc "error" fields)
                               then assoc "result" fields else JNull))) ∧
    (nullish (assoc "error" fields) = false →
     (c +:+ ": Error getting result.", assoc "error" fields)
       ∈ warnings (run_microtasks s')).
Proof.
  intros W Ht s'. destruct (wf_entry_pending s t key d W Ht) as [Hd _].
  assert (wf_core s') as W' by (eapply wf_core_settle_entry; [apply W|done]).
  split.
  - destruct (get_table t (run_microtasks s') !! key) as [d'|] eqn:E; [|done].
    destruct (wf_entry_pending _ t key d' (wf_run_microtasks s' W') E) as [Hp _].
    apply get_table_drain_incl in E. unfold s' in E.
    rewrite get_table_settle, Ht in E. injection E as <-.
    unfold run_microtasks in Hp. erewrite heap_drain_stable in Hp; [done|].
    unfold s'. by rewrite heap_settle, decide_True, Hd.
  - intros c p Hw.
    assert ((K_cachedSendCommand t c key p,
             settlement (assoc "result" fields) (assoc "error" fields))
              ∈ microtasks s') as Hj by (by apply microtasks_settle_moved).
    split.
    + rewrite <-job_outcome_send with (t := t) (c := c) (v := key) (p := p).
      by apply (run_microtasks_job _ (K_cachedSendCommand t c key p)).
    + intros He. unfold settlement in Hj. rewrite He in Hj.
      by eapply drain_job_warns.
Qed.

Lemma same_waiter_drain_other n d t key t' key' s :
  wf_core s → jobs_for t key s → t' ≠ t ∨ key' ≠ key →
  get_table t' s !! key' = Some d → same_waiter d s (drain n s).
Proof.
  revert s. induction n as [|n IH]; intros s W J Hne Ht; simpl; [done|].
  destruct (run_microtask s) as [s'|] eqn:E; [|done].
  destruct (same_waiter_run_microtask d t' key' s s' W Ht E) as [H1 H2].
  destruct (IH s') as [H3 H4];
    eauto using wf_core_run_microtask, jobs_for_run_microtask.
  - by rewrite (get_table_run_microtask_other t key s s') by auto.
  - split; congruence.
Qed.

Section Further.

Variable normalizeRemoteObjectValue : jsval → jsval.

Local Abbreviation reachable := (reachable normalizeRemoteObjectValue).
Local Abbreviation step := (step normalizeRemoteObjectValue).

(** X1 (entries are awaited).  Between the steps of the bridge every entry
    of a pending table is an unsettled waiter, a call of
    [_cachedSendCommand] for that table and key is suspended on it, and the
    waiter is stored nowhere else. *)
Theorem entries_are_awaited t key d s :
  reachable s →
  get_table t s !! key = Some d →
  heap s !! d = Some None ∧
  (∃ c o, (d, K_cachedSendCommand t c key o) ∈ waiting s) ∧
  (∀ t' key', get_table t' s !! key' = Some d → t' = t ∧ key' = key).
Proof.
  intros R Ht. pose proof (reachable_wf _ s R) as W.
  destruct (wf_entry_pending s t key d W Ht) as [Hd Hw].
  split_and!; [done..|].
  intros t' key' Ht'. by destruct (wf_table_inj s (proj1 W) _ _ _ _ _ Ht' Ht).
Qed.

(** X2 (the key of a send is asserted to be a string).  With a webview
    attached, a send whose first argument after the command is missing or is
    not a string fails the assertion of line 395: its promise is rejected at
    once, and nothing is stored, registered or written. *)
Theorem send_asserts_string_key t c args w s :
  reachable s →
  _webview s = Some w →
  (∀ v, hd JUndefined args ≠ JStr v) →
  let '(p, s') := _cachedSendCommand t c args s in
  heap s !! p = None ∧
  heap s' !! p = Some (Some (Rejected AssertionError)) ∧
  sent s' = sent s ∧
  (∀ t', get_table t' s' = get_table t' s) ∧
  waiting s' = waiting s ∧
  microtasks s' = microtasks s.
Proof.
  intros R Hw Hv. pose proof (reachable_wf _ s R) as [W _].
  rewrite (cachedSendCommand_not_string t c args w s W Hw Hv).
  split_and!; try done.
  - by apply lookup_ge_None_2.
  - simpl. rewrite lookup_app_r by done. by rewrite Nat.sub_diag.
Qed.

(** X3 (a pending request outlives cleanup).  A request that is pending when
    [cleanup] is called stays in its table.  Once another webview is
    attached, a send for the same key writes nothing to it and waits for the
    old waiter. *)
Theorem pending_request_outlives_cleanup t key d c rest w' s :
  reachable s →
  get_table t s !! key = Some d →
  let '(p, s') := _cachedSendCommand t c (JStr key :: rest)
                    (setWebviewElement w' (cleanup s)) in
  _webview s' = Some w' ∧
  sent s' = sent s ∧
  (∀ t', get_table t' s' = get_table t' s) ∧
  heap s' !! d = Some None ∧
  heap s' !! p = Some None ∧
  (d, K_cachedSendCommand t c key p) ∈ waiting s'.
Proof.
  intros R Ht. pose proof (reachable_wf _ s R) as W.
  destruct (wf_entry_pending s t key d W Ht) as [Hd _].
  rewrite (cachedSendCommand_reuse_pending t c (JStr key :: rest) w' key d
             (setWebviewElement w' (cleanup s)));
    [|done|done|unfold setWebviewElement, cleanup;
      by rewrite !get_table_set_webview|done].
  split_and!; try done.
  - simpl. by apply lookup_app_l_Some.
  - simpl. rewrite lookup_app_r by done. by rewrite Nat.sub_diag.
  - simpl. rewrite elem_of_app, list_elem_of_singleton. auto.
Qed.

Lemma wrote_handleIpcMessage m e s s' :
  _handleIpcMessage normalizeRemoteObjectValue m e s = Normal s' →
  wrote_to_attached s s' ∧ _webview s' = _webview s.
Proof.
  destruct (handleIpcMessage_cases normalizeRemoteObjectValue m e s)
    as [->|[->|[->|[->|[->| ->]]]]].
  - intros [= <-]. unfold _syncDebuggerState, _sendAllBreakpoints,
      _updateDebuggerSettings, setSingleThreadStepping,
      setPauseOnCaughtException, setPauseOnException.
    repeat apply wrote_send_if_attached_after.
    split; [by apply wrote_nothing|done].
  - intros [= <-]. unfold _handleDebuggerPaused.
    split; [|by rewrite webview_set_table].
    apply wrote_nothing. by rewrite sent_set_table.
  - intros (r & k & H)%handleExpressionEvaluationResponse_inv.
    apply sent_handleResponseForPendingRequest in H as [H1 H2].
    split; [by apply wrote_nothing|done].
  - intros (k & H)%handleGetPropertiesResponse_inv.
    apply sent_handleResponseForPendingRequest in H as [H1 H2].
    split; [by apply wrote_nothing|done].
  - intros [= <-]. split; [by apply wrote_nothing|done].
  - done.
Qed.

(** X4 (messages go to the attached webview).  Whatever the bridge does in
    one step, the messages it writes go to the webview that was attached
    when the step began, on the channel ['command'], and are added after the
    messages written before.  So a bridge without a webview writes nothing. *)
Theorem writes_go_to_attached_webview s s' :
  step s s' →
  wrote_to_attached s s' ∧
  (_webview s = None → sent s' = sent s).
Proof.
  intros H.
  assert (wrote_to_attached s s') as Hwr.
  { destruct H.
    - by apply wrote_nothing.
    - by apply wrote_nothing.
    - by apply wrote_nothing.
    - apply wrote_send_if_attached.
    - apply wrote_cachedSendCommand.
    - apply wrote_cachedSendCommand.
    - apply (wrote_evaluate (K_evaluateOnSelectedCallFrame expression)).
    - unfold evaluateConsoleExpression. case_match;
        [apply (wrote_evaluate (K_evaluateOnSelectedCallFrame expression))
        |apply (wrote_evaluate (K_runtimeEvaluate expression))].
    - apply wrote_nothing. by apply sent_run_microtask.
    - destruct (wrote_handleIpcMessage _ _ _ _ H) as [(l & Hl & F) Hw].
      exists l. split; [|done]. unfold run_microtasks.
      by rewrite (proj1 (sent_drain _ _)).
    - apply sent_handleResponseForPendingRequest in H as [H1 H2].
      apply wrote_nothing. unfold run_microtasks.
      by rewrite (proj1 (sent_drain _ _)). }
  split; [done|]. intros Hw. destruct Hwr as (l & -> & F).
  destruct l as [|m l]; [by rewrite app_nil_r|].
  apply Forall_cons in F as [[F _] _]. congruence.
Qed.


(** X6 (an expression response answers the sends).  An
    ['ExpressionEvaluationResponse'] notification whose payload names an
    expression that has an entry settles the entry with the normalized
    result, or with the error when there is one.  At the end of the
    checkpoint the entry is gone and every send that waited for it is
    fulfilled: with the normalized result, or with [null] and a warning in
    the log when the payload carried an error. *)
Theorem expression_response_answers_sends m fields rest key d s :
  reachable s →
  get_table ExpressionsInFlight s !! key = Some d →
  assoc "expression" fields = JStr key →
  ∃ s',
    _handleIpcMessage normalizeRemoteObjectValue m
      {| channel := "notification";
         args := JStr "ExpressionEvaluationResponse" :: JObj fields :: rest |} s
      = Normal s' ∧
    heap s' !! d
      = Some (Some (settlement
                      (normalizeRemoteObjectValue (assoc "result" fields))
                      (assoc "error" fields))) ∧
    get_table ExpressionsInFlight (run_microtasks s') !! key = None ∧
    ∀ c p, (d, K_cachedSendCommand ExpressionsInFlight c key p) ∈ waiting s →
      heap (run_microtasks s') !! p
        = Some (Some (Fulfilled
            (if nullish (assoc "error" fields)
             then normalizeRemoteObjectValue (assoc "result" fields)
             else JNull))) ∧
      (nullish (assoc "error" fields) = false →
       (c +:+ ": Error getting result.", assoc "error" fields)
         ∈ warnings (run_microtasks s')).
Proof.
  intros R Ht He. pose proof (reachable_wf _ s R) as W.
  destruct (wf_entry_pending s _ key d W Ht) as [Hd _].
  set (fields' := ("result", normalizeRemoteObjectValue (assoc "result" fields))
                    :: fields).
  assert (assoc "error" fields' = assoc "error" fields) as Herr by done.
  assert (assoc "result" fields'
            = normalizeRemoteObjectValue (assoc "result" fields)) as Hres by done.
  exists (settle d (settlement (assoc "result" fields') (assoc "error" fields')) s).
  split_and!.
  - change (_handleIpcMessage _ _ _ s) with
      (_handleExpressionEvaluationResponse normalizeRemoteObjectValue
         (JObj fields) s).
    unfold _handleExpressionEvaluationResponse.
    cbn [get_prop set_prop]. fold fields'.
    change (assoc "expression" fields') with (assoc "expression" fields).
    rewrite He, handleResponseForPendingRequest_object. by rewrite Ht.
  - rewrite Herr, Hres. by rewrite heap_settle, decide_True, Hd.
  - apply (response_completes _ key d fields' s W Ht).
  - rewrite <-Herr, <-Hres. apply (response_completes _ key d fields' s W Ht).
Qed.

(** X7 (a properties response answers the sends).  A
    ['GetPropertiesResponse'] notification whose payload names an object id
    that has an entry settles the entry with the result as it came, or with
    the error when there is one.  At the end of the checkpoint the entry is
    gone and every send that waited for it is fulfilled with the result, or
    with [null] when the payload carried an error. *)
Theorem properties_response_answers_sends m fields rest key d s :
  reachable s →
  get_table GetPropertiesRequestsInFlight s !! key = Some d →
  assoc "objectId" fields = JStr key →
  ∃ s',
    _handleIpcMessage normalizeRemoteObjectValue m
      {| channel := "notification";
         args := JStr "GetPropertiesResponse" :: JObj fields :: rest |} s
      = Normal s' ∧
    heap s' !! d
      = Some (Some (settlement (assoc "result" fields) (assoc "error" fields))) ∧
    get_table GetPropertiesRequestsInFlight (run_microtasks s') !! key = None ∧
    ∀ c p,
      (d, K_cachedSendCommand GetPropertiesRequestsInFlight c key p) ∈ waiting s →
      heap (run_microtasks s') !! p
        = Some (Some (Fulfilled
            (if nullish (assoc "error" fields) then assoc "result" fields
             else JNull))) ∧
      (nullish (assoc "error" fields) = false →
       (c +:+ ": Error getting result.", assoc "error" fields)
         ∈ warnings (run_microtasks s')).
Proof.
  intros R Ht He. pose proof (reachable_wf _ s R) as W.
  destruct (wf_entry_pending s _ key d W Ht) as [Hd _].
  exists (settle d (settlement (assoc "result" fields) (assoc "error" fields)) s).
  split_and!.
  - change (_handleIpcMessage _ _ _ s) with
      (_handleGetPropertiesResponse (JObj fields) s).
    unfold _handleGetPropertiesResponse. cbn [get_prop].
    rewrite He, handleResponseForPendingRequest_object. by rewrite Ht.
  - by rewrite heap_settle, decide_True, Hd.
  - apply (response_completes _ key d fields s W Ht).
  - apply (response_completes _ key d fields s W Ht).
Qed.

(** X8 (a response without payload throws).  The two response notifications
    read their payload before they look at a table: without a payload
    ([null], [undefined] or no second argument) handling them throws a
    [TypeError]; with any other payload it returns normally. *)
Theorem response_without_payload_throws m name rest s :
  name = "ExpressionEvaluationResponse" ∨ name = "GetPropertiesResponse" →
  let r := _handleIpcMessage normalizeRemoteObjectValue m
             {| channel := "notification"; args := JStr name :: rest |} s in
  (nullish (hd JUndefined rest) = true → r = Throw TypeError) ∧
  (nullish (hd JUndefined rest) = false → ∃ s', r = Normal s').
Proof.
  intros [-> | ->]; cbv zeta.
  - change (_handleIpcMessage _ _ _ s) with
      (_handleExpressionEvaluationResponse normalizeRemoteObjectValue
         (nth 1 (JStr "ExpressionEvaluationResponse" :: rest) JUndefined) s).
    replace (nth 1 (JStr "ExpressionEvaluationResponse" :: rest) JUndefined)
      with (hd JUndefined rest) by (by destruct rest).
    unfold _handleExpressionEvaluationResponse, _handleResponseForPendingRequest.
    destruct (hd JUndefined rest) as [| |b|v|l|fields]; simpl;
      split; try done; intros _; repeat case_match; eauto; try done.
  - change (_handleIpcMessage _ _ _ s) with
      (_handleGetPropertiesResponse
         (nth 1 (JStr "GetPropertiesResponse" :: rest) JUndefined) s).
    replace (nth 1 (JStr "GetPropertiesResponse" :: rest) JUndefined)
      with (hd JUndefined rest) by (by destruct rest).
    unfold _handleGetPropertiesResponse, _handleResponseForPendingRequest.
    destruct (hd JUndefined rest) as [| |b|v|l|fields]; simpl;
      split; try done; intros _; repeat case_match; eauto; try done.
Qed.

(** X9 (a pause makes evaluations fresh).  When ['NonLoaderDebuggerPaused']
    has been handled, no expression has an entry any more: the next
    evaluation of any expression writes its command, whether or not the same
    expression was in flight before, and waits for a waiter that did not
    exist before. *)
Theorem pause_makes_evaluations_fresh m e c key rest w s :
  reachable s →
  _webview s = Some w →
  channel e = "notification" →
  hd JUndefined (args e) = JStr "NonLoaderDebuggerPaused" →
  ∃ s1,
    _handleIpcMessage normalizeRemoteObjectValue m e s = Normal s1 ∧
    let '(p, s2) := _cachedSendCommand ExpressionsInFlight c (JStr key :: rest)
                      (run_microtasks s1) in
    sent s2 = sent s ++ [(w, JStr "command" :: JStr c :: JStr key :: rest)] ∧
    ∃ d, get_table ExpressionsInFlight s2 !! key = Some d ∧
         heap s !! d = None ∧
         (d, K_cachedSendCommand ExpressionsInFlight c key p) ∈ waiting s2.
Proof.
  intros R Hw Hc Ha. exists (_handleDebuggerPaused s).
  split; [unfold _handleIpcMessage; by rewrite Hc, Ha|].
  set (s' := run_microtasks (_handleDebuggerPaused s)).
  assert (sent s' = sent s ∧ _webview s' = Some w) as [Hs Hw'].
  { unfold s', run_microtasks. destruct (sent_drain
      (length (microtasks (_handleDebuggerPaused s))
       + length (waiting (_handleDebuggerPaused s))) (_handleDebuggerPaused s))
      as [-> ->]. done. }
  assert (get_table ExpressionsInFlight s' !! key = None) as Ht.
  { destruct (get_table ExpressionsInFlight s' !! key) as [d|] eqn:E; [|done].
    apply get_table_drain_incl in E. done. }
  assert (length (heap s) ≤ length (heap s')) as Hlen.
  { destruct (extends_drain
      (length (microtasks (_handleDebuggerPaused s))
       + length (waiting (_handleDebuggerPaused s))) (_handleDebuggerPaused s))
      as (Hh & _).
    destruct (decide (length (heap s) ≤ length (heap s'))); [done|].
    destruct (lookup_lt_is_Some_2 (heap s) (length (heap s'))) as [x Hx]; [lia|].
    destruct (Hh _ _ Hx) as (y & Hy%lookup_lt_Some & _).
    unfold s', run_microtasks in *. lia. }
  rewrite (cachedSendCommand_new _ c (JStr key :: rest) w key s' Hw' eq_refl Ht).
  split; [simpl; by rewrite Hs|].
  exists (S (length (heap s'))). split_and!.
  - rewrite get_table_send, get_set_table. apply lookup_insert_eq.
  - apply lookup_ge_None_2. lia.
  - simpl. rewrite elem_of_app, list_elem_of_singleton. auto.
Qed.

(** X10 (suspended until settled).  A call that is suspended on a promise
    stays suspended for as long as that promise is pending, whatever the
    bridge does meanwhile, [cleanup] and a pause included: its registration
    stays and the promise it returned stays pending. *)
Theorem suspended_until_settled p k s s' :
  reachable s →
  (p, k) ∈ waiting s →
  rtc step s s' →
  heap s' !! p = Some None →
  (p, k) ∈ waiting s' ∧ heap s' !! target k = Some None.
Proof.
  intros R Hk Hs Hp. pose proof (reachable_wf _ s R) as W.
  pose proof (wf_steps _ _ _ W Hs) as [W' _].
  pose proof (extends_steps _ _ _ Hs) as (_ & Hww & _).
  assert ((p, k) ∈ waiting s') as Hk'.
  { destruct (Hww _ Hk) as [?|[r Hr]]; [done|]. simpl in Hr. congruence. }
  split; [done|]. apply (wf_targets_pending s' W' k). by eapply live_waiting.
Qed.

(** X21 (a delivery touches one key).  Delivering a response for a key of a
    table settles the waiter of that key and nothing else: at the end of the
    checkpoint that follows, every other entry, in the same table or in the
    other, is still there, its waiter is still pending, and the
    registrations on that waiter are as they were. *)
Theorem delivery_touches_one_key t key d result error s :
  reachable s →
  get_table t s !! key = Some d →
  ∃ s1,
    deliver t key result error s = Normal s1 ∧
    heap s1 !! d = Some (Some (settlement result error)) ∧
    ∀ t' key' d',
      t' ≠ t ∨ key' ≠ key →
      get_table t' s !! key' = Some d' →
      d' ≠ d ∧
      get_table t' (run_microtasks s1) !! key' = Some d' ∧
      heap (run_microtasks s1) !! d' = Some None ∧
      same_waiter d' s (run_microtasks s1).
Proof.
  intros R Ht. pose proof (reachable_wf _ s R) as W.
  destruct (wf_entry_pending s t key d W Ht) as [Hd _].
  set (s1 := settle d (settlement result error) s).
  assert (wf_core s1) as W1 by (eapply wf_core_settle_entry; [apply W|done]).
  assert (jobs_for t key s1) as J1 by (by apply jobs_for_settle_entry).
  exists s1. split_and!.
  - by rewrite deliver_unfold, Ht.
  - unfold s1. by rewrite heap_settle, decide_True, Hd.
  - intros t' key' d' Hne Ht'.
    destruct (wf_entry_pending s t' key' d' W Ht') as [Hd' _].
    assert (d' ≠ d) as Hdd.
    { intros ->. destruct (wf_table_inj s (proj1 W) _ _ _ _ _ Ht Ht') as [-> ->].
      by destruct Hne. }
    assert (same_waiter d' s s1) as [S1 S1'] by (by apply same_waiter_settle).
    assert (get_table t' s1 !! key' = Some d') as Ht1
      by (unfold s1; by rewrite get_table_settle).
    destruct (same_waiter_drain_other
                (length (microtasks s1) + length (waiting s1))
                d' t key t' key' s1 W1 J1 Hne Ht1) as [S2 S2'].
    split_and!; [done| | |].
    + unfold run_microtasks.
      by rewrite (get_table_drain_other _ t key s1 t' key') by done.
    + unfold run_microtasks. by rewrite S2, S1.
    + split; unfold run_microtasks; congruence.
Qed.

End Further.

(** ** The Clang linter *)

Section ClangFacts.

Import ClangLinter.

Lemma process_diagnostic_hidden editor d result :
  ¬ shown d → process_diagnostic editor d result = Normal result.
Proof.
  unfold shown, process_diagnostic. intros H.
  by rewrite (proj2 (Z.ltb_lt _ _)) by lia.
Qed.

Lemma process_diagnostic_shown editor d result :
  shown d →
  (without_first_range d ∧ process_diagnostic editor d result = Throw TypeError) ∨
  (¬ without_first_range d ∧
   ∃ m, process_diagnostic editor d result = Normal (result ++ [m]) ∧
        reports editor d m).
Proof.
  unfold shown, process_diagnostic, without_first_range. intros H.
  rewrite (proj2 (Z.ltb_ge _ _)) by lia.
  destruct (ranges d) as [[|first rs]|] eqn:E.
  - by left.
  - right. split; [done|]. eexists. split; [done|].
    unfold reports. simpl. split_and!; try done.
    + case_decide; [by rewrite (proj2 (Z.eqb_eq _ _))|
                    by rewrite (proj2 (Z.eqb_neq _ _))].
    + destruct (children d); [|done]. simpl. by rewrite <-list_fmap_compose.
    + by destruct (fixits d) as [[|]|].
  - right. split; [done|]. eexists. split; [done|].
    unfold reports. simpl. split_and!; try done.
    + case_decide; [by rewrite (proj2 (Z.eqb_eq _ _))|
                    by rewrite (proj2 (Z.eqb_neq _ _))].
    + destruct (children d); [|done]. simpl. by rewrite <-list_fmap_compose.
    + by destruct (fixits d) as [[|]|].
Qed.

Lemma forEach_Normal editor ds acc msgs :
  forEach editor ds acc = Normal msgs →
  ¬ Exists (λ d, shown d ∧ without_first_range d) ds ∧
  ∃ new, msgs = acc ++ new ∧ Forall2 (reports editor) (filter shown ds) new.
Proof.
  revert acc. induction ds as [|d ds IH]; intros acc; simpl.
  - intros [= <-]. split; [by intros ?%Exists_nil|].
    exists []. by rewrite app_nil_r.
  - destruct (decide (shown d)) as [Hs|Hs].
    + destruct (process_diagnostic_shown editor d acc Hs)
        as [[Hw ->]|[Hw (m & -> & Hm)]]; [done|].
      intros (Hno & new & -> & Hnew)%IH. split.
      * rewrite Exists_cons. tauto.
      * exists (m :: new). rewrite <-app_assoc. split; [done|].
        rewrite filter_cons_True by done. by constructor.
    + rewrite process_diagnostic_hidden by done.
      intros (Hno & new & -> & Hnew)%IH. split.
      * rewrite Exists_cons. tauto.
      * exists new. split; [done|]. by rewrite filter_cons_False.
Qed.

Lemma forEach_Throw editor ds acc e :
  forEach editor ds acc = Throw e →
  e = TypeError ∧ Exists (λ d, shown d ∧ without_first_range d) ds.
Proof.
  revert acc. induction ds as [|d ds IH]; intros acc; simpl; [done|].
  destruct (decide (shown d)) as [Hs|Hs].
  - destruct (process_diagnostic_shown editor d acc Hs)
      as [[Hw ->]|[Hw (m & -> & Hm)]].
    + intros [= <-]. split; [done|]. by left.
    + intros [-> H]%IH. split; [done|]. by right.
  - rewrite process_diagnostic_hidden by done.
    intros [-> H]%IH. split; [done|]. by right.
Qed.

Lemma processDiagnostics_enabled dd data editor :
  enabled dd data →
  _processDiagnostics dd data editor = forEach editor (diagnostics data) [].
Proof.
  unfold enabled, _processDiagnostics. intros [H| ->].
  - by rewrite bool_decide_eq_true_2.
  - by rewrite orb_true_r.
Qed.

Lemma processDiagnostics_disabled dd data editor :
  ¬ enabled dd data →
  ∃ m, _processDiagnostics dd data editor = Normal [m] ∧
       text m = DEFAULT_FLAGS_WARNING ∧ type m = "Warning" ∧
       range m = rangeForRow editor 0 ∧ filePath m = buffer_getPath editor.
Proof.
  unfold enabled, _processDiagnostics. intros H.
  rewrite bool_decide_eq_false_2 by tauto.
  destruct dd; [tauto|]. simpl. eauto 10.
Qed.

(** X11 (the messages report the shown diagnostics).  When diagnostics
    are processed and [_processDiagnostics] returns, its messages are, in
    the order of the diagnostics, one for each diagnostic of severity 2 or
    more: with its spelling, ['Warning'] for severity 2 and ['Error'] above,
    its file or else the path of the buffer, one trace for each child, and a
    fix from the first fix-it alone. *)
Theorem processDiagnostics_reports_shown dd data editor msgs :
  enabled dd data →
  _processDiagnostics dd data editor = Normal msgs →
  Forall2 (reports editor) (filter shown (diagnostics data)) msgs.
Proof.
  intros He. rewrite processDiagnostics_enabled by done.
  intros (_ & new & -> & H)%forEach_Normal. done.
Qed.

(** X12 (a diagnostic without a first range).  [_processDiagnostics]
    throws exactly when diagnostics are processed and one of severity 2 or
    more has an array of ranges without elements; fix-its without elements
    and diagnostics below severity 2 never make it throw. *)
Theorem processDiagnostics_throws dd data editor :
  (∃ e, _processDiagnostics dd data editor = Throw e) ↔
  enabled dd data ∧
  Exists (λ d, shown d ∧ without_first_range d) (diagnostics data).
Proof.
  split.
  - intros [e H]. destruct (decide (dd = true ∨ accurateFlags data = Some true))
      as [He|He].
    + assert (enabled dd data) as He' by (unfold enabled; tauto).
      split; [done|]. rewrite processDiagnostics_enabled in H by done.
      by apply forEach_Throw in H as [_ H].
    + destruct (processDiagnostics_disabled dd data editor) as (m & Hm & _).
      { unfold enabled. tauto. }
      congruence.
  - intros [He Hex]. rewrite processDiagnostics_enabled by done.
    destruct (forEach editor (diagnostics data) []) as [msgs|e] eqn:E; [|eauto].
    by apply forEach_Normal in E as [E _].
Qed.

Lemma shows_atomRangeFromSourceRange editor r :
  shows_source_range editor r (atomRangeFromSourceRange editor r).
Proof.
  unfold shows_source_range, unbounded_or_empty, atomRangeFromSourceRange.
  destruct (Z.eqb_spec (line (end_ r)) (-1)); simpl; [tauto|].
  destruct (Z.eqb_spec (line (start r)) (line (end_ r))); simpl; [|tauto].
  destruct (Z.eqb_spec (column (start r)) (column (end_ r))); tauto.
Qed.

Lemma process_diagnostic_ranges editor d result :
  shown d → ¬ without_first_range d →
  ∃ m, process_diagnostic editor d result = Normal (result ++ [m]) ∧
       ranges_follow editor d m.
Proof.
  unfold shown, process_diagnostic, without_first_range, ranges_follow.
  intros H Hw. rewrite (proj2 (Z.ltb_ge _ _)) by lia.
  destruct (ranges d) as [[|first rs]|] eqn:E; [done|..];
    (eexists; split; [done|]; simpl; split_and!;
     [auto using shows_atomRangeFromSourceRange
     |destruct (children d); [|done]; simpl; by rewrite <-list_fmap_compose
     |destruct (fixits d) as [[|fixit ?]|]; simpl;
      auto using shows_atomRangeFromSourceRange]).
Qed.

Lemma forEach_ranges editor ds acc msgs :
  forEach editor ds acc = Normal msgs →
  ∃ new, msgs = acc ++ new ∧ Forall2 (ranges_follow editor) (filter shown ds) new.
Proof.
  revert acc. induction ds as [|d ds IH]; intros acc; simpl.
  - intros [= <-]. exists []. by rewrite app_nil_r.
  - destruct (decide (shown d)) as [Hs|Hs].
    + destruct (process_diagnostic_shown editor d acc Hs)
        as [[Hw ->]|[Hw _]]; [done|].
      destruct (process_diagnostic_ranges editor d acc Hs Hw) as (m & -> & Hm).
      intros (new & -> & Hnew)%IH.
      exists (m :: new). rewrite <-app_assoc. split; [done|].
      rewrite filter_cons_True by done. by constructor.
    + rewrite process_diagnostic_hidden by done.
      intros (new & -> & Hnew)%IH.
      exists new. split; [done|]. by rewrite filter_cons_False.
Qed.

Lemma atomRangeFromLocation_alike editor editor' loc :
  alike_from_row_0 editor editor' →
  atomRangeFromLocation editor loc = atomRangeFromLocation editor' loc.
Proof.
  intros (_ & Hrow & Hword). unfold atomRangeFromLocation.
  destruct (Z.ltb_spec (line loc) 0); [by apply Hrow|].
  rewrite <-(Hword (line loc, column loc)) by done.
  destruct (wordAtPosition editor _); [done|]. by apply Hrow.
Qed.

Lemma atomRangeFromSourceRange_alike editor editor' r :
  alike_from_row_0 editor editor' →
  atomRangeFromSourceRange editor r = atomRangeFromSourceRange editor' r.
Proof.
  intros H. unfold atomRangeFromSourceRange.
  by rewrite (atomRangeFromLocation_alike editor editor' _ H).
Qed.

Lemma process_diagnostic_alike editor editor' d result :
  alike_from_row_0 editor editor' →
  process_diagnostic editor d result = process_diagnostic editor' d result.
Proof.
  intros H. unfold process_diagnostic.
  assert (buffer_getPath editor = buffer_getPath editor') as -> by apply H.
  case_match; [done|].
  replace (match children d with
           | Some children =>
               Some ((λ child,
                        {| trace_type := "Trace";
                           trace_text := child_spelling child;
                           trace_filePath :=
                             or_path (file (child_location child))
                                     (buffer_getPath editor');
                           trace_range :=
                             atomRangeFromLocation editor (child_location child) |})
                       <$> children)
           | None => None
           end)
    with (match children d with
          | Some children =>
              Some ((λ child,
                       {| trace_type := "Trace";
                          trace_text := child_spelling child;
                          trace_filePath :=
                            or_path (file (child_location child))
                                    (buffer_getPath editor');
                          trace_range :=
                            atomRangeFromLocation editor' (child_location child) |})
                      <$> children)
          | None => None
          end).
  2:{ destruct (children d) as [cs|]; [|done]. f_equal.
      apply list_fmap_ext. intros _ c _.
      by rewrite (atomRangeFromLocation_alike editor editor' _ H). }
  destruct (ranges d) as [[|first rs]|]; [done|..];
    rewrite ?(atomRangeFromSourceRange_alike editor editor' first H),
            ?(atomRangeFromLocation_alike editor editor' (location d) H);
    destruct (fixits d) as [[|fixit ?]|]; try done;
    by rewrite (atomRangeFromSourceRange_alike editor editor' _ H).
Qed.

Lemma forEach_alike editor editor' ds acc :
  alike_from_row_0 editor editor' →
  forEach editor ds acc = forEach editor' ds acc.
Proof.
  intros H. revert acc. induction ds as [|d ds IH]; intros acc; simpl; [done|].
  rewrite (process_diagnostic_alike editor editor' d acc H).
  destruct (process_diagnostic editor' d acc); [apply IH|done].
Qed.

(** X13 (where the ranges come from).  When diagnostics are processed and
    [_processDiagnostics] returns, the ranges of its messages follow, in
    order, those of the diagnostics of severity 2 or more: a first range or
    a fix-it range that has an end and an extent is copied corner by corner;
    one that ends in line -1 or is empty is replaced by the range for the
    point where it starts; every child gives the range for its location.
    And the editor is never asked about a negative row: an editor that
    answers alike for every row and point from row 0 on makes
    [_processDiagnostics] end in the same way, with the same messages or
    the same error, whether diagnostics are processed or not. *)
Theorem processDiagnostics_ranges_from_sources dd data editor :
  (∀ msgs,
     enabled dd data →
     _processDiagnostics dd data editor = Normal msgs →
     Forall2 (ranges_follow editor) (filter shown (diagnostics data)) msgs) ∧
  (∀ editor',
     alike_from_row_0 editor editor' →
     _processDiagnostics dd data editor' = _processDiagnostics dd data editor).
Proof.
  split.
  - intros msgs He. rewrite processDiagnostics_enabled by done.
    by intros (new & -> & H)%forEach_ranges.
  - intros editor' H. unfold _processDiagnostics.
    rewrite (forEach_alike editor editor' _ _ H).
    destruct H as (-> & Hrow & _). by rewrite (Hrow 0%Z).
Qed.

(** X14 (one diagnostic without a first range hides all).  When the
    fetch comes back with diagnostics of which one, of severity 2 or more,
    has an array of ranges without elements, [lint] is fulfilled with no
    message at all, whatever the other diagnostics are; the fetch is tracked
    and the [TypeError] is logged. *)
Theorem lint_malformed_hides_all dd editor data path :
  getPath editor = Some path → path ≠ "" →
  enabled dd data →
  Exists (λ d, shown d ∧ without_first_range d) (diagnostics data) →
  lint dd editor (Resolved (Some data)) false
  = (Normal [],
     {| tracked := [{| track_filePath := path;
                       count := length (diagnostics data);
                       track_accurateFlags := accurateFlags data |}];
        logged := [("ClangLinter: error linting " +:+ path, TypeError)] |}).
Proof.
  intros Hp Hne He Hex. unfold lint. rewrite Hp.
  destruct path as [|a path]; [done|].
  rewrite processDiagnostics_enabled by done.
  destruct (forEach editor (diagnostics data) []) as [msgs|e] eqn:E.
  - by apply forEach_Normal in E as [E _].
  - by apply forEach_Throw in E as [-> _].
Qed.

End ClangFacts.

(** ** The modal dialog and the native notifications *)

Section ModalFacts.

Import Modal.

Variable contains : nat → nat → bool.

Lemma iter_keeps_subscriptions (f : state → state) n s :
  (∀ s, _innerElement (f s) = _innerElement s ∧
        _cancelDisposable (f s) = _cancelDisposable s ∧
        undisposed (f s) = undisposed s ∧
        listening (f s) = listening s ∧
        made (f s) = made s) →
  _innerElement (Nat.iter n f s) = _innerElement s ∧
  _cancelDisposable (Nat.iter n f s) = _cancelDisposable s ∧
  undisposed (Nat.iter n f s) = undisposed s ∧
  listening (Nat.iter n f s) = listening s ∧
  made (Nat.iter n f s) = made s.
Proof.
  intros Hf. induction n as [|n IH]; [done|]. simpl.
  destruct (Hf (Nat.iter n f s)) as (-> & -> & -> & -> & ->). done.
Qed.

Lemma iter_handleWindowClick target n s :
  _innerElement (Nat.iter n (_handleWindowClick contains target) s) = _innerElement s ∧
  _cancelDisposable (Nat.iter n (_handleWindowClick contains target) s)
    = _cancelDisposable s ∧
  undisposed (Nat.iter n (_handleWindowClick contains target) s) = undisposed s ∧
  listening (Nat.iter n (_handleWindowClick contains target) s) = listening s ∧
  made (Nat.iter n (_handleWindowClick contains target) s) = made s.
Proof.
  apply iter_keeps_subscriptions. intros s0. unfold _handleWindowClick.
  destruct (_innerElement s0) as [e|] eqn:E; [|done].
  destruct (contains e target); [done|]. simpl. by rewrite E.
Qed.

Lemma iter_onDismiss n s :
  _innerElement (Nat.iter n onDismiss s) = _innerElement s ∧
  _cancelDisposable (Nat.iter n onDismiss s) = _cancelDisposable s ∧
  undisposed (Nat.iter n onDismiss s) = undisposed s ∧
  listening (Nat.iter n onDismiss s) = listening s ∧
  made (Nat.iter n onDismiss s) = made s.
Proof. by apply iter_keeps_subscriptions. Qed.

(** What the [ref] callback leaves of the subscriptions. *)
Lemma handleContainerInnerElement_subscriptions el s :
  modal_inv s →
  let s' := _handleContainerInnerElement el s in
  listening s' = [] ∧
  match el with
  | Some e =>
      _innerElement s' = Some e ∧ _cancelDisposable s' = Some (made s) ∧
      undisposed s' = [made s] ∧ made s' = S (made s)
  | None =>
      _innerElement s' = None ∧ _cancelDisposable s' = _cancelDisposable s ∧
      undisposed s' = [] ∧ made s' = made s
  end.
Proof.
  intros (H1 & H2 & H3). unfold _handleContainerInnerElement.
  set (s0 := match _cancelDisposable s with
             | Some d => dispose d s
             | None => s
             end).
  assert (undisposed s0 = [] ∧ listening s0 = []) as [Hu Hl].
  { unfold s0. destruct H1 as [[_ Hu]|(e & d & _ & Hd & Hu)].
    - rewrite Hu in H3.
      assert (listening s = []) as Hl.
      { destruct (listening s) as [|d l]; [done|].
        destruct (not_elem_of_nil d). apply H3. by left. }
      destruct (_cancelDisposable s); simpl; by rewrite Hu, Hl.
    - rewrite Hd. simpl. rewrite Hu in *.
      split; [by rewrite filter_cons_False by (intros H; by apply H)|].
      induction (listening s) as [|d' l IH]; [done|].
      assert (d' = d) as -> by (apply list_elem_of_singleton, H3; by left).
      rewrite filter_cons_False by (intros H; by apply H).
      apply IH. intros d' Hd'. apply H3. by right. }
  assert (made s0 = made s) as Hm
    by (unfold s0; by destruct (_cancelDisposable s)).
  assert (_cancelDisposable s0 = _cancelDisposable s) as Hc
    by (unfold s0; destruct (_cancelDisposable s) eqn:E; simpl; by rewrite ?E).
  clearbody s0. destruct el as [e|]; simpl; by rewrite Hu, Hm, Hl, ?Hc.
Qed.

Lemma modal_inv_step s s' : modal_inv s → step contains s s' → modal_inv s'.
Proof.
  intros Hinv H. destruct H as [el s|d s|target s|s].
  - pose proof (handleContainerInnerElement_subscriptions el s Hinv) as [Hl H].
    destruct Hinv as (H1 & H2 & H3). cbv zeta in Hl, H.
    unfold modal_inv, one_subscription. rewrite Hl.
    destruct el as [e|]; destruct H as (-> & -> & -> & ->).
    + split_and!.
      * right. by eexists _, _.
      * intros d [= <-]. lia.
      * by intros d Hd%elem_of_nil.
    + split_and!; [by left|done|]. by intros d Hd%elem_of_nil.
  - destruct Hinv as (H1 & H2 & H3). unfold interval_fires.
    case_bool_decide as Hd; [|done].
    split_and!; [done..|]. simpl. intros d' [->|Hd']%elem_of_cons; auto.
  - unfold window_click.
    destruct (iter_handleWindowClick target
                (length (filter (λ d, d ∈ listening s) (undisposed s))) s)
      as (E1 & E2 & E3 & E4 & E5).
    unfold modal_inv, one_subscription. by rewrite E1, E2, E3, E4, E5.
  - unfold core_cancel.
    destruct (iter_onDismiss (length (undisposed s)) s)
      as (E1 & E2 & E3 & E4 & E5).
    unfold modal_inv, one_subscription. by rewrite E1, E2, E3, E4, E5.
Qed.

Lemma modal_inv_steps s s' : rtc (step contains) s s' → modal_inv s → modal_inv s'.
Proof. induction 1; eauto using modal_inv_step. Qed.

Lemma reachable_modal_inv s : reachable contains s → modal_inv s.
Proof.
  intros H. apply (modal_inv_steps _ _ H). split_and!; [by left|done|].
  intros d Hd. by apply elem_of_nil in Hd.
Qed.

(** X17 (a modal has one subscription).  Whatever elements React hands
    to the [ref] callback and whatever is clicked, a [Modal] holds on to no
    subscription while it has no inner element, and to exactly one, the one
    in [_cancelDisposable], while it has one: every earlier one is
    disposed. *)
Theorem modal_has_one_subscription s :
  reachable contains s → one_subscription s.
Proof. by intros [H _]%reachable_modal_inv. Qed.

(** X18 (a modal is dismissed once, and not by the click that showed it).
    In every reachable state a click on the window calls [onDismiss] once if
    the modal has an inner element that does not contain the target and the
    subscription in [_cancelDisposable] is past its [skipUntil], and not at
    all otherwise.  So a click that comes right after the [ref] callback,
    before the timer of the new subscription has fired, changes nothing;
    once that timer has fired, a click outside the new element calls
    [onDismiss] once and a click inside it changes nothing.  The command
    ['core:cancel'] calls [onDismiss] once if there is an inner element and
    not at all otherwise. *)
Theorem modal_dismisses_once target s :
  reachable contains s →
  window_click contains target s
    = match _innerElement s with
      | Some inner =>
          if past_skipUntil s && negb (contains inner target)
          then onDismiss s else s
      | None => s
      end ∧
  (∀ el,
     let rendered := _handleContainerInnerElement el s in
     past_skipUntil rendered = false ∧
     window_click contains target rendered = rendered) ∧
  (∀ e,
     let rendered := _handleContainerInnerElement (Some e) s in
     let shown := interval_fires (made s) rendered in
     past_skipUntil shown = true ∧
     window_click contains target shown
       = if contains e target then shown else onDismiss shown) ∧
  core_cancel s
    = match _innerElement s with
      | Some _ => onDismiss s
      | None => s
      end.
Proof.
  intros R.
  assert (∀ s, modal_inv s →
            window_click contains target s
              = match _innerElement s with
                | Some inner =>
                    if past_skipUntil s && negb (contains inner target)
                    then onDismiss s else s
                | None => s
                end) as Hclick.
  { intros s0 ([[Hi Hu]|(e & d & Hi & Hd & Hu)] & _ & _);
      unfold window_click, past_skipUntil; rewrite Hu, Hi; [done|].
    rewrite Hd. case_bool_decide as Hl.
    - rewrite filter_cons_True by done. simpl.
      unfold _handleWindowClick. rewrite Hi. by destruct (contains e target).
    - by rewrite filter_cons_False by done. }
  pose proof (reachable_modal_inv s R) as Hinv.
  assert (∀ el, modal_inv (_handleContainerInnerElement el s)) as Hinv'.
  { intros el. eapply modal_inv_step; [done|apply step_ref]. }
  assert (∀ el, past_skipUntil (_handleContainerInnerElement el s)
                = false) as Hfresh.
  { intros el.
    pose proof (handleContainerInnerElement_subscriptions el s Hinv) as [Hl _].
    cbv zeta in Hl. unfold past_skipUntil. rewrite Hl.
    destruct (_cancelDisposable _); [|done].
    apply bool_decide_eq_false. by intros ?%elem_of_nil. }
  split_and!.
  - by apply Hclick.
  - intros el rendered. split; [apply Hfresh|].
    unfold rendered. rewrite (Hclick _ (Hinv' el)), Hfresh.
    by destruct (_innerElement _).
  - intros e rendered shown.
    pose proof (handleContainerInnerElement_subscriptions (Some e) s Hinv)
      as (Hl & Hi & Hc & Hu & Hm). fold rendered in Hl, Hi, Hc, Hu, Hm.
    assert (modal_inv shown) as Hs.
    { eapply modal_inv_step; [apply (Hinv' (Some e))|apply step_interval]. }
    assert (_innerElement shown = Some e ∧ past_skipUntil shown = true)
      as [Hi' Hp].
    { unfold shown, interval_fires, past_skipUntil. rewrite Hu.
      rewrite bool_decide_eq_true_2 by (by apply list_elem_of_singleton).
      cbn [_innerElement _cancelDisposable listening]. rewrite Hc.
      split; [done|]. apply bool_decide_eq_true. by left. }
    split; [done|]. rewrite (Hclick _ Hs), Hi', Hp.
    by destruct (contains e target).
  - destruct Hinv as ([[Hi Hu]|(e & d & Hi & Hd & Hu)] & _);
      unfold core_cancel; by rewrite Hu, Hi.
Qed.

End ModalFacts.

Section NotificationFacts.

Import Notifications.

Variable toUpperCase : string → string.

(** X15 (when a notification is proxied).  A notification with a type
    raises one native notification, titled with the type, its first
    character in upper case, and the message, if it is native friendly or
    the setting does not ask for that, the gatekeeper has enabled the
    feature, and the window is not focused or the setting allows it; if not,
    it raises none. *)
Theorem proxy_raises_when_allowed env n first rest s :
  getType n = String first rest →
  proxyToNativeNotification toUpperCase env n s
  = Normal
      (if (nativeFriendly n || negb (onlyNativeFriendly env))
          && gkEnabled s
          && (whenFocused env || negb (isFocused env))
       then {| gkEnabled := gkEnabled s;
               raised := raised s ++
                 [{| title := (toUpperCase (String first EmptyString) +:+ rest)
                              +:+ ": " +:+ getMessage n;
                     body := detail n;
                     icon := "atom://nuclide/pkg/nuclide-notifications/notification.png" |}] |}
       else s).
Proof.
  intros Ht. unfold proxyToNativeNotification, raiseNativeNotification,
    upperCaseFirst. rewrite Ht.
  destruct (nativeFriendly n), (onlyNativeFriendly env), (gkEnabled s),
    (whenFocused env), (isFocused env); done.
Qed.

(** X16 (a notification without a type).  For a notification whose type
    is the empty string, [proxyToNativeNotification] returns without effect
    when the notification is filtered out as not native friendly, and
    otherwise throws a [TypeError], also when the gatekeeper has not enabled
    the feature: the title is put together first. *)
Theorem proxy_of_untyped_notification env n s :
  getType n = "" →
  proxyToNativeNotification toUpperCase env n s
  = if negb (nativeFriendly n) && onlyNativeFriendly env then Normal s
    else Throw TypeError.
Proof.
  intros Ht. unfold proxyToNativeNotification, upperCaseFirst. by rewrite Ht.
Qed.

End NotificationFacts.

(** ** The device panel *)

Section DeviceFacts.

Import DeviceEpics.

Context {Process Killed Table : Type}.

Local Abbreviation InfoProvider := (DeviceInfoProvider Table).

Lemma Map_set_fresh {V} key (value : V) map :
  key ∉ map.*1 → Map_set key value map = map ++ [(key, value)].
Proof.
  induction map as [|[k v] map IH]; simpl; [done|].
  intros [Hk Hin]%not_elem_of_cons.
  destruct (String.eqb_spec k key) as [->|_]; [done|]. by rewrite IH.
Qed.

Lemma foldl_Map_set {V} (acc entries : list (string * V)) :
  NoDup ((acc ++ entries).*1) →
  foldl (λ map entry, Map_set entry.1 entry.2 map) acc entries = acc ++ entries.
Proof.
  revert acc. induction entries as [|[k v] entries IH]; intros acc Hnd; simpl.
  - by rewrite app_nil_r.
  - rewrite Map_set_fresh.
    + rewrite IH; rewrite <-app_assoc; [done|]. done.
    + rewrite fmap_app in Hnd. apply NoDup_app in Hnd as (_ & Hnd & _).
      intros Hin. apply (Hnd k Hin). simpl. by left.
Qed.

Lemma new_Map_NoDup {V} (entries : list (string * V)) :
  NoDup entries.*1 → new_Map entries = entries.
Proof. intros H. unfold new_Map. by rewrite foldl_Map_set. Qed.

Lemma omap_id_fmap {A B} (f : A → option B) (l : list A) :
  omap id (f <$> l) = omap f l.
Proof.
  induction l as [|a l IH]; [done|]. cbn. rewrite <-IH. by destruct (f a).
Qed.

Lemma omap_lookup_ordered {A B} (f : A → option B) (l : list A) i j x y :
  i < j → omap f l !! i = Some x → omap f l !! j = Some y →
  ∃ i' j' a b, i' < j' ∧ l !! i' = Some a ∧ l !! j' = Some b ∧
               f a = Some x ∧ f b = Some y.
Proof.
  revert i j. induction l as [|c l IH]; intros i j Hij Hi Hj; [done|].
  simpl in Hi, Hj. destruct (f c) as [z|] eqn:E.
  - destruct i as [|i]; simpl in *.
    + destruct j as [|j]; [lia|]. simpl in Hj. injection Hi as ->.
      apply list_elem_of_lookup_2 in Hj.
      apply list_elem_of_omap in Hj as (b & Hb & Hfb).
      apply list_elem_of_lookup in Hb as [j' Hj'].
      exists 0, (S j'), c, b. split_and!; try done. lia.
    + destruct j as [|j]; [lia|]. simpl in Hj.
      destruct (IH i j) as (i' & j' & a & b & ? & ? & ? & ? & ?); [lia|done..|].
      exists (S i'), (S j'), a, b. split_and!; try done. lia.
  - destruct (IH i j) as (i' & j' & a & b & ? & ? & ? & ? & ?); [done..|].
    exists (S i'), (S j'), a, b. split_and!; try done. lia.
Qed.

(** X19 (the process killer is the first provider's).  [getProcessKiller]
    gives [null] exactly when there is no device or no registered provider
    of the device's type; otherwise it kills through the first registered
    provider of that type, on the host and the device of the state. *)
Theorem getProcessKiller_first_of_type
    (registered : list (DeviceProcessesProvider Process Killed)) state :
  (getProcessKiller Process Killed registered state = None ↔
   device state = None ∨
   Forall (λ p, Some (getType _ _ p) ≠ deviceType state) registered) ∧
  (∀ dev before p after,
     device state = Some dev →
     registered = before ++ p :: after →
     Forall (λ p, Some (getType _ _ p) ≠ deviceType state) before →
     Some (getType _ _ p) = deviceType state →
     getProcessKiller Process Killed registered state
       = Some (killProcess _ _ p (host state) (name dev))).
Proof.
  unfold getProcessKiller. split.
  - destruct (device state) as [dev|]; [|tauto].
    destruct (filter _ registered) as [|p ps] eqn:E.
    + split; [|done]. intros _. right.
      apply Forall_forall. intros p Hp Ht.
      assert (p ∈ filter (λ provider, Some (getType _ _ provider)
                            = deviceType state) registered) as Hin
        by (by apply list_elem_of_filter).
      rewrite E in Hin. by apply elem_of_nil in Hin.
    + split; [done|]. intros [?|HF]; [done|].
      assert (p ∈ p :: ps) as Hin by (by left).
      rewrite <-E in Hin. apply list_elem_of_filter in Hin as [Ht Hin].
      rewrite Forall_forall in HF. by destruct (HF p Hin).
  - intros dev before p after -> -> HF Hp.
    rewrite filter_app, filter_cons_True by done.
    replace (filter _ before)
      with (@nil (DeviceProcessesProvider Process Killed)); [done|].
    symmetry. induction HF as [|q qs Hq HF IH]; [done|].
    by rewrite filter_cons_False.
Qed.

Lemma omap_NoDup_inj {A B C} (f : A → option B) (g : B → C) (l : list A)
    a a' x x' :
  NoDup (g <$> omap f l) → a ∈ l → a' ∈ l →
  f a = Some x → f a' = Some x' → g x = g x' → a = a'.
Proof.
  intros Hnd Ha Ha' Hx Hx' Hg.
  induction l as [|c l IH]; [by apply elem_of_nil in Ha|].
  assert (∀ b y, b ∈ l → f b = Some y → g y ∈ g <$> omap f l) as Hin.
  { intros b y Hb Hy. apply list_elem_of_fmap. exists y. split; [done|].
    apply list_elem_of_omap. by exists b. }
  apply elem_of_cons in Ha as [->|Ha], Ha' as [->|Ha']; [done|..].
  - simpl in Hnd. rewrite Hx in Hnd. simpl in Hnd.
    apply NoDup_cons in Hnd as [Hnd _]. destruct Hnd.
    rewrite Hg. by eapply Hin.
  - simpl in Hnd. rewrite Hx' in Hnd. simpl in Hnd.
    apply NoDup_cons in Hnd as [Hnd _]. destruct Hnd.
    rewrite <-Hg. by eapply Hin.
  - apply IH; [|done..]. simpl in Hnd.
    destruct (f c); [|done]. simpl in Hnd. by apply NoDup_cons in Hnd as [_ ?].
Qed.

(** X20 (info tables by priority).  For a device, when the titles of
    the tables are distinct, the tables that [getInfoTables] lists are those
    of the registered providers of the device's type that are supported and
    whose fetch succeeds, and they are listed by descending priority: when
    the table at position [i] is that of such a provider [a] and the table
    at a later position [j] is that of such a provider [b], the priority of
    [b] is not above that of [a], a provider without [getPriority] counting
    as -1. *)
Theorem getInfoTables_by_priority sort (registered : list InfoProvider) state dev :
  device state = Some dev →
  let candidates :=
    filter (λ p, Some (info_getType _ p) = deviceType state) registered in
  sorts (by_priority Table) candidates (sort (by_priority Table) candidates) →
  NoDup (omap (info_table Table state dev) candidates).*1 →
  let tables := getInfoTables Table sort registered state in
  (∀ entry, entry ∈ tables ↔
     ∃ p, p ∈ registered ∧ Some (info_getType _ p) = deviceType state ∧
          info_table Table state dev p = Some entry) ∧
  (∀ i j ei ej a b,
     i < j → tables !! i = Some ei → tables !! j = Some ej →
     a ∈ registered → Some (info_getType _ a) = deviceType state →
     info_table Table state dev a = Some ei →
     b ∈ registered → Some (info_getType _ b) = deviceType state →
     info_table Table state dev b = Some ej →
     (priority b ≤ priority a)%Z).
Proof.
  intros Hdev candidates [Hperm Hsorted] Hnd tables.
  assert (tables = omap (info_table Table state dev)
                     (sort (by_priority Table) candidates)) as ->.
  { unfold tables, getInfoTables. rewrite Hdev. fold candidates.
    rewrite omap_id_fmap. apply new_Map_NoDup.
    by rewrite Hperm. }
  split.
  - intros entry. rewrite list_elem_of_omap. split.
    + intros (p & Hp & He). exists p. rewrite Hperm in Hp.
      apply list_elem_of_filter in Hp as [Ht Hp]. done.
    + intros (p & Hp & Ht & He). exists p. split; [|done].
      rewrite Hperm. by apply list_elem_of_filter.
  - intros i j ei ej a b Hij Hi Hj Ha Hta Hfa Hb Htb Hfb.
    destruct (omap_lookup_ordered _ _ i j ei ej Hij Hi Hj)
      as (i' & j' & a' & b' & Hij' & Ha' & Hb' & Hfa' & Hfb').
    assert (∀ p q e, p ∈ registered →
              Some (info_getType _ p) = deviceType state →
              info_table Table state dev p = Some e →
              q ∈ sort (by_priority Table) candidates →
              info_table Table state dev q = Some e → p = q) as Hsame.
    { intros p q e Hp Htp Hfp Hq Hfq. rewrite Hperm in Hq.
      apply (omap_NoDup_inj (info_table Table state dev) fst candidates
               p q e e Hnd); try done.
      by apply list_elem_of_filter. }
    rewrite (Hsame a a' ei), (Hsame b b' ej);
      eauto using list_elem_of_lookup_2.
    pose proof (Hsorted i' j' a' b' Hij' Ha' Hb') as Hc.
    unfold by_priority in Hc. unfold priority.
    destruct (getPriority _ a'), (getPriority _ b'); simpl; lia.
Qed.

End DeviceFacts.

(** ** The properties at sample inputs *)

Lemma entries_are_awaited_witness :
  reachable (λ v, v) example_requested ∧
  get_table ExpressionsInFlight example_requested !! "x+1" = Some 1 ∧
  heap example_requested !! 1 = Some None ∧
  (∃ c o, (1, K_cachedSendCommand ExpressionsInFlight c "x+1" o)
            ∈ waiting example_requested) ∧
  (∀ t' key', get_table t' example_requested !! key' = Some 1 →
     t' = ExpressionsInFlight ∧ key' = "x+1").
Proof.
  assert (get_table ExpressionsInFlight example_requested !! "x+1" = Some 1) as H
    by (vm_compute; reflexivity).
  split; [exact reachable_example_requested|]. split; [exact H|].
  apply (entries_are_awaited (λ v, v) ExpressionsInFlight "x+1" 1
           example_requested reachable_example_requested H).
Defined.

Lemma send_asserts_string_key_witness :
  reachable (λ v, v) example_attached ∧
  _webview example_attached = Some 1 ∧
  (∀ v, hd JUndefined [] ≠ JStr v) ∧
  let '(p, s') := _cachedSendCommand GetPropertiesRequestsInFlight
                    "getProperties" [] example_attached in
  heap example_attached !! p = None ∧
  heap s' !! p = Some (Some (Rejected AssertionError)) ∧
  sent s' = sent example_attached ∧
  (∀ t', get_table t' s' = get_table t' example_attached) ∧
  waiting s' = waiting example_attached ∧
  microtasks s' = microtasks example_attached.
Proof.
  assert (_webview example_attached = Some 1) as H1 by reflexivity.
  assert (∀ v, hd JUndefined [] ≠ JStr v) as H2 by (intros v; discriminate).
  split; [exact reachable_example_attached|]. split; [exact H1|].
  split; [exact H2|].
  apply (send_asserts_string_key (λ v, v) GetPropertiesRequestsInFlight
           "getProperties" [] 1 example_attached reachable_example_attached
           H1 H2).
Defined.

Lemma pending_request_outlives_cleanup_witness :
  reachable (λ v, v) example_requested ∧
  get_table ExpressionsInFlight example_requested !! "x+1" = Some 1 ∧
  let '(p, s') := _cachedSendCommand ExpressionsInFlight "runtimeEvaluate"
                    (JStr "x+1" :: [])
                    (setWebviewElement 2 (cleanup example_requested)) in
  _webview s' = Some 2 ∧
  sent s' = sent example_requested ∧
  (∀ t', get_table t' s' = get_table t' example_requested) ∧
  heap s' !! 1 = Some None ∧
  heap s' !! p = Some None ∧
  (1, K_cachedSendCommand ExpressionsInFlight "runtimeEvaluate" "x+1" p)
    ∈ waiting s'.
Proof.
  assert (get_table ExpressionsInFlight example_requested !! "x+1" = Some 1) as H
    by (vm_compute; reflexivity).
  split; [exact reachable_example_requested|]. split; [exact H|].
  apply (pending_request_outlives_cleanup (λ v, v) ExpressionsInFlight "x+1" 1
           "runtimeEvaluate" [] 2 example_requested
           reachable_example_requested H).
Defined.

Lemma writes_go_to_attached_webview_witness :
  step (λ v, v) example_attached example_requested ∧
  wrote_to_attached example_attached example_requested ∧
  (_webview example_attached = None →
   sent example_requested = sent example_attached).
Proof.
  assert (step (λ v, v) example_attached example_requested) as H
    by apply step_cachedSendCommand.
  split; [exact H|].
  apply (writes_go_to_attached_webview (λ v, v) example_attached
           example_requested H).
Defined.


Lemma expression_response_answers_sends_witness :
  reachable (λ v, v) example_requested ∧
  get_table ExpressionsInFlight example_requested !! "x+1" = Some 1 ∧
  assoc "expression" [("expression", JStr "x+1"); ("result", JStr "2")]
    = JStr "x+1" ∧
  ∃ s',
    _handleIpcMessage (λ v, v) example_model
      {| channel := "notification";
         args := JStr "ExpressionEvaluationResponse"
                 :: JObj [("expression", JStr "x+1"); ("result", JStr "2")]
                 :: [] |} example_requested
      = Normal s' ∧
    heap s' !! 1
      = Some (Some (settlement
                      (assoc "result" [("expression", JStr "x+1"); ("result", JStr "2")])
                      (assoc "error" [("expression", JStr "x+1"); ("result", JStr "2")]))) ∧
    get_table ExpressionsInFlight (run_microtasks s') !! "x+1" = None ∧
    ∀ c p, (1, K_cachedSendCommand ExpressionsInFlight c "x+1" p)
             ∈ waiting example_requested →
      heap (run_microtasks s') !! p
        = Some (Some (Fulfilled
            (if nullish (assoc "error" [("expression", JStr "x+1"); ("result", JStr "2")])
             then assoc "result" [("expression", JStr "x+1"); ("result", JStr "2")]
             else JNull))) ∧
      (nullish (assoc "error" [("expression", JStr "x+1"); ("result", JStr "2")]) = false →
       (c +:+ ": Error getting result.",
        assoc "error" [("expression", JStr "x+1"); ("result", JStr "2")])
         ∈ warnings (run_microtasks s')).
Proof.
  assert (get_table ExpressionsInFlight example_requested !! "x+1" = Some 1) as H
    by (vm_compute; reflexivity).
  split; [exact reachable_example_requested|]. split; [exact H|].
  split; [reflexivity|].
  apply (expression_response_answers_sends (λ v, v) example_model
           [("expression", JStr "x+1"); ("result", JStr "2")] [] "x+1" 1
           example_requested reachable_example_requested H eq_refl).
Defined.

Lemma properties_response_answers_sends_witness :
  reachable (λ v, v) example_both ∧
  get_table GetPropertiesRequestsInFlight example_both !! "x+1" = Some 3 ∧
  assoc "objectId" [("objectId", JStr "x+1"); ("error", JStr "gone")]
    = JStr "x+1" ∧
  ∃ s',
    _handleIpcMessage (λ v, v) example_model
      {| channel := "notification";
         args := JStr "GetPropertiesResponse"
                 :: JObj [("objectId", JStr "x+1"); ("error", JStr "gone")]
                 :: [] |} example_both
      = Normal s' ∧
    heap s' !! 3
      = Some (Some (settlement
                      (assoc "result" [("objectId", JStr "x+1"); ("error", JStr "gone")])
                      (assoc "error" [("objectId", JStr "x+1"); ("error", JStr "gone")]))) ∧
    get_table GetPropertiesRequestsInFlight (run_microtasks s') !! "x+1" = None ∧
    ∀ c p,
      (3, K_cachedSendCommand GetPropertiesRequestsInFlight c "x+1" p)
        ∈ waiting example_both →
      heap (run_microtasks s') !! p
        = Some (Some (Fulfilled
            (if nullish (assoc "error" [("objectId", JStr "x+1"); ("error", JStr "gone")])
             then assoc "result" [("objectId", JStr "x+1"); ("error", JStr "gone")]
             else JNull))) ∧
      (nullish (assoc "error" [("objectId", JStr "x+1"); ("error", JStr "gone")]) = false →
       (c +:+ ": Error getting result.",
        assoc "error" [("objectId", JStr "x+1"); ("error", JStr "gone")])
         ∈ warnings (run_microtasks s')).
Proof.
  assert (get_table GetPropertiesRequestsInFlight example_both !! "x+1" = Some 3)
    as H by (vm_compute; reflexivity).
  split; [exact reachable_example_both|]. split; [exact H|].
  split; [reflexivity|].
  apply (properties_response_answers_sends (λ v, v) example_model
           [("objectId", JStr "x+1"); ("error", JStr "gone")] [] "x+1" 3
           example_both reachable_example_both H eq_refl).
Defined.

Lemma response_without_payload_throws_witness :
  ("GetPropertiesResponse" = "ExpressionEvaluationResponse" ∨
   "GetPropertiesResponse" = "GetPropertiesResponse") ∧
  let r := _handleIpcMessage (λ v, v) example_model
             {| channel := "notification";
                args := JStr "GetPropertiesResponse" :: [] |} example_both in
  (nullish (hd JUndefined []) = true → r = Throw TypeError) ∧
  (nullish (hd JUndefined []) = false → ∃ s', r = Normal s').
Proof.
  assert ("GetPropertiesResponse" = "ExpressionEvaluationResponse" ∨
          "GetPropertiesResponse" = "GetPropertiesResponse") as H
    by (right; reflexivity).
  split; [exact H|].
  apply (response_without_payload_throws (λ v, v) example_model
           "GetPropertiesResponse" [] example_both H).
Defined.

Lemma pause_makes_evaluations_fresh_witness :
  reachable (λ v, v) example_requested ∧
  _webview example_requested = Some 1 ∧
  channel example_paused = "notification" ∧
  hd JUndefined (args example_paused) = JStr "NonLoaderDebuggerPaused" ∧
  ∃ s1,
    _handleIpcMessage (λ v, v) example_model example_paused example_requested
      = Normal s1 ∧
    let '(p, s2) := _cachedSendCommand ExpressionsInFlight
                      "evaluateOnSelectedCallFrame"
                      (JStr "x+1" :: [JStr "console"]) (run_microtasks s1) in
    sent s2 = sent example_requested ++
              [(1, JStr "command" :: JStr "evaluateOnSelectedCallFrame"
                     :: JStr "x+1" :: [JStr "console"])] ∧
    ∃ d, get_table ExpressionsInFlight s2 !! "x+1" = Some d ∧
         heap example_requested !! d = None ∧
         (d, K_cachedSendCommand ExpressionsInFlight
               "evaluateOnSelectedCallFrame" "x+1" p) ∈ waiting s2.
Proof.
  assert (_webview example_requested = Some 1) as H1 by reflexivity.
  assert (channel example_paused = "notification") as H2 by reflexivity.
  assert (hd JUndefined (args example_paused) = JStr "NonLoaderDebuggerPaused")
    as H3 by reflexivity.
  split; [exact reachable_example_requested|]. split; [exact H1|].
  split; [exact H2|]. split; [exact H3|].
  apply (pause_makes_evaluations_fresh (λ v, v) example_model example_paused
           "evaluateOnSelectedCallFrame" "x+1" [JStr "console"] 1
           example_requested reachable_example_requested H1 H2 H3).
Defined.

Lemma suspended_until_settled_witness :
  reachable (λ v, v) example_requested ∧
  (1, K_cachedSendCommand ExpressionsInFlight "evaluateOnSelectedCallFrame"
        "x+1" 0) ∈ waiting example_requested ∧
  rtc (step (λ v, v)) example_requested example_after_pause ∧
  heap example_after_pause !! 1 = Some None ∧
  (1, K_cachedSendCommand ExpressionsInFlight "evaluateOnSelectedCallFrame"
        "x+1" 0) ∈ waiting example_after_pause ∧
  heap example_after_pause
    !! target (K_cachedSendCommand ExpressionsInFlight
                 "evaluateOnSelectedCallFrame" "x+1" 0) = Some None.
Proof.
  assert ((1, K_cachedSendCommand ExpressionsInFlight
                "evaluateOnSelectedCallFrame" "x+1" 0)
            ∈ waiting example_requested) as H1 by (vm_compute; by left).
  assert (rtc (step (λ v, v)) example_requested example_after_pause) as H2.
  { apply rtc_once.
    by apply (step_handleIpcMessage _ example_model example_paused). }
  assert (heap example_after_pause !! 1 = Some None) as H3
    by (vm_compute; reflexivity).
  split; [exact reachable_example_requested|]. split; [exact H1|].
  split; [exact H2|]. split; [exact H3|].
  apply (suspended_until_settled (λ v, v) 1 _ example_requested
           example_after_pause reachable_example_requested H1 H2 H3).
Defined.

Lemma delivery_touches_one_key_witness :
  reachable (λ v, v) example_both ∧
  get_table ExpressionsInFlight example_both !! "x+1" = Some 1 ∧
  ∃ s1,
    deliver ExpressionsInFlight "x+1" (JStr "2") JNull example_both = Normal s1 ∧
    heap s1 !! 1 = Some (Some (settlement (JStr "2") JNull)) ∧
    ∀ t' key' d',
      t' ≠ ExpressionsInFlight ∨ key' ≠ "x+1" →
      get_table t' example_both !! key' = Some d' →
      d' ≠ 1 ∧
      get_table t' (run_microtasks s1) !! key' = Some d' ∧
      heap (run_microtasks s1) !! d' = Some None ∧
      same_waiter d' example_both (run_microtasks s1).
Proof.
  assert (get_table ExpressionsInFlight example_both !! "x+1" = Some 1) as H
    by (vm_compute; reflexivity).
  split; [exact reachable_example_both|]. split; [exact H|].
  apply (delivery_touches_one_key (λ v, v) ExpressionsInFlight "x+1" 1
           (JStr "2") JNull example_both reachable_example_both H).
Defined.

Lemma processDiagnostics_reports_shown_witness :
  enabled false example_data ∧
  ClangLinter._processDiagnostics false example_data example_editor
    = Normal example_messages ∧
  Forall2 (reports example_editor)
    (filter shown (ClangLinter.diagnostics example_data)) example_messages.
Proof.
  assert (enabled false example_data) as H1 by (left; reflexivity).
  assert (ClangLinter._processDiagnostics false example_data example_editor
            = Normal example_messages) as H2 by (vm_compute; reflexivity).
  split; [exact H1|]. split; [exact H2|].
  apply (processDiagnostics_reports_shown false example_data example_editor
           example_messages H1 H2).
Defined.

Lemma alike_example_editors : alike_from_row_0 example_editor example_other_editor.
Proof.
  split_and!; [done|..].
  - intros row H. simpl. by rewrite (proj2 (Z.ltb_ge _ _)).
  - intros point H. simpl. by rewrite (proj2 (Z.ltb_ge _ _)).
Qed.

Example unbounded_range_shown_as_point :
  ClangLinter._processDiagnostics false example_unbounded example_editor
  = Normal
      [{| ClangLinter.scope := "file";
          ClangLinter.providerName := "Clang";
          ClangLinter.type := "Warning";
          ClangLinter.filePath := Some "a.cpp";
          ClangLinter.text := "expected ';'";
          ClangLinter.range := ClangLinter.mkRange (3, 0)%Z (3, 80)%Z;
          ClangLinter.trace :=
            Some [{| ClangLinter.trace_type := "Trace";
                     ClangLinter.trace_text := "in macro";
                     ClangLinter.trace_filePath := Some "a.cpp";
                     ClangLinter.trace_range :=
                       ClangLinter.mkRange (0, 0)%Z (0, 80)%Z |}];
          ClangLinter.fix_ :=
            Some {| ClangLinter.fix_range := ClangLinter.mkRange (3, 4)%Z (3, 9)%Z;
                    ClangLinter.newText := ";" |} |}].
Proof. reflexivity. Qed.

Lemma processDiagnostics_ranges_from_sources_witness :
  enabled false example_unbounded ∧
  alike_from_row_0 example_editor example_other_editor ∧
  (∀ msgs,
     ClangLinter._processDiagnostics false example_unbounded example_editor
       = Normal msgs →
     Forall2 (ranges_follow example_editor)
       (filter shown (ClangLinter.diagnostics example_unbounded)) msgs) ∧
  ClangLinter._processDiagnostics false example_unbounded example_other_editor
    = ClangLinter._processDiagnostics false example_unbounded example_editor.
Proof.
  assert (enabled false example_unbounded) as H1 by (by left).
  split; [exact H1|]. split; [exact alike_example_editors|].
  split.
  - intros msgs.
    apply (proj1 (processDiagnostics_ranges_from_sources false example_unbounded
                    example_editor) msgs H1).
  - apply (proj2 (processDiagnostics_ranges_from_sources false example_unbounded
                    example_editor) example_other_editor alike_example_editors).
Defined.

Lemma lint_malformed_hides_all_witness :
  ClangLinter.getPath example_editor = Some "a.cpp" ∧
  "a.cpp" ≠ "" ∧
  enabled false example_malformed ∧
  Exists (λ d, shown d ∧ without_first_range d)
    (ClangLinter.diagnostics example_malformed) ∧
  ClangLinter.lint false example_editor
    (ClangLinter.Resolved (Some example_malformed)) false
  = (Normal [],
     {| ClangLinter.tracked :=
          [{| ClangLinter.track_filePath := "a.cpp";
              ClangLinter.count :=
                length (ClangLinter.diagnostics example_malformed);
              ClangLinter.track_accurateFlags :=
                ClangLinter.accurateFlags example_malformed |}];
        ClangLinter.logged :=
          [("ClangLinter: error linting " +:+ "a.cpp", TypeError)] |}).
Proof.
  assert (ClangLinter.getPath example_editor = Some "a.cpp") as H1 by reflexivity.
  assert ("a.cpp" ≠ "") as H2 by discriminate.
  assert (enabled false example_malformed) as H3 by (left; reflexivity).
  assert (Exists (λ d, shown d ∧ without_first_range d)
            (ClangLinter.diagnostics example_malformed)) as H4.
  { right. left. split; [unfold shown; simpl; lia|reflexivity]. }
  split; [exact H1|]. split; [exact H2|]. split; [exact H3|]. split; [exact H4|].
  apply (lint_malformed_hides_all false example_editor example_malformed "a.cpp"
           H1 H2 H3 H4).
Defined.

Lemma proxy_raises_when_allowed_witness :
  Notifications.getType example_notification = String (Ascii.ascii_of_nat 105) "nfo" ∧
  Notifications.proxyToNativeNotification example_toUpperCase
    example_surroundings example_notification example_enabled
  = Normal
      (if (Notifications.nativeFriendly example_notification
           || negb (Notifications.onlyNativeFriendly example_surroundings))
          && Notifications.gkEnabled example_enabled
          && (Notifications.whenFocused example_surroundings
              || negb (Notifications.isFocused example_surroundings))
       then {| Notifications.gkEnabled := Notifications.gkEnabled example_enabled;
               Notifications.raised := Notifications.raised example_enabled ++
                 [{| Notifications.title :=
                       (example_toUpperCase (String (Ascii.ascii_of_nat 105) EmptyString) +:+ "nfo")
                       +:+ ": " +:+ Notifications.getMessage example_notification;
                     Notifications.body := Notifications.detail example_notification;
                     Notifications.icon :=
                       "atom://nuclide/pkg/nuclide-notifications/notification.png" |}] |}
       else example_enabled).
Proof.
  assert (Notifications.getType example_notification = String (Ascii.ascii_of_nat 105) "nfo") as H
    by reflexivity.
  split; [exact H|].
  apply (proxy_raises_when_allowed example_toUpperCase example_surroundings
           example_notification (Ascii.ascii_of_nat 105) "nfo" example_enabled H).
Defined.

Lemma proxy_of_untyped_notification_witness :
  Notifications.getType example_untyped = "" ∧
  Notifications.proxyToNativeNotification example_toUpperCase
    example_surroundings example_untyped example_enabled
  = if negb (Notifications.nativeFriendly example_untyped)
       && Notifications.onlyNativeFriendly example_surroundings
    then Normal example_enabled
    else Throw TypeError.
Proof.
  assert (Notifications.getType example_untyped = "") as H by reflexivity.
  split; [exact H|].
  apply (proxy_of_untyped_notification example_toUpperCase example_surroundings
           example_untyped example_enabled H).
Defined.

Lemma reachable_example_modal : Modal.reachable example_contains example_modal.
Proof. apply rtc_once. apply Modal.step_ref. Qed.

Lemma modal_has_one_subscription_witness :
  Modal.reachable example_contains example_modal ∧
  one_subscription example_modal.
Proof.
  split; [exact reachable_example_modal|].
  apply (modal_has_one_subscription example_contains example_modal
           reachable_example_modal).
Defined.

Lemma reachable_example_shown : Modal.reachable example_contains example_shown.
Proof.
  eapply rtc_r; [exact reachable_example_modal|]. apply Modal.step_interval.
Qed.

Example click_that_showed_the_modal :
  Modal.dismissed (Modal.window_click example_contains 9 example_modal) = 0.
Proof. reflexivity. Qed.

Example click_outside_the_shown_modal :
  Modal.dismissed (Modal.window_click example_contains 9 example_shown) = 1.
Proof. reflexivity. Qed.

Lemma modal_dismisses_once_witness :
  Modal.reachable example_contains example_shown ∧
  Modal.window_click example_contains 9 example_shown
    = match Modal._innerElement example_shown with
      | Some inner =>
          if past_skipUntil example_shown && negb (example_contains inner 9)
          then Modal.onDismiss example_shown else example_shown
      | None => example_shown
      end ∧
  (∀ el,
     let rendered := Modal._handleContainerInnerElement el example_shown in
     past_skipUntil rendered = false ∧
     Modal.window_click example_contains 9 rendered = rendered) ∧
  (∀ e,
     let rendered :=
       Modal._handleContainerInnerElement (Some e) example_shown in
     let shown := Modal.interval_fires (Modal.made example_shown) rendered in
     past_skipUntil shown = true ∧
     Modal.window_click example_contains 9 shown
       = if example_contains e 9 then shown else Modal.onDismiss shown) ∧
  Modal.core_cancel example_shown
    = match Modal._innerElement example_shown with
      | Some _ => Modal.onDismiss example_shown
      | None => example_shown
      end.
Proof.
  split; [exact reachable_example_shown|].
  apply (modal_dismisses_once example_contains 9 example_shown
           reachable_example_shown).
Defined.

Lemma sorts_example_providers :
  sorts (DeviceEpics.by_priority string)
    (filter (λ p, Some (DeviceEpics.info_getType _ p)
                  = DeviceEpics.deviceType example_device_state)
            example_providers)
    (example_sort (DeviceEpics.by_priority string)
       (filter (λ p, Some (DeviceEpics.info_getType _ p)
                     = DeviceEpics.deviceType example_device_state)
               example_providers)).
Proof.
  split.
  - vm_compute. apply perm_swap.
  - intros i j a b Hij Hi Hj. vm_compute in Hi, Hj.
    destruct i as [|[|i]], j as [|[|j]]; simplify_eq; try lia; by vm_compute.
Qed.

Lemma getInfoTables_by_priority_witness :
  DeviceEpics.device example_device_state
    = Some {| DeviceEpics.name := "emulator-5554" |} ∧
  let candidates :=
    filter (λ p, Some (DeviceEpics.info_getType _ p)
                 = DeviceEpics.deviceType example_device_state)
           example_providers in
  sorts (DeviceEpics.by_priority string) candidates
    (example_sort (DeviceEpics.by_priority string) candidates) ∧
  NoDup (omap (DeviceEpics.info_table string example_device_state
                 {| DeviceEpics.name := "emulator-5554" |}) candidates).*1 ∧
  let tables := DeviceEpics.getInfoTables string example_sort example_providers
                  example_device_state in
  (∀ entry, entry ∈ tables ↔
     ∃ p, p ∈ example_providers ∧
          Some (DeviceEpics.info_getType _ p)
            = DeviceEpics.deviceType example_device_state ∧
          DeviceEpics.info_table string example_device_state
            {| DeviceEpics.name := "emulator-5554" |} p = Some entry) ∧
  (∀ i j ei ej a b,
     i < j → tables !! i = Some ei → tables !! j = Some ej →
     a ∈ example_providers →
     Some (DeviceEpics.info_getType _ a)
       = DeviceEpics.deviceType example_device_state →
     DeviceEpics.info_table string example_device_state
       {| DeviceEpics.name := "emulator-5554" |} a = Some ei →
     b ∈ example_providers →
     Some (DeviceEpics.info_getType _ b)
       = DeviceEpics.deviceType example_device_state →
     DeviceEpics.info_table string example_device_state
       {| DeviceEpics.name := "emulator-5554" |} b = Some ej →
     (priority b ≤ priority a)%Z).
Proof.
  assert (DeviceEpics.device example_device_state
            = Some {| DeviceEpics.name := "emulator-5554" |}) as H1 by reflexivity.
  assert (NoDup (omap (DeviceEpics.info_table string example_device_state
                         {| DeviceEpics.name := "emulator-5554" |})
                   (filter (λ p, Some (DeviceEpics.info_getType _ p)
                                 = DeviceEpics.deviceType example_device_state)
                           example_providers)).*1) as H3.
  { vm_compute. apply NoDup_cons. split; [|apply NoDup_singleton].
    intros H%list_elem_of_singleton. discriminate. }
  split; [exact H1|]. cbv zeta. split; [exact sorts_example_providers|].
  split; [exact H3|].
  apply (getInfoTables_by_priority example_sort example_providers
           example_device_state {| DeviceEpics.name := "emulator-5554" |}
           H1 sorts_example_providers H3).
Defined.
